(** * Cross-pod home migration: [txdav/common/datastore/podding/migration/home_sync.py]

    A shallow embedding of [inTransactionWrapper] and of the class
    [CrossPodHomeSync].  Methods decorated with [@inlineCallbacks] become
    computations of the monad [M] below (state passing over a [World], with
    Python exceptions as an error result).  The store, the conduit and the
    directory service are collaborators of the module; their state is part of
    [World] and every call the module makes on them is recorded in the world's
    trace, so that statements about what is called, in which order and inside
    which transaction can be read off the trace. *)

From stdpp Require Import gmap strings list pretty.
From Stdlib Require Import Lia.

Open Scope string_scope.
Open Scope list_scope.
Open Scope stdpp_scope.
Open Scope nat_scope.

(** ** Python exceptions *)

(** What a [raise] can carry.  The first six are instances of Python's
    [Exception]: those that the module raises itself or meets from the
    interpreter when it uses [None] as an object or looks up a key that a
    dict does not hold; [StoreError] stands for any other [Exception] raised
    by a collaborator.  The last three derive from [BaseException] only:
    they are not instances of [Exception]. *)
Inductive exn : Type :=
| DirectoryRecordNotFoundError (msg : string)
| ValueError (msg : string)
| AttributeError (msg : string)
| KeyError (key : string)
| TypeError (msg : string)
| StoreError (msg : string)
| KeyboardInterrupt
| SystemExit (code : string)
| GeneratorExit.

(** [isinstance(e, Exception)] *)
Definition is_Exception (e : exn) : bool :=
  match e with
  | KeyboardInterrupt | SystemExit _ | GeneratorExit => false
  | _ => true
  end.

(** [str(ex)] *)
Definition str_exn (e : exn) : string :=
  match e with
  | DirectoryRecordNotFoundError m | ValueError m | AttributeError m
  | KeyError m | TypeError m | StoreError m => m
  | SystemExit code => code
  | KeyboardInterrupt | GeneratorExit => EmptyString
  end.

Global Instance exn_eq_dec : EqDecision exn.
Proof. solve_decision. Defined.

(** [twisted.python.failure.Failure]: [Failure()] built inside an [except]
    block captures the exception being handled. *)
Record Failure : Type := mkFailure { fvalue : exn }.

Global Instance Failure_eq_dec : EqDecision Failure.
Proof. solve_decision. Defined.

(** How a computation ends: with a value, or with an exception.  For a
    generator body run by [inlineCallbacks], [Err e] is an exception leaving
    the body; for the Deferred it returns, [Err e] is the Deferred firing with
    [Failure(e)], which a [yield] in the caller raises again. *)
Inductive result (A : Type) : Type :=
| Ok (a : A)
| Err (e : exn).
Arguments Ok {A} a.
Arguments Err {A} e.

Definition is_ok {A} (r : result A) : bool :=
  match r with Ok _ => true | Err _ => false end.

(** ** The data the module works on *)

(** A directory record, as far as the module looks at it: [record.uid] and
    [record.thisServer()]. *)
Record DirRecord : Type := mkDirRecord {
  rec_uid : string;
  rec_thisServer : bool
}.

(** A calendar object resource: [id()], [md5()], [component()] and the
    meta-data that [copyMetadata] carries over. *)
Record CalObject : Type := mkCalObject {
  o_id : nat;
  o_md5 : string;
  o_component : string;
  o_meta : string
}.

(** A calendar collection with its object resources by name. *)
Record Calendar : Type := mkCalendar {
  c_home : nat;
  c_name : string;
  c_meta : string;
  c_objects : gmap string CalObject
}.

Record Home : Type := mkHome {
  h_id : nat;
  h_meta : string;
  h_migratingUID : option string
}.

(** A managed attachment row. *)
Record Attachment : Type := mkAttachment {
  a_home : nat;
  a_md5 : string;
  a_meta : string;
  a_data : string
}.

(** A row of ATTACHMENT_CALENDAR_OBJECT: [_attachmentID], [_calendarObjectID]. *)
Record Link : Type := mkLink {
  l_attachmentID : nat;
  l_calendarObjectID : nat
}.

(** [CalendarMigrationRecord]; [cm_isnew] is [isnew()]: the record was made
    with [make] and is not in the table yet. *)
Record CalendarMigrationRecord : Type := mkCalendarMigrationRecord {
  calendarHomeResourceID : nat;
  remoteResourceID : nat;
  localResourceID : nat;
  lastSyncToken : option string;
  cm_isnew : bool
}.

(** [CalendarObjectMigrationRecord] and [AttachmentMigrationRecord] have the
    same three columns. *)
Record IdMigrationRecord : Type := mkIdMigrationRecord {
  im_home : nat;
  im_remote : nat;
  im_local : nat
}.

(** Delegate assignments dumped from the remote pod. *)
Record DelegateRecord : Type := mkDelegateRecord {
  dg_delegator : string;
  dg_delegate : string;
  dg_readWrite : bool
}.

Record GroupDelegateRecord : Type := mkGroupDelegateRecord {
  gd_delegator : string;
  gd_groupID : nat;
  gd_readWrite : bool
}.

Global Instance DirRecord_eq_dec : EqDecision DirRecord.
Proof. solve_decision. Defined.
Global Instance CalObject_eq_dec : EqDecision CalObject.
Proof. solve_decision. Defined.
Global Instance Attachment_eq_dec : EqDecision Attachment.
Proof. solve_decision. Defined.
Global Instance Link_eq_dec : EqDecision Link.
Proof. solve_decision. Defined.
Global Instance CalendarMigrationRecord_eq_dec : EqDecision CalendarMigrationRecord.
Proof. solve_decision. Defined.
Global Instance IdMigrationRecord_eq_dec : EqDecision IdMigrationRecord.
Proof. solve_decision. Defined.

(** *** The local store *)

(** The tables of the destination pod that the module reads and writes.  The
    migration tables are keyed by their unique key (home id, remote id). *)
Record DB : Type := mkDB {
  db_homes : gmap string Home;
  db_calendars : gmap nat Calendar;
  db_attachments : gmap nat Attachment;
  db_links : list Link;
  db_calendar_migration : gmap (nat * nat) (nat * option string);
  db_object_migration : gmap (nat * nat) nat;
  db_attachment_migration : gmap (nat * nat) nat;
  db_delegates : list DelegateRecord;
  db_external_delegates : list DelegateRecord;
  db_group_delegates : list GroupDelegateRecord;
  db_groups : gmap string nat
}.

Definition empty_DB : DB :=
  mkDB ∅ ∅ ∅ [] ∅ ∅ ∅ [] [] [] ∅.

(** *** The remote pod, as the conduit shows it *)

Record RemoteCalendar : Type := mkRemoteCalendar {
  rc_owned : bool;
  rc_syncToken : string;
  rc_meta : string;
  rc_name : string;
  rc_objects : gmap string CalObject;
  (** [resourceNamesSinceToken(token)]: changed names, deleted names, and
      whether the token was invalid *)
  rc_changes : option string → list string * list string * bool
}.

Record Remote : Type := mkRemote {
  (** what [conduit.send_home_resource_id] answers *)
  r_resourceID : option nat;
  r_meta : string;
  r_calendars : gmap nat RemoteCalendar;
  r_attachments : gmap nat Attachment;
  r_links : list Link;
  r_delegates : list DelegateRecord;
  r_external_delegates : list DelegateRecord;
  r_group_delegates : list (GroupDelegateRecord * string)
}.

(** *** What the collaborators were asked to do *)

Inductive Event : Type :=
| EvNewTransaction (t : nat) (label : string)
| EvCommit (t : nat)
| EvAbort (t : nat)
| EvLogError (msg : string)
| EvEnter (method : string)
| EvLeave (method : string)
| EvConduit (t : nat) (request : string)
| EvResourceNamesSinceToken (t : nat) (remoteID : nat) (token : option string)
| EvHomeCreate (t : nat) (uid : string)
| EvHomeCopyMetadata (t : nat) (homeID : nat)
| EvCalendarCreate (t : nat) (calendarID : nat)
| EvCalendarPurge (t : nat) (calendarID : nat)
| EvCalendarCopyMetadata (t : nat) (calendarID : nat)
| EvMigrating (t : nat)
| EvObjectSet (t : nat) (calendarID : nat) (name : string)
| EvObjectCreate (t : nat) (calendarID : nat) (name : string)
| EvObjectCopyMetadata (t : nat) (calendarID : nat) (name : string)
| EvObjectPurge (t : nat) (calendarID : nat) (name : string)
| EvSyncStateInsert (t : nat) (remoteID : nat)
| EvSyncStateUpdate (t : nat) (remoteID : nat)
| EvObjectRecordCreate (t : nat) (remoteID localID : nat)
| EvAttachmentLoad (t : nat) (attachmentID : nat)
| EvAttachmentRemove (t : nat) (attachmentID : nat) (adjustQuota : bool)
| EvAttachmentCreate (t : nat) (attachmentID : nat)
| EvAttachmentCopyRemote (t : nat) (attachmentID remoteID : nat)
| EvAttachmentRecordCreate (t : nat) (remoteID localID : nat)
| EvAttachmentRecordDelete (t : nat) (remoteID : nat)
| EvReadAttachmentData (t : nat) (remoteID localID : nat)
| EvLinkInsert (t : nat) (attachmentID calendarObjectID : nat)
| EvDelegateInsert (t : nat) (delegator : string)
| EvGroupByUID (t : nat) (groupUID : string).

Global Instance Event_eq_dec : EqDecision Event.
Proof. solve_decision. Defined.

(** *** The world *)

Record World : Type := mkWorld {
  (** the local store, with the writes of the open transaction *)
  w_db : DB;
  (** open transactions, each with the store as it was when it began *)
  w_open : gmap nat DB;
  w_next_txn : nat;
  (** source of resource ids; ids are never reused *)
  w_next_id : nat;
  (** source of [uuid.uuid4()] *)
  w_next_uuid : nat;
  w_remote : Remote;
  w_directory : gmap string DirRecord;
  (** [self.record] and [self.homeId]: [None] while the attribute has not
      been assigned ([__init__] sets neither); [self.record] is assigned
      what the directory answers, which can be Python's [None] *)
  w_record : option (option DirRecord);
  w_homeId : option nat;
  w_trace : list Event
}.

Definition set_db (f : DB → DB) (w : World) : World :=
  mkWorld (f (w_db w)) (w_open w) (w_next_txn w) (w_next_id w) (w_next_uuid w)
          (w_remote w) (w_directory w) (w_record w) (w_homeId w) (w_trace w).

Definition set_open (f : gmap nat DB → gmap nat DB) (w : World) : World :=
  mkWorld (w_db w) (f (w_open w)) (w_next_txn w) (w_next_id w) (w_next_uuid w)
          (w_remote w) (w_directory w) (w_record w) (w_homeId w) (w_trace w).

Definition set_next_txn (n : nat) (w : World) : World :=
  mkWorld (w_db w) (w_open w) n (w_next_id w) (w_next_uuid w)
          (w_remote w) (w_directory w) (w_record w) (w_homeId w) (w_trace w).

Definition set_next_id (n : nat) (w : World) : World :=
  mkWorld (w_db w) (w_open w) (w_next_txn w) n (w_next_uuid w)
          (w_remote w) (w_directory w) (w_record w) (w_homeId w) (w_trace w).

Definition set_next_uuid (n : nat) (w : World) : World :=
  mkWorld (w_db w) (w_open w) (w_next_txn w) (w_next_id w) n
          (w_remote w) (w_directory w) (w_record w) (w_homeId w) (w_trace w).

Definition set_record (r : option (option DirRecord)) (w : World) : World :=
  mkWorld (w_db w) (w_open w) (w_next_txn w) (w_next_id w) (w_next_uuid w)
          (w_remote w) (w_directory w) r (w_homeId w) (w_trace w).

Definition set_homeId (h : option nat) (w : World) : World :=
  mkWorld (w_db w) (w_open w) (w_next_txn w) (w_next_id w) (w_next_uuid w)
          (w_remote w) (w_directory w) (w_record w) h (w_trace w).

Definition record_event (ev : Event) (w : World) : World :=
  mkWorld (w_db w) (w_open w) (w_next_txn w) (w_next_id w) (w_next_uuid w)
          (w_remote w) (w_directory w) (w_record w) (w_homeId w) (w_trace w ++ [ev]).

(** ** The monad of the module's methods *)

Definition M (A : Type) : Type := World → result A * World.

Definition ret {A} (a : A) : M A := fun w => (Ok a, w).

Definition raise {A} (e : exn) : M A := fun w => (Err e, w).

Definition bind {A B} (c : M A) (k : A → M B) : M B :=
  fun w => match c w with
           | (Ok a, w') => k a w'
           | (Err e, w') => (Err e, w')
           end.

Notation "x <- c ;; k" := (bind c (fun x => k))
  (at level 100, c at next level, right associativity, only parsing).
Notation "c ;;; k" := (bind c (fun _ => k))
  (at level 100, right associativity, only parsing).

Definition gets {A} (f : World → A) : M A := fun w => (Ok (f w), w).

Definition modify (f : World → World) : M unit := fun w => (Ok tt, f w).

Definition emit (ev : Event) : M unit := modify (record_event ev).

(** [try: body / except Exception as ex: handler / else: orelse].  The
    clause catches the instances of [Exception]; any other raisable leaves
    the statement as it came. *)
Definition try_except_else {A B} (body : M A) (handler : exn → M B) (orelse : A → M B) : M B :=
  fun w => match body w with
           | (Ok a, w') => orelse a w'
           | (Err e, w') => if is_Exception e then handler e w' else (Err e, w')
           end.

(** [for x in l: s = body x s], the loop state [s] being what the body mutates *)
Fixpoint for_each {A S} (l : list A) (body : A → S → M S) (s : S) : M S :=
  match l with
  | [] => ret s
  | x :: l' => s' <- body x s ;; for_each l' body s'
  end.

(** [for x in l: body x] *)
Definition for_each_ {A} (l : list A) (body : A → M unit) : M unit :=
  for_each l (fun x _ => body x) tt.

(** Using [None] as an object: [o.attr] raises [AttributeError]. *)
Definition attr_of {A} (attr : string) (o : option A) : M A :=
  match o with
  | Some a => ret a
  | None => raise (AttributeError ("'NoneType' object has no attribute '" +:+ attr +:+ "'"))
  end.

(** [d[k]] on a dict *)
Definition getitem {A} (d : gmap nat A) (k : nat) : M A :=
  match d !! k with
  | Some a => ret a
  | None => raise (KeyError (pretty k))
  end.

(** [dict(pairs)]: a later pair replaces an earlier one with the same key. *)
Definition py_dict {K A} `{Countable K} (pairs : list (K * A)) : gmap K A :=
  list_to_map (reverse pairs).

(** ** Collaborators

    The store ([txdav.caldav.datastore.sql]), the migration record tables
    ([sync_metadata]), the conduit and the directory service are not part of
    [home_sync.py].  The definitions of this part give them the behaviour that
    the specification's interface section (§3, §6) describes. *)

Definition with_homes (f : gmap string Home → gmap string Home) (db : DB) : DB :=
  mkDB (f (db_homes db)) (db_calendars db) (db_attachments db) (db_links db)
       (db_calendar_migration db) (db_object_migration db) (db_attachment_migration db)
       (db_delegates db) (db_external_delegates db) (db_group_delegates db) (db_groups db).

Definition with_calendars (f : gmap nat Calendar → gmap nat Calendar) (db : DB) : DB :=
  mkDB (db_homes db) (f (db_calendars db)) (db_attachments db) (db_links db)
       (db_calendar_migration db) (db_object_migration db) (db_attachment_migration db)
       (db_delegates db) (db_external_delegates db) (db_group_delegates db) (db_groups db).

Definition with_attachments (f : gmap nat Attachment → gmap nat Attachment) (db : DB) : DB :=
  mkDB (db_homes db) (db_calendars db) (f (db_attachments db)) (db_links db)
       (db_calendar_migration db) (db_object_migration db) (db_attachment_migration db)
       (db_delegates db) (db_external_delegates db) (db_group_delegates db) (db_groups db).

Definition with_links (f : list Link → list Link) (db : DB) : DB :=
  mkDB (db_homes db) (db_calendars db) (db_attachments db) (f (db_links db))
       (db_calendar_migration db) (db_object_migration db) (db_attachment_migration db)
       (db_delegates db) (db_external_delegates db) (db_group_delegates db) (db_groups db).

Definition with_calendar_migration
    (f : gmap (nat * nat) (nat * option string) → gmap (nat * nat) (nat * option string))
    (db : DB) : DB :=
  mkDB (db_homes db) (db_calendars db) (db_attachments db) (db_links db)
       (f (db_calendar_migration db)) (db_object_migration db) (db_attachment_migration db)
       (db_delegates db) (db_external_delegates db) (db_group_delegates db) (db_groups db).

Definition with_object_migration (f : gmap (nat * nat) nat → gmap (nat * nat) nat) (db : DB) : DB :=
  mkDB (db_homes db) (db_calendars db) (db_attachments db) (db_links db)
       (db_calendar_migration db) (f (db_object_migration db)) (db_attachment_migration db)
       (db_delegates db) (db_external_delegates db) (db_group_delegates db) (db_groups db).

Definition with_attachment_migration (f : gmap (nat * nat) nat → gmap (nat * nat) nat) (db : DB) : DB :=
  mkDB (db_homes db) (db_calendars db) (db_attachments db) (db_links db)
       (db_calendar_migration db) (db_object_migration db) (f (db_attachment_migration db))
       (db_delegates db) (db_external_delegates db) (db_group_delegates db) (db_groups db).

Definition with_delegates (f : list DelegateRecord → list DelegateRecord) (db : DB) : DB :=
  mkDB (db_homes db) (db_calendars db) (db_attachments db) (db_links db)
       (db_calendar_migration db) (db_object_migration db) (db_attachment_migration db)
       (f (db_delegates db)) (db_external_delegates db) (db_group_delegates db) (db_groups db).

Definition with_external_delegates (f : list DelegateRecord → list DelegateRecord) (db : DB) : DB :=
  mkDB (db_homes db) (db_calendars db) (db_attachments db) (db_links db)
       (db_calendar_migration db) (db_object_migration db) (db_attachment_migration db)
       (db_delegates db) (f (db_external_delegates db)) (db_group_delegates db) (db_groups db).

Definition with_group_delegates (f : list GroupDelegateRecord → list GroupDelegateRecord) (db : DB) : DB :=
  mkDB (db_homes db) (db_calendars db) (db_attachments db) (db_links db)
       (db_calendar_migration db) (db_object_migration db) (db_attachment_migration db)
       (db_delegates db) (db_external_delegates db) (f (db_group_delegates db)) (db_groups db).

Definition with_groups (f : gmap string nat → gmap string nat) (db : DB) : DB :=
  mkDB (db_homes db) (db_calendars db) (db_attachments db) (db_links db)
       (db_calendar_migration db) (db_object_migration db) (db_attachment_migration db)
       (db_delegates db) (db_external_delegates db) (db_group_delegates db) (f (db_groups db)).

(** A write to the local store. *)
Definition db_write (f : DB → DB) : M unit := modify (set_db f).

Definition db_read {A} (f : DB → A) : M A := gets (fun w => f (w_db w)).

Definition fresh_id : M nat :=
  fun w => (Ok (w_next_id w), set_next_id (S (w_next_id w)) w).

(** [str(uuid.uuid4())] *)
Definition uuid4 : M string :=
  fun w => (Ok ("uuid-" +:+ pretty (w_next_uuid w)), set_next_uuid (S (w_next_uuid w)) w).

(** *** Transactions *)

(** Modelled from the spec: the store's [newTransaction(label) → Txn] (§6).
    The transaction gets the next identifier and remembers the store as it
    is, for [abort]. *)
Definition newTransaction (label : string) : M nat :=
  fun w =>
    let t := w_next_txn w in
    (Ok t, record_event (EvNewTransaction t label)
             (set_open (insert t (w_db w)) (set_next_txn (S t) w))).

(** Modelled from the spec: [Txn.commit()] (§6) keeps the writes made in the
    transaction and closes it. *)
Definition txn_commit (t : nat) : M unit :=
  fun w => (Ok tt, record_event (EvCommit t) (set_open (delete t) w)).

(** Modelled from the spec: [Txn.abort()] (§6) puts the store back as it was
    when the transaction began and closes it. *)
Definition txn_abort (t : nat) : M unit :=
  fun w =>
    (Ok tt, record_event (EvAbort t)
              (match w_open w !! t with
               | Some db => set_db (fun _ => db) (set_open (delete t) w)
               | None => w
               end)).

(** [log.error(msg)] *)
Definition log_error (msg : string) : M unit := emit (EvLogError msg).

(** *** Python values passed as keyword arguments *)

Inductive pyval : Type :=
| PyNone
| PyTxn (t : nat)
| PyInt (n : Z)
| PyStr (s : string).

Global Instance pyval_eq_dec : EqDecision pyval.
Proof. solve_decision. Defined.

(** Using the value bound to [txn] as a transaction: [txn.attr]. *)
Definition the_txn (attr : string) (txn : pyval) : M nat :=
  match txn with
  | PyTxn t => ret t
  | PyNone => raise (AttributeError ("'NoneType' object has no attribute '" +:+ attr +:+ "'"))
  | PyInt _ => raise (AttributeError ("'int' object has no attribute '" +:+ attr +:+ "'"))
  | PyStr _ => raise (AttributeError ("'str' object has no attribute '" +:+ attr +:+ "'"))
  end.

(** ** [inTransactionWrapper] *)

(** [CrossPodHomeSync.label] *)
Definition label (diruid detail : string) : string :=
  "Cross-pod Migration Sync for " +:+ diruid +:+ ": " +:+ detail.

(** [CrossPodHomeSync.migratingUid] *)
Definition migratingUid (diruid : string) : string :=
  "Migrating-" +:+ diruid.

(** What the generator [_inTxn] hands to [returnValue]: the operation's
    result, or the [Failure] built in the [except] block. *)
Inductive returned (A : Type) : Type :=
| Value (a : A)
| FailureValue (f : Failure).
Arguments Value {A} a.
Arguments FailureValue {A} f.

(** The Deferred of an [inlineCallbacks] function fires with what its
    generator returned; a returned [Failure] makes it fire as a failure, which
    is what a [yield] on it raises in the caller. *)
Definition fire {A} (body : M (returned A)) : M A :=
  fun w => match body w with
           | (Ok (Value a), w') => (Ok a, w')
           | (Ok (FailureValue f), w') => (Err (fvalue f), w')
           | (Err e, w') => (Err e, w')
           end.

Section inTransactionWrapper.
Context {Args A : Type}.
(** [self.diruid], [operation.__name__], and the decorated method bound to
    [self]: it takes the transaction, [*args] and [**kwargs]. *)
Variable diruid : string.
Variable name : string.
Variable operation : pyval → Args → gmap string pyval → M A.

(** The body of [_inTxn(self, *args, **kwargs)]. *)
Definition _inTxn (args : Args) (kwargs : gmap string pyval) : M (returned A) :=
  let label := label diruid name in
  match kwargs !! "txn" with
  | Some txn =>
      let kwargs := delete "txn" kwargs in
      result <- operation txn args kwargs ;;
      ret (Value result)
  | None =>
      txn <- newTransaction label ;;
      try_except_else (operation (PyTxn txn) args kwargs)
        (fun ex =>
           let f := mkFailure ex in
           txn_abort txn ;;;
           log_error (label +:+ " failed: " +:+ str_exn ex) ;;;
           ret (FailureValue f))
        (fun result =>
           txn_commit txn ;;;
           ret (Value result))
  end.

(** The decorated method as its callers see it. *)
Definition inTransactionWrapper (args : Args) (kwargs : gmap string pyval) : M A :=
  fire (_inTxn args kwargs).
End inTransactionWrapper.


(** *** Handles on store objects

    An object obtained through a transaction stays bound to it. *)

Record LocalHome : Type := mkLocalHome { lh_txn : nat; lh_uid : string; lh_id : nat }.
Record LocalCalendar : Type := mkLocalCalendar { lc_txn : nat; lc_id : nat }.
Record LocalObject : Type := mkLocalObject {
  lo_txn : nat; lo_calendar : nat; lo_name : string; lo_row : CalObject
}.
Record LocalAttachment : Type := mkLocalAttachment { la_txn : nat; la_id : nat; la_row : Attachment }.
Record RemoteHome : Type := mkRemoteHome { rh_txn : nat; rh_uid : string; rh_id : nat }.
Record RemoteCalendarH : Type := mkRemoteCalendarH {
  rch_txn : nat; rch_id : nat; rch_row : RemoteCalendar
}.
Record RemoteObject : Type := mkRemoteObject { ro_name : string; ro_row : CalObject }.
Record RemoteAttachment : Type := mkRemoteAttachment { ra_id : nat; ra_row : Attachment }.

Definition with_objects (f : gmap string CalObject → gmap string CalObject) (c : Calendar) : Calendar :=
  mkCalendar (c_home c) (c_name c) (c_meta c) (f (c_objects c)).

(** *** The local home and its calendars *)

(** Modelled from the spec: [Txn.calendarHomeWithUID(uid) → Home | null] (§6). *)
Definition calendarHomeWithUID (t : nat) (uid : string) : M (option LocalHome) :=
  db_read (fun db => (fun h => mkLocalHome t uid (h_id h)) <$> db_homes db !! uid).

(** Modelled from the spec: [Txn.calendarHomeWithUID(uid, create=True,
    migratingUID=...)] (§6) makes the home when there is none. *)
Definition calendarHomeWithUID_create (t : nat) (uid migratingUID : string) : M (option LocalHome) :=
  home <- calendarHomeWithUID t uid ;;
  match home with
  | Some h => ret (Some h)
  | None =>
      id <- fresh_id ;;
      db_write (with_homes (insert uid (mkHome id "" (Some migratingUID)))) ;;;
      emit (EvHomeCreate t uid) ;;;
      ret (Some (mkLocalHome t uid id))
  end.

(** Modelled from the spec: [Home.childWithID(id)] (§6): the calendar of this
    home with that resource id, if any. *)
Definition home_childWithID (home : LocalHome) (id : nat) : M (option LocalCalendar) :=
  db_read (fun db =>
    match db_calendars db !! id with
    | Some c => if decide (c_home c = lh_id home)
                then Some (mkLocalCalendar (lh_txn home) id) else None
    | None => None
    end).

(** Modelled from the spec: [Home.createChildWithName(name)] (§6). *)
Definition home_createChildWithName (home : LocalHome) (name : string) : M LocalCalendar :=
  id <- fresh_id ;;
  db_write (with_calendars (insert id (mkCalendar (lh_id home) name "" ∅))) ;;;
  emit (EvCalendarCreate (lh_txn home) id) ;;;
  ret (mkLocalCalendar (lh_txn home) id).

(** Modelled from the spec: [Home.copyMetadata(source)] (§6) reads the
    attributes of [source] and stores them on the home; with [None] as the
    source, reading an attribute raises. *)
Definition home_copyMetadata (home : LocalHome) (source : option RemoteHome) : M unit :=
  _ <- attr_of "metadataAttributes" source ;;
  meta <- gets (fun w => r_meta (w_remote w)) ;;
  db_write (with_homes (alter (fun h => mkHome (h_id h) meta (h_migratingUID h)) (lh_uid home))) ;;;
  emit (EvHomeCopyMetadata (lh_txn home) (lh_id home)).

(** Ids of the object resources of a calendar. *)
Definition object_ids (db : DB) (calendarID : nat) : gset nat :=
  match db_calendars db !! calendarID with
  | Some c => list_to_set ((fun kv => o_id kv.2) <$> map_to_list (c_objects c))
  | None => ∅
  end.

(** Modelled from the spec: [Calendar.purge()] (§6) removes the calendar with
    its object resources; the migration rows that point to them go with them
    (§3: mapping records are deleted by cascade from their row). *)
Definition calendar_purge (c : LocalCalendar) : M unit :=
  db_write (fun db =>
    let gone := object_ids db (lc_id c) in
    with_calendars (delete (lc_id c))
      (with_calendar_migration (filter (fun kv => kv.2.1 ≠ lc_id c))
        (with_object_migration (filter (fun kv => kv.2 ∉ gone)) db))) ;;;
  emit (EvCalendarPurge (lc_txn c) (lc_id c)).

(** Modelled from the spec: [Calendar.copyMetadata(source)] (§6); the name of
    the calendar is part of what is copied (§4.3). *)
Definition calendar_copyMetadata (c : LocalCalendar) (source : RemoteCalendarH) : M unit :=
  db_write (with_calendars (alter (fun cal =>
    mkCalendar (c_home cal) (rc_name (rch_row source)) (rc_meta (rch_row source)) (c_objects cal))
    (lc_id c))) ;;;
  emit (EvCalendarCopyMetadata (lc_txn c) (lc_id c)).

(** Modelled from the spec: [Calendar.objectResourcesWithNames(names)] (§6):
    the object resources of the calendar that have one of these names. *)
Definition calendar_objectResourcesWithNames (c : LocalCalendar) (names : list string)
    : M (list LocalObject) :=
  db_read (fun db =>
    match db_calendars db !! lc_id c with
    | Some cal =>
        omap (fun n => mkLocalObject (lc_txn c) (lc_id c) n <$> c_objects cal !! n)
             (remove_dups names)
    | None => []
    end).

(** A component with the md5 stamped on it ([remote_data.md5 = ...]). *)
Record Component : Type := mkComponent { cmp_data : string; cmp_md5 : string }.

(** Modelled from the spec: [Calendar._createCalendarObjectWithNameInternal
    (name, component, internalState=RAW)] (§6); in a migrating transaction the
    md5 stamped on the component is the one stored (§4.4). *)
Definition calendar_createCalendarObjectWithNameInternal
    (c : LocalCalendar) (name : string) (component : Component) : M LocalObject :=
  cal <- db_read (fun db => db_calendars db !! lc_id c) ;;
  match cal with
  | None => raise (StoreError "no such calendar")
  | Some cal =>
      match c_objects cal !! name with
      | Some _ => raise (StoreError "object resource name already exists")
      | None =>
          id <- fresh_id ;;
          let row := mkCalObject id (cmp_md5 component) (cmp_data component) "" in
          db_write (with_calendars (alter (with_objects (insert name row)) (lc_id c))) ;;;
          emit (EvObjectCreate (lc_txn c) (lc_id c) name) ;;;
          ret (mkLocalObject (lc_txn c) (lc_id c) name row)
      end
  end.

(** Modelled from the spec: [CalendarObject._setComponentInternal(component,
    internalState=RAW)] (§6). *)
Definition object_setComponentInternal (o : LocalObject) (component : Component) : M unit :=
  db_write (with_calendars (alter (with_objects (alter (fun row =>
    mkCalObject (o_id row) (cmp_md5 component) (cmp_data component) (o_meta row))
    (lo_name o))) (lo_calendar o))) ;;;
  emit (EvObjectSet (lo_txn o) (lo_calendar o) (lo_name o)).

(** Modelled from the spec: [CalendarObject.copyMetadata(source)] (§6). *)
Definition object_copyMetadata (o : LocalObject) (source : RemoteObject) : M unit :=
  db_write (with_calendars (alter (with_objects (alter (fun row =>
    mkCalObject (o_id row) (o_md5 row) (o_component row) (o_meta (ro_row source)))
    (lo_name o))) (lo_calendar o))) ;;;
  emit (EvObjectCopyMetadata (lo_txn o) (lo_calendar o) (lo_name o)).

(** Modelled from the spec: [CalendarObject.purge()] (§6); the object's
    migration row goes with it (§3, I2). *)
Definition object_purge (o : LocalObject) : M unit :=
  db_write (fun db =>
    with_calendars (alter (with_objects (delete (lo_name o))) (lo_calendar o))
      (with_object_migration (filter (fun kv => kv.2 ≠ o_id (lo_row o))) db)) ;;;
  emit (EvObjectPurge (lo_txn o) (lo_calendar o) (lo_name o)).

(** *** The migration record tables *)

(** Modelled from the spec: [CalendarMigrationRecord.querysimple(txn,
    calendarHomeResourceID=h)] (§6): the rows of home [h]. *)
Definition CalendarMigrationRecord_querysimple (t homeId : nat) : M (list CalendarMigrationRecord) :=
  db_read (fun db =>
    (fun kv : nat * nat * (nat * option string) =>
       mkCalendarMigrationRecord kv.1.1 kv.1.2 kv.2.1 kv.2.2 false)
    <$> map_to_list (filter (fun kv : nat * nat * (nat * option string) => kv.1.1 = homeId)
                            (db_calendar_migration db))).

(** [CalendarMigrationRecord.make(...)] *)
Definition CalendarMigrationRecord_make (home remote local : nat) (token : option string)
    : CalendarMigrationRecord :=
  mkCalendarMigrationRecord home remote local token true.

(** Modelled from the spec: [record.insert(txn)] (§6) on the table whose
    unique key is (home id, remote calendar id) (§3). *)
Definition CalendarMigrationRecord_insert (t : nat) (r : CalendarMigrationRecord) : M unit :=
  let key := (calendarHomeResourceID r, remoteResourceID r) in
  row <- db_read (fun db => db_calendar_migration db !! key) ;;
  match row with
  | Some _ => raise (StoreError "duplicate key in CALENDAR_MIGRATION")
  | None =>
      db_write (with_calendar_migration (insert key (localResourceID r, lastSyncToken r))) ;;;
      emit (EvSyncStateInsert t (remoteResourceID r))
  end.

(** Modelled from the spec: [record.update(lastSyncToken=token)] (§6) rewrites
    the token of the record's row. *)
Definition CalendarMigrationRecord_update (t : nat) (r : CalendarMigrationRecord)
    (token : option string) : M unit :=
  let key := (calendarHomeResourceID r, remoteResourceID r) in
  db_write (with_calendar_migration (alter (fun row => (row.1, token)) key)) ;;;
  emit (EvSyncStateUpdate t (remoteResourceID r)).

Definition id_records (homeId : nat) (table : gmap (nat * nat) nat) : list IdMigrationRecord :=
  (fun kv : nat * nat * nat => mkIdMigrationRecord kv.1.1 kv.1.2 kv.2)
  <$> map_to_list (filter (fun kv : nat * nat * nat => kv.1.1 = homeId) table).

(** Modelled from the spec: [CalendarObjectMigrationRecord.querysimple(txn,
    calendarHomeResourceID=h)] (§6). *)
Definition CalendarObjectMigrationRecord_querysimple (t homeId : nat) : M (list IdMigrationRecord) :=
  db_read (fun db => id_records homeId (db_object_migration db)).

(** Modelled from the spec: [CalendarObjectMigrationRecord.create(txn, ...)]
    (§6), unique key (home id, remote object id) (§3). *)
Definition CalendarObjectMigrationRecord_create (t home remote local : nat) : M unit :=
  row <- db_read (fun db => db_object_migration db !! (home, remote)) ;;
  match row with
  | Some _ => raise (StoreError "duplicate key in CALENDAR_OBJECT_MIGRATION")
  | None =>
      db_write (with_object_migration (insert (home, remote) local)) ;;;
      emit (EvObjectRecordCreate t remote local)
  end.

(** Modelled from the spec: [AttachmentMigrationRecord.querysimple(txn,
    calendarHomeResourceID=h)] (§6). *)
Definition AttachmentMigrationRecord_querysimple (t homeId : nat) : M (list IdMigrationRecord) :=
  db_read (fun db => id_records homeId (db_attachment_migration db)).

(** Modelled from the spec: [AttachmentMigrationRecord.querysimple(txn,
    calendarHomeResourceID=h, localResourceID=l)] (§6). *)
Definition AttachmentMigrationRecord_querysimple_local (t homeId localId : nat)
    : M (list IdMigrationRecord) :=
  db_read (fun db =>
    filter (fun r => im_local r = localId) (id_records homeId (db_attachment_migration db))).

(** Modelled from the spec: [AttachmentMigrationRecord.create(txn, ...)] (§6),
    unique key (home id, remote attachment id) (§3). *)
Definition AttachmentMigrationRecord_create (t home remote local : nat) : M unit :=
  row <- db_read (fun db => db_attachment_migration db !! (home, remote)) ;;
  match row with
  | Some _ => raise (StoreError "duplicate key in ATTACHMENT_MIGRATION")
  | None =>
      db_write (with_attachment_migration (insert (home, remote) local)) ;;;
      emit (EvAttachmentRecordCreate t remote local)
  end.

(** Modelled from the spec: [record.delete()] (§6) on an attachment migration
    record. *)
Definition AttachmentMigrationRecord_delete (t : nat) (r : IdMigrationRecord) : M unit :=
  db_write (with_attachment_migration (delete (im_home r, im_remote r))) ;;;
  emit (EvAttachmentRecordDelete t (im_remote r)).

(** *** Managed attachments *)

(** Modelled from the spec: [ManagedAttachment.load(txn, …, attachmentId)]
    (§6): the attachment, or [None] when it is gone. *)
Definition ManagedAttachment_load (t attachmentID : nat) : M (option LocalAttachment) :=
  emit (EvAttachmentLoad t attachmentID) ;;;
  db_read (fun db => mkLocalAttachment t attachmentID <$> db_attachments db !! attachmentID).

(** Modelled from the spec: [remove(adjustQuota=false)] (§6); the migration
    row and the links of the attachment go with it (§3). *)
Definition attachment_remove (a : LocalAttachment) (adjustQuota : bool) : M unit :=
  db_write (fun db =>
    with_attachments (delete (la_id a))
      (with_attachment_migration (filter (fun kv => kv.2 ≠ la_id a))
        (with_links (filter (fun l => l_attachmentID l ≠ la_id a)) db))) ;;;
  emit (EvAttachmentRemove (la_txn a) (la_id a) adjustQuota).

(** Modelled from the spec: [ManagedAttachment._create(txn, …, homeId)] (§6):
    a new, empty attachment of the home. *)
Definition ManagedAttachment_create (t homeId : nat) : M LocalAttachment :=
  id <- fresh_id ;;
  let row := mkAttachment homeId "" "" "" in
  db_write (with_attachments (insert id row)) ;;;
  emit (EvAttachmentCreate t id) ;;;
  ret (mkLocalAttachment t id row).

(** Modelled from the spec: [copyRemote(sourceAttachment)] (§6) copies the
    remote attachment's meta-data, its md5 included, onto the local one
    (§4.5). *)
Definition attachment_copyRemote (a : LocalAttachment) (source : RemoteAttachment) : M unit :=
  db_write (with_attachments (alter (fun row =>
    mkAttachment (a_home row) (a_md5 (ra_row source)) (a_meta (ra_row source)) (a_data row))
    (la_id a))) ;;;
  emit (EvAttachmentCopyRemote (la_txn a) (la_id a) (ra_id source)).

(** Modelled from the spec: [Home.getAllAttachments()] (§6). *)
Definition home_getAllAttachments (home : LocalHome) : M (list LocalAttachment) :=
  db_read (fun db =>
    (fun kv : nat * Attachment => mkLocalAttachment (lh_txn home) kv.1 kv.2)
    <$> map_to_list (filter (fun kv : nat * Attachment => a_home kv.2 = lh_id home)
                            (db_attachments db))).

(** Modelled from the spec: [Home.getAttachmentByID(id)] (§6). *)
Definition home_getAttachmentByID (home : LocalHome) (id : nat) : M (option LocalAttachment) :=
  db_read (fun db =>
    match db_attachments db !! id with
    | Some row => if decide (a_home row = lh_id home)
                  then Some (mkLocalAttachment (lh_txn home) id row) else None
    | None => None
    end).

(** Modelled from the spec: [link.insert()] (§4.5) adds the row to
    ATTACHMENT_CALENDAR_OBJECT in the link's transaction.  Insertion is
    idempotent by primary key (§8), the two ids of the row: a row that is in
    the table is not added again. *)
Definition link_insert (t : nat) (l : Link) : M unit :=
  db_write (with_links (fun ls => if decide (l ∈ ls) then ls else ls ++ [l])) ;;;
  emit (EvLinkInsert t (l_attachmentID l) (l_calendarObjectID l)).

(** *** The remote home, through the conduit *)

(** Modelled from the spec: [conduit.send_home_resource_id(txn, record) →
    remoteId | null] (§6). *)
Definition send_home_resource_id (t : nat) (record : option DirRecord) : M (option nat) :=
  emit (EvConduit t "home_resource_id") ;;;
  gets (fun w => r_resourceID (w_remote w)).

(** Modelled from the spec: [loadChildren()] of the remote home proxy (§4.2). *)
Definition remote_loadChildren (home : RemoteHome) : M (list RemoteCalendarH) :=
  emit (EvConduit (rh_txn home) "loadChildren") ;;;
  gets (fun w =>
    (fun kv : nat * RemoteCalendar => mkRemoteCalendarH (rh_txn home) kv.1 kv.2)
    <$> map_to_list (r_calendars (w_remote w))).

(** Modelled from the spec: [childWithID(id)] of the remote home proxy (§4.2). *)
Definition remote_childWithID (home : RemoteHome) (id : nat) : M (option RemoteCalendarH) :=
  emit (EvConduit (rh_txn home) "childWithID") ;;;
  gets (fun w => mkRemoteCalendarH (rh_txn home) id <$> r_calendars (w_remote w) !! id).

(** Modelled from the spec: [Calendar.syncToken()] (§6) on a remote calendar. *)
Definition remote_syncToken (c : RemoteCalendarH) : M string :=
  emit (EvConduit (rch_txn c) "syncToken") ;;;
  ret (rc_syncToken (rch_row c)).

(** Modelled from the spec: [resourceNamesSinceToken(token) → (changed,
    deleted, invalid)] (§6) on a remote calendar. *)
Definition remote_resourceNamesSinceToken (c : RemoteCalendarH) (token : option string)
    : M (list string * list string * bool) :=
  emit (EvResourceNamesSinceToken (rch_txn c) (rch_id c) token) ;;;
  ret (rc_changes (rch_row c) token).

(** Modelled from the spec: [objectResourcesWithNames(names)] (§6) on a remote
    calendar. *)
Definition remote_objectResourcesWithNames (c : RemoteCalendarH) (names : list string)
    : M (list RemoteObject) :=
  emit (EvConduit (rch_txn c) "objectResourcesWithNames") ;;;
  ret (omap (fun n => mkRemoteObject n <$> rc_objects (rch_row c) !! n) (remove_dups names)).

(** [remote_object.component()] with [remote_data.md5 = remote_object.md5()] *)
Definition remote_component (o : RemoteObject) : Component :=
  mkComponent (o_component (ro_row o)) (o_md5 (ro_row o)).

(** Modelled from the spec: [getAllAttachments()] of the remote home proxy
    (§4.2). *)
Definition remote_getAllAttachments (home : RemoteHome) : M (list RemoteAttachment) :=
  emit (EvConduit (rh_txn home) "getAllAttachments") ;;;
  gets (fun w =>
    (fun kv : nat * Attachment => mkRemoteAttachment kv.1 kv.2)
    <$> map_to_list (r_attachments (w_remote w))).

(** Modelled from the spec: [getAttachmentLinks()] of the remote home proxy
    (§4.2). *)
Definition remote_getAttachmentLinks (home : RemoteHome) : M (list Link) :=
  emit (EvConduit (rh_txn home) "getAttachmentLinks") ;;;
  gets (fun w => r_links (w_remote w)).

(** Modelled from the spec: [readAttachmentData(remoteId, localAttachment)]
    (§4.2, §4.5) streams the remote attachment's bytes into the local one,
    whose md5 becomes that of the bytes. *)
Definition remote_readAttachmentData (home : RemoteHome) (remoteID : nat) (a : LocalAttachment)
    : M unit :=
  source <- gets (fun w => r_attachments (w_remote w) !! remoteID) ;;
  match source with
  | None => raise (StoreError "no such remote attachment")
  | Some source =>
      db_write (with_attachments (alter (fun row =>
        mkAttachment (a_home row) (a_md5 source) (a_meta row) (a_data source)) (la_id a))) ;;;
      emit (EvReadAttachmentData (rh_txn home) remoteID (la_id a))
  end.

(** *** Delegates and the directory *)

(** Modelled from the spec: [dumpIndividualDelegatesExternal] (§6). *)
Definition dumpIndividualDelegatesExternal (t : nat) (record : option DirRecord)
    : M (list DelegateRecord) :=
  emit (EvConduit t "dumpIndividualDelegates") ;;;
  gets (fun w => r_delegates (w_remote w)).

(** Modelled from the spec: [dumpGroupDelegatesExternal] (§6): pairs of a
    delegator row and the group it names, with the group's directory uid. *)
Definition dumpGroupDelegatesExternal (t : nat) (record : option DirRecord)
    : M (list (GroupDelegateRecord * string)) :=
  emit (EvConduit t "dumpGroupDelegates") ;;;
  gets (fun w => r_group_delegates (w_remote w)).

(** Modelled from the spec: [dumpExternalDelegatesExternal] (§6). *)
Definition dumpExternalDelegatesExternal (t : nat) (record : option DirRecord)
    : M (list DelegateRecord) :=
  emit (EvConduit t "dumpExternalDelegates") ;;;
  gets (fun w => r_external_delegates (w_remote w)).

(** Modelled from the spec: [txn.groupByUID(groupUID) → localGroup] (§6),
    which makes the group when the local pod does not know it (§4.6); the
    result is the local group id. *)
Definition groupByUID (t : nat) (groupUID : string) : M nat :=
  emit (EvGroupByUID t groupUID) ;;;
  known <- db_read (fun db => db_groups db !! groupUID) ;;
  match known with
  | Some g => ret g
  | None =>
      g <- fresh_id ;;
      db_write (with_groups (insert groupUID g)) ;;;
      ret g
  end.

(** Modelled from the spec: [record.insert(txn)] (§4.6) on the three kinds of
    delegate rows. *)
Definition delegate_insert (t : nat) (r : DelegateRecord) : M unit :=
  db_write (with_delegates (fun l => l ++ [r])) ;;;
  emit (EvDelegateInsert t (dg_delegator r)).

Definition group_delegate_insert (t : nat) (r : GroupDelegateRecord) : M unit :=
  db_write (with_group_delegates (fun l => l ++ [r])) ;;;
  emit (EvDelegateInsert t (gd_delegator r)).

Definition external_delegate_insert (t : nat) (r : DelegateRecord) : M unit :=
  db_write (with_external_delegates (fun l => l ++ [r])) ;;;
  emit (EvDelegateInsert t (dg_delegator r)).

(** Modelled from the spec: [directoryService().recordWithUID(uid) → record |
    null] (§6). *)
Definition recordWithUID (uid : string) : M (option DirRecord) :=
  gets (fun w => w_directory w !! uid).

(** ** [class CrossPodHomeSync] *)

(** [while remaining: body(remaining[:size]); del remaining[:size]].  The loop
    is run with as many steps of fuel as [remaining] has elements; it never
    needs more, since each turn removes at least one (see
    [batch_loop_windows]). *)
Fixpoint batch_loop {A} (size fuel : nat) (remaining : list A) (body : list A → M unit) : M unit :=
  match remaining with
  | [] => ret tt
  | _ :: _ =>
      match fuel with
      | 0 => raise (StoreError "batch loop out of fuel")
      | S fuel =>
          body (take size remaining) ;;;
          batch_loop size fuel (drop size remaining) body
      end
  end.

(** The successive windows [l[:size]], [l[size:2*size]], ... of a list. *)
Fixpoint windows {A} (size fuel : nat) (l : list A) : list (list A) :=
  match l with
  | [] => []
  | _ :: _ =>
      match fuel with
      | 0 => []
      | S fuel => take size l :: windows size fuel (drop size l)
      end
  end.

(** A method of the orchestration level being run: the trace shows when it is
    entered and when it has returned. *)
Definition call {A} (method : string) (body : M A) : M A :=
  emit (EvEnter method) ;;;
  r <- body ;;
  emit (EvLeave method) ;;;
  ret r.

(** [a, b = value]: unpacking [None] raises [TypeError]. *)
Definition unpack {A} (value : option A) : M A :=
  match value with
  | Some a => ret a
  | None => raise (TypeError "'NoneType' object is not iterable")
  end.

(** A call of a function decorated with [@inlineCallbacks] whose body has no
    [yield]: the body is an ordinary function body, so calling it runs it and
    returns what it returns, [None] here, and not a generator;
    [inlineCallbacks] then raises [TypeError].  The message names the
    function, written here by its name. *)
Definition not_a_generator {A} (name : string) (body : M unit) : M A :=
  body ;;;
  raise (TypeError ("inlineCallbacks requires " +:+ name
                    +:+ " to produce a generator; instead got None")).

Section CrossPodHomeSync.
(** [self.diruid]; [self.record] and [self.homeId] are in the world. *)
Variable diruid : string.

Definition BATCH_SIZE : nat := 50.

(** A decorated method called without a [txn] keyword, as every call in this
    class is. *)
Definition in_txn {Args A} (name : string) (operation : pyval → Args → M A) (args : Args)
    : M A :=
  inTransactionWrapper diruid name (fun txn args _ => operation txn args) args ∅.

(** [self.homeId] *)
Definition self_homeId : M nat :=
  h <- gets w_homeId ;;
  match h with
  | Some h => ret h
  | None => raise (AttributeError "'CrossPodHomeSync' object has no attribute 'homeId'")
  end.

(** [self.record] *)
Definition self_record : M (option DirRecord) :=
  r <- gets w_record ;;
  match r with
  | Some record => ret record
  | None => raise (AttributeError "'CrossPodHomeSync' object has no attribute 'record'")
  end.

Definition loadRecord : M unit :=
  record <- recordWithUID diruid ;;
  modify (set_record (Some record)) ;;;
  match record with
  | None =>
      raise (DirectoryRecordNotFoundError
               ("Cross-pod Migration Sync missing directory record for " +:+ diruid))
  | Some r =>
      if rec_thisServer r
      then raise (ValueError
                    ("Cross-pod Migration Sync cannot sync with user already on this server: "
                     +:+ diruid))
      else ret tt
  end.

Definition prepareCalendarHome (txn : pyval) (_ : unit) : M nat :=
  t <- the_txn "calendarHomeWithUID" txn ;;
  home <- calendarHomeWithUID t (migratingUid diruid) ;;
  home <- match home with
          | None => calendarHomeWithUID_create t (migratingUid diruid) diruid
          | Some _ => ret home
          end ;;
  home <- attr_of "id" home ;;
  ret (lh_id home).

Definition _remoteHome (txn : pyval) : M (option RemoteHome) :=
  t <- the_txn "store" txn ;;
  record <- self_record ;;
  resourceID <- send_home_resource_id t record ;;
  match resourceID with
  | Some resourceID =>
      r <- attr_of "uid" record ;;
      ret (Some (mkRemoteHome t (rec_uid r) resourceID))
  | None => ret None
  end.

Definition syncCalendarHomeMetaData (txn : pyval) (_ : unit) : M unit :=
  remote_home <- _remoteHome txn ;;
  t <- the_txn "calendarHomeWithUID" txn ;;
  local_home <- calendarHomeWithUID t (migratingUid diruid) ;;
  local_home <- attr_of "copyMetadata" local_home ;;
  home_copyMetadata local_home remote_home.

Definition getCalendarSyncList (txn : pyval) (_ : unit)
    : M (option (gmap nat CalendarMigrationRecord)) :=
  home <- _remoteHome txn ;;
  match home with
  | None => ret None
  | Some home =>
      calendars <- remote_loadChildren home ;;
      results <- for_each calendars (fun calendar results =>
        if rc_owned (rch_row calendar) then
          sync_token <- remote_syncToken calendar ;;
          ret (<[rch_id calendar :=
                   CalendarMigrationRecord_make (rh_id home) (rch_id calendar) 0 (Some sync_token)]>
                 results)
        else ret results) ∅ ;;
      ret (Some results)
  end.

Definition getSyncState (txn : pyval) (_ : unit) : M (gmap nat CalendarMigrationRecord) :=
  homeId <- self_homeId ;;
  t <- the_txn "execSQL" txn ;;
  records <- CalendarMigrationRecord_querysimple t homeId ;;
  ret (py_dict ((fun record => (remoteResourceID record, record)) <$> records)).

Definition updateSyncState (txn : pyval)
    (args : CalendarMigrationRecord * option string) : M unit :=
  let '(stateRecord, newSyncToken) := args in
  if cm_isnew stateRecord then
    let stateRecord :=
      mkCalendarMigrationRecord (calendarHomeResourceID stateRecord)
        (remoteResourceID stateRecord) (localResourceID stateRecord) newSyncToken true in
    t <- the_txn "execSQL" txn ;;
    CalendarMigrationRecord_insert t stateRecord
  else
    t <- the_txn "execSQL" txn ;;
    CalendarMigrationRecord_update t stateRecord newSyncToken.

(** The dict [local_sync_state] is changed in place; the method's result
    here is the dict as the method leaves it. *)
Definition purgeLocal (txn : pyval)
    (args : gmap nat CalendarMigrationRecord * option (gmap nat CalendarMigrationRecord))
    : M (gmap nat CalendarMigrationRecord) :=
  let '(local_sync_state, remote_sync_state) := args in
  t <- the_txn "calendarHomeWithUID" txn ;;
  home <- calendarHomeWithUID t (migratingUid diruid) ;;
  remote_keys <- attr_of "keys" (dom <$> remote_sync_state) ;;
  for_each (elements (dom local_sync_state ∖ remote_keys)) (fun remoteID local_sync_state =>
    record <- getitem local_sync_state remoteID ;;
    home <- attr_of "childWithID" home ;;
    calendar <- home_childWithID home (localResourceID record) ;;
    match calendar with
    | Some calendar => calendar_purge calendar
    | None => ret tt
    end ;;;
    ret (delete remoteID local_sync_state)) local_sync_state.

Definition newCalendar (txn : pyval) (_ : unit) : M nat :=
  t <- the_txn "calendarHomeWithUID" txn ;;
  home <- calendarHomeWithUID t (migratingUid diruid) ;;
  name <- uuid4 ;;
  home <- attr_of "createChildWithName" home ;;
  calendar <- home_createChildWithName home name ;;
  ret (lc_id calendar).

Definition syncCalendarMetaData (txn : pyval) (migrationRecord : CalendarMigrationRecord)
    : M unit :=
  remote_home <- _remoteHome txn ;;
  remote_home <- attr_of "childWithID" remote_home ;;
  remote_calendar <- remote_childWithID remote_home (remoteResourceID migrationRecord) ;;
  match remote_calendar with
  | None => ret tt
  | Some remote_calendar =>
      t <- the_txn "calendarHomeWithUID" txn ;;
      local_home <- calendarHomeWithUID t (migratingUid diruid) ;;
      local_home <- attr_of "childWithID" local_home ;;
      local_calendar <- home_childWithID local_home (localResourceID migrationRecord) ;;
      local_calendar <- attr_of "copyMetadata" local_calendar ;;
      calendar_copyMetadata local_calendar remote_calendar
  end.

(** The loop that fills [actual_changes]. *)
Definition actual_changes (remote_changes : gmap string RemoteObject)
    (local_changes : gmap string LocalObject) : list string :=
  foldl (fun acc (item : string * RemoteObject) =>
           let name := item.1 in
           match local_changes !! name with
           | None => acc ++ [name]
           | Some local =>
               if decide (o_md5 (ro_row item.2) ≠ o_md5 (lo_row local))
               then acc ++ [name] else acc
           end)
        [] (map_to_list remote_changes).

Definition findObjectsToSync (txn : pyval) (migrationRecord : CalendarMigrationRecord)
    : M (option (list string * list string)) :=
  remote_home <- _remoteHome txn ;;
  remote_home <- attr_of "childWithID" remote_home ;;
  remote_calendar <- remote_childWithID remote_home (remoteResourceID migrationRecord) ;;
  match remote_calendar with
  | None => ret None
  | Some remote_calendar =>
      names <- remote_resourceNamesSinceToken remote_calendar (lastSyncToken migrationRecord) ;;
      let '(changed, deleted, _ignore_invalid) := names in
      t <- the_txn "calendarHomeWithUID" txn ;;
      local_home <- calendarHomeWithUID t (migratingUid diruid) ;;
      local_home <- attr_of "childWithID" local_home ;;
      local_calendar <- home_childWithID local_home (localResourceID migrationRecord) ;;
      remote_changes <- remote_objectResourcesWithNames remote_calendar changed ;;
      let remote_changes := py_dict ((fun o => (ro_name o, o)) <$> remote_changes) in
      local_calendar <- attr_of "objectResourcesWithNames" local_calendar ;;
      local_changes <- calendar_objectResourcesWithNames local_calendar changed ;;
      let local_changes := py_dict ((fun o => (lo_name o, o)) <$> local_changes) in
      ret (Some (actual_changes remote_changes local_changes, deleted))
  end.

Definition purgeBatch (txn : pyval) (args : nat * list string) : M unit :=
  let '(localID, purge_names) := args in
  t <- the_txn "calendarHomeWithUID" txn ;;
  local_home <- calendarHomeWithUID t (migratingUid diruid) ;;
  local_home <- attr_of "childWithID" local_home ;;
  local_calendar <- home_childWithID local_home localID ;;
  local_calendar <- attr_of "objectResourcesWithNames" local_calendar ;;
  local_objects <- calendar_objectResourcesWithNames local_calendar purge_names ;;
  for_each_ local_objects object_purge.

Definition purgeDeletedObjectsInBatches (migrationRecord : CalendarMigrationRecord)
    (deleted : list string) : M unit :=
  let remaining := deleted in
  batch_loop BATCH_SIZE (length remaining) remaining (fun window =>
    in_txn "purgeBatch" purgeBatch (localResourceID migrationRecord, window)).

Definition updateBatch (txn : pyval) (args : nat * nat * list string) : M unit :=
  let '(localID, remoteID, remaining) := args in
  remote_home <- _remoteHome txn ;;
  remote_home <- attr_of "childWithID" remote_home ;;
  remote_calendar <- remote_childWithID remote_home remoteID ;;
  match remote_calendar with
  | None => ret tt
  | Some remote_calendar =>
      remote_objects <- remote_objectResourcesWithNames remote_calendar remaining ;;
      let remote_objects := py_dict ((fun o => (ro_name o, o)) <$> (remote_objects : list RemoteObject)) in
      t <- the_txn "calendarHomeWithUID" txn ;;
      local_home <- calendarHomeWithUID t (migratingUid diruid) ;;
      local_home <- attr_of "childWithID" local_home ;;
      local_calendar <- home_childWithID local_home localID ;;
      local_calendar <- attr_of "objectResourcesWithNames" local_calendar ;;
      local_objects <- calendar_objectResourcesWithNames local_calendar remaining ;;
      let local_objects := py_dict ((fun o => (lo_name o, o)) <$> (local_objects : list LocalObject)) in
      emit (EvMigrating t) ;;;
      local_objects <- for_each (map_to_list remote_objects)
        (fun (item : string * RemoteObject) (local_objects : gmap string LocalObject) =>
        let obj_name := item.1 in
        let remote_object := item.2 in
        let remote_data := remote_component remote_object in
        match local_objects !! obj_name with
        | Some local_object =>
            object_setComponentInternal local_object remote_data ;;;
            object_copyMetadata local_object remote_object ;;;
            ret (delete obj_name local_objects)
        | None =>
            local_object <- calendar_createCalendarObjectWithNameInternal
                              local_calendar obj_name remote_data ;;
            homeId <- self_homeId ;;
            CalendarObjectMigrationRecord_create t homeId
              (o_id (ro_row remote_object)) (o_id (lo_row local_object)) ;;;
            object_copyMetadata local_object remote_object ;;;
            ret local_objects
        end) local_objects ;;
      for_each_ ((map_to_list local_objects).*2) object_purge
  end.

Definition updateChangedObjectsInBatches (migrationRecord : CalendarMigrationRecord)
    (changed : list string) : M unit :=
  let remaining := changed in
  batch_loop BATCH_SIZE (length remaining) remaining (fun window =>
    in_txn "updateBatch" updateBatch
      (localResourceID migrationRecord, remoteResourceID migrationRecord, window)).

(** [local_sync_state] is changed in place when the calendar is new; the
    result is the dict as the method leaves it. *)
Definition syncCalendar (remoteID : nat) (local_sync_state : gmap nat CalendarMigrationRecord)
    (remote_sync_state : gmap nat CalendarMigrationRecord)
    : M (gmap nat CalendarMigrationRecord) :=
  local_sync_state <-
    match local_sync_state !! remoteID with
    | None =>
        localID <- in_txn "newCalendar" newCalendar tt ;;
        homeId <- self_homeId ;;
        ret (<[remoteID := CalendarMigrationRecord_make homeId remoteID localID None]>
               local_sync_state)
    | Some _ => ret local_sync_state
    end ;;
  let local_record := local_sync_state !! remoteID in
  remote_record <- getitem remote_sync_state remoteID ;;
  let remote_token := lastSyncToken remote_record in
  local_record <- attr_of "lastSyncToken" local_record ;;
  (if decide (lastSyncToken local_record ≠ remote_token) then
     in_txn "syncCalendarMetaData" syncCalendarMetaData local_record ;;;
     found <- in_txn "findObjectsToSync" findObjectsToSync local_record ;;
     found <- unpack found ;;
     let '(changed, deleted) := found in
     purgeDeletedObjectsInBatches local_record deleted ;;;
     updateChangedObjectsInBatches local_record changed
   else ret tt) ;;;
  in_txn "updateSyncState" updateSyncState (local_record, remote_token) ;;;
  ret local_sync_state.

Definition syncCalendarList : M unit :=
  remote_sync_state <- in_txn "getCalendarSyncList" getCalendarSyncList tt ;;
  local_sync_state <- in_txn "getSyncState" getSyncState tt ;;
  local_sync_state <- in_txn "purgeLocal" purgeLocal (local_sync_state, remote_sync_state) ;;
  remote_sync_state <- attr_of "keys" remote_sync_state ;;
  for_each ((map_to_list remote_sync_state).*1) (fun remoteID local_sync_state =>
    syncCalendar remoteID local_sync_state remote_sync_state) local_sync_state ;;;
  ret tt.

Definition syncAttachmentTable (txn : pyval) (_ : unit) : M (gset nat * gset nat) :=
  remote_home <- _remoteHome txn ;;
  remote_home <- attr_of "getAllAttachments" remote_home ;;
  rattachments <- remote_getAllAttachments remote_home ;;
  let rmap : gmap nat RemoteAttachment :=
    py_dict ((fun attachment => (ra_id attachment, attachment))
             <$> (rattachments : list RemoteAttachment)) in
  t <- the_txn "calendarHomeWithUID" txn ;;
  local_home <- calendarHomeWithUID t (migratingUid diruid) ;;
  local_home <- attr_of "getAllAttachments" local_home ;;
  lattachments <- home_getAllAttachments local_home ;;
  let lmap : gmap nat LocalAttachment :=
    py_dict ((fun attachment => (la_id attachment, attachment))
             <$> (lattachments : list LocalAttachment)) in
  homeId <- self_homeId ;;
  records <- AttachmentMigrationRecord_querysimple t homeId ;;
  let mapping : gmap nat IdMigrationRecord :=
    py_dict ((fun record => (im_remote record, record))
             <$> (records : list IdMigrationRecord)) in
  (* Removed - remove attachment and migration state *)
  let removed : gset nat := dom mapping ∖ dom rmap in
  for_each_ (elements removed) (fun remove_id =>
    record <- getitem mapping remove_id ;;
    att <- ManagedAttachment_load t (im_local record) ;;
    match att with
    | Some att => attachment_remove att false
    | None => AttachmentMigrationRecord_delete t record
    end) ;;;
  (* Track which ones need attachment data sync'd over *)
  let data_ids : gset nat := ∅ in
  (* Added - add new attachment and migration state *)
  let added : gset nat := dom rmap ∖ dom mapping in
  data_ids <- for_each (elements added) (fun (added_id : nat) (data_ids : gset nat) =>
    attachment <- ManagedAttachment_create t homeId ;;
    AttachmentMigrationRecord_create t homeId added_id (la_id attachment) ;;;
    ret (data_ids ∪ {[la_id attachment]})) data_ids ;;
  (* Possible updates - check for md5 change and sync *)
  let updates : gset nat := dom mapping ∩ dom rmap in
  data_ids <- for_each (elements updates) (fun (updated_id : nat) (data_ids : gset nat) =>
    record <- getitem mapping updated_id ;;
    let local_id := im_local record in
    remote <- getitem rmap updated_id ;;
    local <- getitem lmap local_id ;;
    if decide (a_md5 (ra_row remote) ≠ a_md5 (la_row local)) then
      attachment_copyRemote local remote ;;;
      ret (data_ids ∪ {[local_id]})
    else ret data_ids) data_ids ;;
  ret (data_ids, removed).

Definition syncAttachmentData (txn : pyval) (local_id : nat) : M unit :=
  remote_home <- _remoteHome txn ;;
  t <- the_txn "calendarHomeWithUID" txn ;;
  local_home <- calendarHomeWithUID t (migratingUid diruid) ;;
  local_home <- attr_of "getAttachmentByID" local_home ;;
  attachment <- home_getAttachmentByID local_home local_id ;;
  match attachment with
  | None => ret tt
  | Some attachment =>
      homeId <- self_homeId ;;
      records <- AttachmentMigrationRecord_querysimple_local t homeId local_id ;;
      match records with
      | record :: _ =>
          remote_home <- attr_of "readAttachmentData" remote_home ;;
          remote_readAttachmentData remote_home (im_remote record) attachment
      | [] => ret tt
      end
  end.

Definition syncAttachments : M (gset nat * gset nat) :=
  ids <- in_txn "syncAttachmentTable" syncAttachmentTable tt ;;
  let '(changed_ids, removed_ids) := ids in
  for_each_ (elements changed_ids) (fun local_id =>
    in_txn "syncAttachmentData" syncAttachmentData local_id) ;;;
  ret (changed_ids, removed_ids).

Definition getAttachmentLinks (txn : pyval) (_ : unit) : M (list Link) :=
  remote_home <- _remoteHome txn ;;
  remote_home <- attr_of "getAttachmentLinks" remote_home ;;
  remote_getAttachmentLinks remote_home.

Definition getAttachmentMappings (txn : pyval) (_ : unit)
    : M (gmap nat IdMigrationRecord * gmap nat IdMigrationRecord) :=
  homeId <- self_homeId ;;
  t <- the_txn "execSQL" txn ;;
  records <- AttachmentMigrationRecord_querysimple t homeId ;;
  let attachmentIDMap : gmap nat IdMigrationRecord :=
    py_dict ((fun record => (im_remote record, record))
             <$> (records : list IdMigrationRecord)) in
  homeId <- self_homeId ;;
  records <- CalendarObjectMigrationRecord_querysimple t homeId ;;
  let objectIDMap : gmap nat IdMigrationRecord :=
    py_dict ((fun record => (im_remote record, record))
             <$> (records : list IdMigrationRecord)) in
  ret (attachmentIDMap, objectIDMap).

Definition makeAttachmentLinks (txn : pyval)
    (args : list Link * gmap nat IdMigrationRecord * gmap nat IdMigrationRecord) : M unit :=
  let '(links, attachmentIDMap, objectIDMap) := args in
  for_each_ links (fun link =>
    (* link._txn = txn; then the two ids are re-mapped to the local ones *)
    attachment <- getitem attachmentIDMap (l_attachmentID link) ;;
    object <- getitem objectIDMap (l_calendarObjectID link) ;;
    let link := mkLink (im_local attachment) (im_local object) in
    t <- the_txn "execSQL" txn ;;
    link_insert t link).

Definition linkAttachments : M nat :=
  call "linkAttachments" (
    links <- in_txn "getAttachmentLinks" getAttachmentLinks tt ;;
    maps <- in_txn "getAttachmentMappings" getAttachmentMappings tt ;;
    let '(attachmentIDMap, objectIDMap) := maps in
    let len_links := length links in
    batch_loop 50 (length links) links (fun window =>
      in_txn "makeAttachmentLinks" makeAttachmentLinks
        (window, attachmentIDMap, objectIDMap)) ;;;
    ret len_links).

Definition individualDelegateReconcile (txn : pyval) (_ : unit) : M unit :=
  t <- the_txn "dumpIndividualDelegatesExternal" txn ;;
  record <- self_record ;;
  remote_records <- dumpIndividualDelegatesExternal t record ;;
  for_each_ remote_records (fun record => delegate_insert t record).

Definition groupDelegateReconcile (txn : pyval) (_ : unit) : M unit :=
  t <- the_txn "dumpGroupDelegatesExternal" txn ;;
  record <- self_record ;;
  remote_records <- dumpGroupDelegatesExternal t record ;;
  for_each_ remote_records (fun (item : GroupDelegateRecord * string) =>
    let delegator := item.1 in
    let groupUID := item.2 in
    local_groupID <- groupByUID t groupUID ;;
    let delegator :=
      mkGroupDelegateRecord (gd_delegator delegator) local_groupID (gd_readWrite delegator) in
    group_delegate_insert t delegator).

Definition externalDelegateReconcile (txn : pyval) (_ : unit) : M unit :=
  t <- the_txn "dumpExternalDelegatesExternal" txn ;;
  record <- self_record ;;
  remote_records <- dumpExternalDelegatesExternal t record ;;
  for_each_ remote_records (fun record => external_delegate_insert t record).

Definition delegateReconcile : M unit :=
  call "delegateReconcile" (
    in_txn "individualDelegateReconcile" individualDelegateReconcile tt ;;;
    in_txn "groupDelegateReconcile" groupDelegateReconcile tt ;;;
    in_txn "externalDelegateReconcile" externalDelegateReconcile tt).

Definition sync : M unit :=
  call "sync" (
    loadRecord ;;;
    homeId <- in_txn "prepareCalendarHome" prepareCalendarHome tt ;;
    modify (set_homeId (Some homeId)) ;;;
    (* Calendar list and calendar data *)
    syncCalendarList ;;;
    (* Sync home metadata such as alarms, default calendars, etc *)
    in_txn "syncCalendarHomeMetaData" syncCalendarHomeMetaData tt ;;;
    (* Sync attachments *)
    syncAttachments ;;;
    ret tt).

Definition finalSync : M unit :=
  call "finalSync" (
    (* Link attachments to resources: ATTACHMENT_CALENDAR_OBJECT table *)
    linkAttachments ;;;
    (* TODO: delegates reconcile *)
    delegateReconcile).

(** The three methods below are placeholders in the source: a docstring and
    [pass], under [@inlineCallbacks].  With no [yield] in the body, the call
    raises. *)
Definition disableRemoteHome : M unit :=
  call "disableRemoteHome" (not_a_generator "disableRemoteHome" (ret tt)).

Definition enableLocalHome : M unit :=
  call "enableLocalHome" (not_a_generator "enableLocalHome" (ret tt)).

Definition removeRemoteHome : M unit :=
  call "removeRemoteHome" (not_a_generator "removeRemoteHome" (ret tt)).

Definition migrateHere : M unit :=
  (* Step 1 - initial full sync *)
  sync ;;;
  (* Step 2 - increment sync *)
  sync ;;;
  (* Step 3 - disable remote home *)
  disableRemoteHome ;;;
  (* Step 4 - final incremental sync *)
  sync ;;;
  (* Step 5 - final overall sync of meta-data (including sharing re-linking) *)
  finalSync ;;;
  (* Step 6 - enable new home *)
  enableLocalHome ;;;
  (* Step 7 - remote remote home *)
  removeRemoteHome ;;;
  (* Step 8 - say phew! *)
  ret tt.
End CrossPodHomeSync.


(** ** A small deployment

    The first scenario of the specification (§8): the remote home of
    [user42] has one owned calendar (remote id 10, token [A]) with the events
    [e1.ics] and [e2.ics], and one attachment (remote id 7) bound to
    [e1.ics]; nothing is on the local pod yet. *)
Module Scenario.

Definition diruid : string := "user42".

Definition calendar10 : RemoteCalendar :=
  mkRemoteCalendar true "A" "transp" "Work"
    (<["e1.ics" := mkCalObject 11 "x" "VEVENT-1" "private"]>
       (<["e2.ics" := mkCalObject 12 "y" "VEVENT-2" "public"]> ∅))
    (fun token => match token with
                  | None => (["e1.ics"; "e2.ics"], [], false)
                  | Some _ => ([], [], false)
                  end).

Definition remote : Remote :=
  mkRemote (Some 1) "alarms" (<[10 := calendar10]> ∅)
    (<[7 := mkAttachment 1 "z" "image/png" "bytes"]> ∅)
    [mkLink 7 11] [mkDelegateRecord "user42" "user43" true] []
    [(mkGroupDelegateRecord "user42" 5 false, "group1")].

Definition directory : gmap string DirRecord :=
  <["user42" := mkDirRecord "user42" false]> (<["user01" := mkDirRecord "user01" true]> ∅).

(** The orchestrator just constructed, on an empty local store. *)
Definition fresh_world : World :=
  mkWorld empty_DB ∅ 0 100 0 remote directory None None [].

(** The same deployment when the conduit knows no home for the user: the
    record is loaded and the local migrating home (id 100) is in place, but
    [send_home_resource_id] answers [None]. *)
Definition no_remote_home : World :=
  mkWorld (with_homes (insert "Migrating-user42" (mkHome 100 "" (Some "user42"))) empty_DB)
    ∅ 0 101 0
    (mkRemote None "" ∅ ∅ [] [] [] []) directory (Some (Some (mkDirRecord "user42" false))) (Some 100) [].

(** A later state of the same migration: the local calendar 101 mirrors
    remote calendar 10 as of token [A] ([e1.ics] with md5 [x], [e2.ics] with
    md5 [y]).  Since then the remote side has changed [e1.ics], touched
    [e2.ics] without changing its content, added [e3.ics], added and removed
    [gone.ics] again, and removed [old.ics]; its token is now [B]. *)
Definition calendar10_later : RemoteCalendar :=
  mkRemoteCalendar true "B" "transp" "Work"
    (<["e1.ics" := mkCalObject 11 "x2" "VEVENT-1b" "private"]>
       (<["e2.ics" := mkCalObject 12 "y" "VEVENT-2" "public"]>
          (<["e3.ics" := mkCalObject 13 "v" "VEVENT-3" "public"]> ∅)))
    (fun token => (["e1.ics"; "e2.ics"; "e3.ics"; "gone.ics"], ["old.ics"], false)).

Definition local_calendar101 : Calendar :=
  mkCalendar 100 "Work" "transp"
    (<["e1.ics" := mkCalObject 102 "x" "VEVENT-1" "private"]>
       (<["e2.ics" := mkCalObject 103 "y" "VEVENT-2" "public"]> ∅)).

Definition record10 : CalendarMigrationRecord :=
  mkCalendarMigrationRecord 100 10 101 (Some "A") false.

Definition incremental : World :=
  mkWorld
    (with_calendars (insert 101 local_calendar101)
       (with_calendar_migration (insert (100, 10) (101, Some "A"))
          (with_homes (insert "Migrating-user42" (mkHome 100 "" (Some "user42"))) empty_DB)))
    ∅ 20 104 1
    (mkRemote (Some 1) "alarms" (<[10 := calendar10_later]> ∅) ∅ [] [] [] [])
    directory (Some (Some (mkDirRecord "user42" false))) (Some 100) [].

(** A later state with attachments.  The remote home has the attachments 7
    (content changed since it was copied: md5 [z2]), 8 (unchanged) and 9
    (new).  The local home has 201 (copy of 7 as of md5 [z]), 202 (copy of 8)
    and 203 (copy of remote attachment 5, which is gone from the remote
    side); the mapping also has a row for remote attachment 6, gone from the
    remote side, whose local attachment 204 is gone as well. *)
Definition attachments : World :=
  mkWorld
    (with_attachments
       (fun _ => <[201 := mkAttachment 100 "z" "image/png" "bytes-z"]>
                   (<[202 := mkAttachment 100 "k" "text/plain" "bytes-k"]>
                      (<[203 := mkAttachment 100 "q" "text/plain" "bytes-q"]> ∅)))
       (with_attachment_migration
          (fun _ => <[(100, 7) := 201]>
                      (<[(100, 8) := 202]> (<[(100, 5) := 203]> (<[(100, 6) := 204]> ∅))))
          (with_homes (insert "Migrating-user42" (mkHome 100 "" (Some "user42"))) empty_DB)))
    ∅ 30 300 1
    (mkRemote (Some 1) "alarms" ∅
       (<[7 := mkAttachment 1 "z2" "image/png" "bytes-z2"]>
          (<[8 := mkAttachment 1 "k" "text/plain" "bytes-k"]>
             (<[9 := mkAttachment 1 "n" "text/plain" "bytes-n"]> ∅)))
       [] [] [] [])
    directory (Some (Some (mkDirRecord "user42" false))) (Some 100) [].

End Scenario.


(** ** Vocabulary of the statements *)

(** Number of events of a kind in a trace. *)
Definition count_events (p : Event → bool) (tr : list Event) : nat :=
  length (filter (fun ev => p ev = true) tr).

(** Every run of [c] adds at most [n] events of kind [p] to the trace, and
    takes nothing off it. *)
Definition bounded (p : Event → bool) (n : nat) {A} (c : M A) : Prop :=
  ∀ w r w', c w = (r, w') →
    ∃ evs, w_trace w' = w_trace w ++ evs ∧ count_events p evs ≤ n.

(** Kinds of events that the transaction wrapper itself never produces. *)
Definition wrapper_free (p : Event → bool) : Prop :=
  (∀ t l, p (EvNewTransaction t l) = false)
  ∧ (∀ t, p (EvCommit t) = false)
  ∧ (∀ t, p (EvAbort t) = false)
  ∧ (∀ m, p (EvLogError m) = false).

(** Entering and leaving a method of the orchestration level. *)
Definition is_marker (ev : Event) : bool :=
  match ev with
  | EvEnter _ | EvLeave _ => true
  | _ => false
  end.

(** A calendar object resource is written: stored, created or purged. *)
Definition is_object_write (ev : Event) : bool :=
  match ev with
  | EvObjectSet _ _ _ | EvObjectCreate _ _ _ | EvObjectPurge _ _ _ => true
  | _ => false
  end.

(** What [syncCalendar] does for a calendar whose tokens differ: the
    calendar's meta-data sync and the object sync ([resourceNamesSinceToken],
    then object writes). *)
Definition is_calendar_sync_work (ev : Event) : bool :=
  match ev with
  | EvResourceNamesSinceToken _ _ _ | EvCalendarCopyMetadata _ _
  | EvObjectSet _ _ _ | EvObjectCreate _ _ _ | EvObjectPurge _ _ _
  | EvObjectCopyMetadata _ _ _ | EvObjectRecordCreate _ _ _ | EvMigrating _ => true
  | _ => false
  end.

(** An object resource is purged in transaction [t]. *)
Definition is_object_purge (t : nat) (ev : Event) : bool :=
  match ev with
  | EvObjectPurge t' _ _ => bool_decide (t' = t)
  | _ => false
  end.

(** An object resource is stored or created in transaction [t]. *)
Definition is_object_update (t : nat) (ev : Event) : bool :=
  match ev with
  | EvObjectSet t' _ _ | EvObjectCreate t' _ _ => bool_decide (t' = t)
  | _ => false
  end.

(** Number of [commit] and [abort] calls on transaction [t] in a trace. *)
Definition is_release (t : nat) (ev : Event) : bool :=
  match ev with
  | EvCommit t' | EvAbort t' => bool_decide (t' = t)
  | _ => false
  end.

Definition releases (t : nat) (tr : list Event) : nat :=
  count_events (is_release t) tr.


(** The entries into and returns from orchestration-level methods, in the
    order in which they happened. *)
Definition markers (tr : list Event) : list Event :=
  filter (fun ev => is_marker ev = true) tr.

(** Every run of [c] goes through the phases [full] in this order: what it
    adds to the trace shows a prefix of [full], and all of [full] when the
    run ends without an error. *)
Definition phases (full : list Event) {A} (c : M A) : Prop :=
  ∀ w r w', c w = (r, w') →
    ∃ evs, w_trace w' = w_trace w ++ evs
      ∧ markers evs `prefix_of` full
      ∧ (is_ok r = true → markers evs = full).

(** A method entered and left, with the phases [inner] in between. *)
Definition phase (method : string) (inner : list Event) : list Event :=
  [EvEnter method] ++ inner ++ [EvLeave method].

(** The error of a call of one of the placeholder methods. *)
Definition placeholder_error (name : string) : exn :=
  TypeError ("inlineCallbacks requires " +:+ name
             +:+ " to produce a generator; instead got None").

(** The phases that [migrateHere] lists, in order. *)
Definition migrateHere_phases : list Event :=
  phase "sync" []                       (* initial bulk sync *)
  ++ phase "sync" []                    (* warm re-sync *)
  ++ phase "disableRemoteHome" []       (* disabling the remote source home *)
  ++ phase "sync" []                    (* final delta sync *)
  ++ phase "finalSync"                  (* final reconcile: links, then delegates *)
       (phase "linkAttachments" [] ++ phase "delegateReconcile" [])
  ++ phase "enableLocalHome" []         (* enabling the local destination home *)
  ++ phase "removeRemoteHome" [].       (* purging the remote home *)

(** How far a run of [migrateHere] gets at most: the two syncs and the entry
    into [disableRemoteHome]. *)
Definition migrateHere_reached : list Event :=
  phase "sync" [] ++ phase "sync" [] ++ [EvEnter "disableRemoteHome"].


(** Every run of [c] (every run that ends without an error, when [ok_only]
    is set) takes the world to one related to it by [R]. *)
Definition respects (ok_only : bool) (R : relation World) {A} (c : M A) : Prop :=
  ∀ w r w', c w = (r, w') → (ok_only = true → is_ok r = true) → R w w'.

(** The part [f] of the world is the same afterwards. *)
Definition same {X} (f : World → X) : relation World := fun w w' => f w' = f w.

(** Events of the kinds [p t] are counted per transaction [t]: every run of
    [c] adds at most [n] of them for any one transaction, and only for
    transactions that it has opened itself. *)
Definition per_txn (p : nat → Event → bool) (n : nat) {A} (c : M A) : Prop :=
  ∀ w r w', c w = (r, w') →
    ∃ evs, w_trace w' = w_trace w ++ evs
      ∧ w_next_txn w ≤ w_next_txn w'
      ∧ (∀ t, count_events (p t) evs ≤ n)
      ∧ (∀ t, count_events (p t) evs ≠ 0 → w_next_txn w ≤ t < w_next_txn w').


(** A calendar object resource is stored or created, in any transaction. *)
Definition is_update (ev : Event) : bool :=
  match ev with
  | EvObjectSet _ _ _ | EvObjectCreate _ _ _ => true
  | _ => false
  end.

(** A calendar object resource is purged, in any transaction. *)
Definition is_purge (ev : Event) : bool :=
  match ev with
  | EvObjectPurge _ _ _ => true
  | _ => false
  end.

(** If the event is the write of an object resource, it is one made in
    transaction [t]. *)
Definition written_in (t : nat) (ev : Event) : Prop :=
  match ev with
  | EvObjectSet t' _ _ | EvObjectCreate t' _ _ | EvObjectPurge t' _ _ => t' = t
  | _ => True
  end.


(** What one batch, run in transaction [t] on a window of [n] names, may add
    to the trace: object writes in [t] only, at most [n] stores and creations
    and at most [n] purges; and it opens no transaction. *)
Definition batch_trace (t n : nat) (w w' : World) : Prop :=
  ∃ evs, w_trace w' = w_trace w ++ evs
    ∧ w_next_txn w' = w_next_txn w
    ∧ Forall (written_in t) evs
    ∧ count_events is_update evs ≤ n
    ∧ count_events is_purge evs ≤ n.


(** The world right after the wrapper has opened its transaction for the
    operation [name]. *)
Definition begin_txn (diruid name : string) (w : World) : World :=
  record_event (EvNewTransaction (w_next_txn w) (label diruid name))
    (set_open (insert (w_next_txn w) (w_db w)) (set_next_txn (S (w_next_txn w)) w)).

(** The world after the wrapper has aborted transaction [t] and logged the
    failure [e] of the operation [name]. *)
Definition abort_txn (diruid name : string) (t : nat) (e : exn) (w : World) : World :=
  record_event (EvLogError (label diruid name +:+ " failed: " +:+ str_exn e)) (txn_abort t w).2.

(** A remote link can be re-mapped: both of its ids are keys of the maps. *)
Definition link_mapped (attachmentIDMap objectIDMap : gmap nat IdMigrationRecord) (link : Link)
    : Prop :=
  is_Some (attachmentIDMap !! l_attachmentID link)
  ∧ is_Some (objectIDMap !! l_calendarObjectID link).

(** [new] is the remote link [link] with its two ids re-mapped. *)
Definition link_remapped (attachmentIDMap objectIDMap : gmap nat IdMigrationRecord)
    (link new : Link) : Prop :=
  ∃ a o, attachmentIDMap !! l_attachmentID link = Some a
       ∧ objectIDMap !! l_calendarObjectID link = Some o
       ∧ new = mkLink (im_local a) (im_local o).


(** [new] is the remote link [link] with both ids replaced by the local ids
    that the migration tables of the home [homeId] store for them. *)
Definition link_rebound (db : DB) (homeId : nat) (link new : Link) : Prop :=
  ∃ attachmentID objectID,
    db_attachment_migration db !! (homeId, l_attachmentID link) = Some attachmentID
    ∧ db_object_migration db !! (homeId, l_calendarObjectID link) = Some objectID
    ∧ new = mkLink attachmentID objectID.

(** Transaction [t] is committed. *)
Definition is_commit (t : nat) (ev : Event) : bool :=
  match ev with
  | EvCommit t' => bool_decide (t' = t)
  | _ => false
  end.


(** The object resource [name] has to be fetched again: it is absent from
    the local calendar, or the remote md5 differs from the local object's
    md5. *)
Definition needs_sync (remote_objects local_objects : gmap string CalObject) (name : string)
    : Prop :=
  local_objects !! name = None
  ∨ ∃ ro lo, remote_objects !! name = Some ro ∧ local_objects !! name = Some lo
             ∧ o_md5 ro ≠ o_md5 lo.


(** [findObjectsToSync], called without a transaction for the calendar of
    [migrationRecord], returns the pair of: the names in [changed] that meet
    [criterion] (as a set: each once, in no particular order), and [deleted]
    as it came from [resourceNamesSinceToken]; the store is left alone. *)
Definition findObjectsToSync_returns
    (criterion : gmap string CalObject → gmap string CalObject → string → Prop)
    (diruid : string) (migrationRecord : CalendarMigrationRecord) (w : World)
    (rc : RemoteCalendar) (cal : Calendar) : Prop :=
  ∀ changed deleted invalid,
    rc_changes rc (lastSyncToken migrationRecord) = (changed, deleted, invalid) →
    ∃ actual w',
      in_txn diruid "findObjectsToSync" (findObjectsToSync diruid) migrationRecord w
        = (Ok (Some (actual, deleted)), w')
      ∧ w_db w' = w_db w
      ∧ NoDup actual
      ∧ ∀ name, name ∈ actual ↔
          name ∈ changed ∧ criterion (rc_objects rc) (c_objects cal) name.

(** The names that [findObjectsToSync] keeps: those for which the remote
    calendar returns an object, and that object has to be fetched. *)
Definition remote_needs_sync (remote_objects local_objects : gmap string CalObject)
    (name : string) : Prop :=
  is_Some (remote_objects !! name) ∧ needs_sync remote_objects local_objects name.

(** [purgeBatch], called without a transaction on the calendar [localID]
    (whose object resources are [local_objects]) ends normally; it purges no
    name that the calendar does not hold, and when it holds none of [names]
    the store is left alone. *)
Definition purge_skips_absent (diruid : string) (localID : nat)
    (local_objects : gmap string CalObject) (w : World) : Prop :=
  ∀ names,
    ∃ evs w',
      in_txn diruid "purgeBatch" (purgeBatch diruid) (localID, names) w = (Ok tt, w')
      ∧ w_trace w' = w_trace w ++ evs
      ∧ (∀ name t calendarID, local_objects !! name = None →
           EvObjectPurge t calendarID name ∉ evs)
      ∧ ((∀ name, name ∈ names → local_objects !! name = None) → w_db w' = w_db w).


(** *** Sync tokens *)

(** Partial correctness: a run of [c] from a world where [P] holds that ends
    normally with [a] ends in a world where [Q a] holds. *)
Definition triple {A} (P : World → Prop) (c : M A) (Q : A → World → Prop) : Prop :=
  ∀ w a w', P w → c w = (Ok a, w') → Q a w'.

(** Every run of [c] from a world where [P] holds adds no event of kind [p]
    to the trace, whether it ends normally or not; when it ends normally with
    [a], [Q a] holds afterwards. *)
Definition quiet (p : Event → bool) {A} (P : World → Prop) (c : M A) (Q : A → World → Prop)
    : Prop :=
  ∀ w r w', P w → c w = (r, w') →
    (∃ evs, w_trace w' = w_trace w ++ evs ∧ count_events p evs = 0)
    ∧ ∀ a, r = Ok a → Q a w'.

(** The local store, the remote pod and [self.homeId]. *)
Definition store_view (w : World) : DB * Remote * option nat :=
  (w_db w, w_remote w, w_homeId w).

(** A property of the world that only looks at [store_view]. *)
Definition on_store (P : World → Prop) : Prop :=
  ∀ w w', store_view w' = store_view w → P w → P w'.

(** The CALENDAR_MIGRATION table. *)
Definition migration_table (w : World) : gmap (nat * nat) (nat * option string) :=
  db_calendar_migration (w_db w).

(** What the steps that work on one calendar's content leave alone. *)
Definition table_view (w : World) : gmap (nat * nat) (nat * option string) * Remote * option nat
    * gmap string Home :=
  (db_calendar_migration (w_db w), w_remote w, w_homeId w, db_homes (w_db w)).

(** What purging calendars and recording tokens leave alone. *)
Definition homes_view (w : World) : Remote * option nat * gmap string Home :=
  (w_remote w, w_homeId w, db_homes (w_db w)).

(** The resource id of the local migrating home, when it is there. *)
Definition home_id (diruid : string) (w : World) : option nat :=
  h_id <$> db_homes (w_db w) !! migratingUid diruid.

(** What copying the home's meta-data leaves alone. *)
Definition keep_view (diruid : string) (w : World)
    : gmap (nat * nat) (nat * option string) * Remote * option nat :=
  (migration_table w, w_remote w, home_id diruid w).

(** The record that [querysimple] makes of the row of remote calendar [rid]
    of home [h]. *)
Definition row_record (h rid : nat) (row : nat * option string) : CalendarMigrationRecord :=
  mkCalendarMigrationRecord h rid row.1 row.2 false.

(** The remote sync state: what [getCalendarSyncList] answers while the
    remote pod is in state [r]. *)
Definition remote_sync_state (r : Remote) : option (gmap nat CalendarMigrationRecord) :=
  (fun resourceID =>
     foldl (fun results (kv : nat * RemoteCalendar) =>
              if rc_owned kv.2
              then <[kv.1 := CalendarMigrationRecord_make resourceID kv.1 0
                               (Some (rc_syncToken kv.2))]> results
              else results)
           ∅ (map_to_list (r_calendars r)))
  <$> r_resourceID r.

(** The stored token of every remote calendar of [remote_state] is the
    calendar's current remote token. *)
Definition tokens_recorded (homeId : nat) (remote_state : gmap nat CalendarMigrationRecord)
    (db : DB) : Prop :=
  ∀ remoteID remote_record, remote_state !! remoteID = Some remote_record →
    ∃ localID, db_calendar_migration db !! (homeId, remoteID)
               = Some (localID, lastSyncToken remote_record).

(** The state that a [sync] leaves behind: the local migrating home is
    there, and the tokens of the remote calendars are recorded for it. *)
Definition synced (diruid : string) (homeId : nat)
    (remote_state : gmap nat CalendarMigrationRecord) (w : World) : Prop :=
  home_id diruid w = Some homeId
  ∧ remote_sync_state (w_remote w) = Some remote_state
  ∧ tokens_recorded homeId remote_state (w_db w).

(** The local sync state has, for every remote calendar, a record with the
    calendar's current remote token. *)
Definition tokens_agree (local_state remote_state : gmap nat CalendarMigrationRecord) : Prop :=
  ∀ remoteID remote_record, remote_state !! remoteID = Some remote_record →
    ∃ local_record, local_state !! remoteID = Some local_record
      ∧ lastSyncToken local_record = lastSyncToken remote_record.

(** No two rows of the CALENDAR_MIGRATION table point to the same local
    calendar. *)
Definition local_ids_distinct (table : gmap (nat * nat) (nat * option string)) : Prop :=
  ∀ k k' row row', table !! k = Some row → table !! k' = Some row' → row.1 = row'.1 → k = k'.

(** [syncCalendar] on a calendar whose stored token is the remote token only
    records the token again: no meta-data sync, no [resourceNamesSinceToken],
    no object resource written. *)
Definition skips_on_equal_tokens (diruid : string) : Prop :=
  ∀ remoteID (local_sync_state remote_sync_state : gmap nat CalendarMigrationRecord)
    local_record remote_record,
    local_sync_state !! remoteID = Some local_record →
    remote_sync_state !! remoteID = Some remote_record →
    lastSyncToken local_record = lastSyncToken remote_record →
    (∀ w, syncCalendar diruid remoteID local_sync_state remote_sync_state w
          = (in_txn diruid "updateSyncState" updateSyncState
               (local_record, lastSyncToken remote_record) ;;;
             ret local_sync_state) w)
    ∧ bounded is_calendar_sync_work 0
        (syncCalendar diruid remoteID local_sync_state remote_sync_state).

(** A [sync] that follows a [sync] that ended normally, with the remote pod
    as it was, does none of the per-calendar work; in particular it writes no
    calendar object resource. *)
Definition second_sync_writes_nothing (diruid : string) : Prop :=
  ∀ w w1 r2 w2,
    local_ids_distinct (migration_table w) →
    sync diruid w = (Ok tt, w1) →
    sync diruid w1 = (r2, w2) →
    ∃ evs, w_trace w2 = w_trace w1 ++ evs
      ∧ count_events is_calendar_sync_work evs = 0
      ∧ count_events is_object_write evs = 0.


(** *** The attachment table *)

(** The attachment mapping of a home: the local attachment id stored for a
    remote attachment id, from the rows of ATTACHMENT_MIGRATION. *)
Definition attachment_mapping (homeId : nat) (rows : gmap (nat * nat) nat) : gmap nat nat :=
  list_to_map ((fun kv : nat * nat * nat => (kv.1.2, kv.2))
               <$> map_to_list (filter (fun kv : nat * nat * nat => kv.1.1 = homeId) rows)).

(** The mapped ids among [ids], each with its local id, in the order of
    [ids]. *)
Definition pairs_in (mapping : gmap nat nat) (ids : list nat) : list (nat * nat) :=
  omap (fun remoteID => (fun localID => (remoteID, localID)) <$> mapping !! remoteID) ids.

(** What is done for the removed remote ids, one after the other: the local
    attachment is loaded by its local id; when it is there it is removed with
    [adjustQuota=False] (and is gone from then on), when it is gone only the
    mapping row is deleted. *)
Fixpoint removal_events (t : nat) (present : gset nat) (pairs : list (nat * nat)) : list Event :=
  match pairs with
  | [] => []
  | (remoteID, localID) :: pairs =>
      EvAttachmentLoad t localID ::
      (if decide (localID ∈ present)
       then EvAttachmentRemove t localID false
            :: removal_events t (present ∖ {[localID]}) pairs
       else EvAttachmentRecordDelete t remoteID :: removal_events t present pairs)
  end.

(** What is done for the added remote ids: a new local attachment and a new
    mapping row for each; the new attachments get the ids [first],
    [first + 1], ... *)
Definition creation_events (t first : nat) (added : list nat) : list Event :=
  concat (zip_with (fun remoteID localID =>
                      [EvAttachmentCreate t localID;
                       EvAttachmentRecordCreate t remoteID localID])
                   added (seq first (length added))).

(** The md5 of the remote attachment differs from that of its local copy. *)
Definition md5_differs (remote local : gmap nat Attachment) (pair : nat * nat) : bool :=
  match remote !! pair.1, local !! pair.2 with
  | Some ra, Some la => bool_decide (a_md5 ra ≠ a_md5 la)
  | _, _ => false
  end.

(** What is done for the ids on both sides: the remote meta-data is copied
    onto the local attachment when the md5 differs, and nothing else. *)
Definition copy_events (t : nat) (remote local : gmap nat Attachment)
    (pairs : list (nat * nat)) : list Event :=
  (fun pair : nat * nat => EvAttachmentCopyRemote t pair.2 pair.1)
  <$> filter (fun pair => md5_differs remote local pair = true) pairs.

(** The local attachment of every mapped remote attachment that is still on
    the remote side is there, in the local migrating home. *)
Definition mapped_attachments_present (home : Home) (homeId : nat) (w : World) : Prop :=
  ∀ remoteID localID,
    attachment_mapping homeId (db_attachment_migration (w_db w)) !! remoteID = Some localID →
    is_Some (r_attachments (w_remote w) !! remoteID) →
    ∃ la, db_attachments (w_db w) !! localID = Some la ∧ a_home la = h_id home.

(** [syncAttachmentTable], called without a transaction, partitions the
    attachment ids by the keys of the mapping and of the remote attachment
    map, does for each part what [removal_events], [creation_events] and
    [copy_events] say, in one transaction, and returns the local ids that need
    their data transferred (the new ones and the ones whose md5 differs) and
    the removed remote ids. *)
Definition syncAttachmentTable_partitions (diruid : string) (homeId : nat) (w : World) : Prop :=
  let remote := r_attachments (w_remote w) in
  let local := db_attachments (w_db w) in
  let mapping := attachment_mapping homeId (db_attachment_migration (w_db w)) in
  let removed := dom mapping ∖ dom remote in
  let added := dom remote ∖ dom mapping in
  let updates := dom mapping ∩ dom remote in
  let t := w_next_txn w in
  (∀ remoteID, mapping !! remoteID = db_attachment_migration (w_db w) !! (homeId, remoteID))
  ∧ ∃ data_ids w',
      in_txn diruid "syncAttachmentTable" (syncAttachmentTable diruid) tt w
        = (Ok (data_ids, removed), w')
      ∧ (∀ localID, localID ∈ data_ids ↔
           w_next_id w ≤ localID < w_next_id w + size added
           ∨ ∃ remoteID, remoteID ∈ updates ∧ mapping !! remoteID = Some localID
               ∧ md5_differs remote local (remoteID, localID) = true)
      ∧ w_trace w' = w_trace w
          ++ [EvNewTransaction t (label diruid "syncAttachmentTable");
              EvConduit t "home_resource_id"; EvConduit t "getAllAttachments"]
          ++ removal_events t (dom local) (pairs_in mapping (elements removed))
          ++ creation_events t (w_next_id w) (elements added)
          ++ copy_events t remote local (pairs_in mapping (elements updates))
          ++ [EvCommit t].


(** *** Open transactions *)

(** Every open transaction was handed out by [newTransaction]: its
    identifier is below the next one. *)
Definition open_below (w : World) : Prop :=
  ∀ t, is_Some (w_open w !! t) → t < w_next_txn w.

(** The run ended normally or with an instance of [Exception]: the cases
    in which [inTransactionWrapper] commits or aborts. *)
Definition released {A} (r : result A) : Prop :=
  match r with
  | Ok _ => True
  | Err e => is_Exception e = true
  end.

(** From a world whose open transactions were handed out by
    [newTransaction], a run of [c] that ends normally or with an instance of
    [Exception] leaves open the transactions that were open, and no other. *)
Definition closes_its_transactions {A} (c : M A) : Prop :=
  ∀ w r w', c w = (r, w') → open_below w →
    w_next_txn w ≤ w_next_txn w' ∧ (released r → w_open w' = w_open w).

(** * Properties *)

(** ** Running computations *)

Lemma run_bind {A B} (c : M A) (k : A → M B) (w : World) :
  bind c k w = match c w with
               | (Ok a, w') => k a w'
               | (Err e, w') => (Err e, w')
               end.
Proof. reflexivity. Qed.

Lemma bind_Ok_inv {A B} (c : M A) (k : A → M B) w b w' :
  bind c k w = (Ok b, w') →
  ∃ a w1, c w = (Ok a, w1) ∧ k a w1 = (Ok b, w').
Proof.
  rewrite run_bind. destruct (c w) as [[a|e] w1]; [eauto | discriminate].
Qed.

Lemma bind_Err_inv {A B} (c : M A) (k : A → M B) w e w' :
  bind c k w = (Err e, w') →
  c w = (Err e, w') ∨ ∃ a w1, c w = (Ok a, w1) ∧ k a w1 = (Err e, w').
Proof.
  rewrite run_bind. destruct (c w) as [[a|e0] w1]; [eauto | ].
  intros [= -> ->]. by left.
Qed.

Lemma trace_record_event ev w : w_trace (record_event ev w) = w_trace w ++ [ev].
Proof. reflexivity. Qed.

Lemma count_events_app p tr1 tr2 :
  count_events p (tr1 ++ tr2) = count_events p tr1 + count_events p tr2.
Proof. unfold count_events. by rewrite filter_app, length_app. Qed.

Lemma releases_app t tr1 tr2 : releases t (tr1 ++ tr2) = releases t tr1 + releases t tr2.
Proof. apply count_events_app. Qed.

(** What [_inTxn] does when the caller passes [txn]. *)
Lemma _inTxn_supplied {Args A} diruid name (operation : pyval → Args → gmap string pyval → M A)
    args kwargs txn w :
  kwargs !! "txn" = Some txn →
  _inTxn diruid name operation args kwargs w =
    match operation txn args (delete "txn" kwargs) w with
    | (Ok a, w') => (Ok (Value a), w')
    | (Err e, w') => (Err e, w')
    end.
Proof.
  intros Hk. unfold _inTxn. rewrite Hk. rewrite run_bind.
  by destruct (operation _ _ _ w) as [[a|e] w'].
Qed.

(** What [_inTxn] does when the caller passes no [txn]. *)
Lemma _inTxn_created {Args A} diruid name (operation : pyval → Args → gmap string pyval → M A)
    args kwargs w :
  kwargs !! "txn" = None →
  let t := w_next_txn w in
  let lbl := label diruid name in
  let w1 := record_event (EvNewTransaction t lbl) (set_open (insert t (w_db w)) (set_next_txn (S t) w)) in
  _inTxn diruid name operation args kwargs w =
    match operation (PyTxn t) args kwargs w1 with
    | (Ok a, w2) => (Ok (Value a), (txn_commit t w2).2)
    | (Err e, w2) =>
        if is_Exception e
        then (Ok (FailureValue (mkFailure e)),
              record_event (EvLogError (lbl +:+ " failed: " +:+ str_exn e)) (txn_abort t w2).2)
        else (Err e, w2)
    end.
Proof.
  intros Hk. unfold _inTxn. rewrite Hk. cbn zeta.
  rewrite run_bind. unfold newTransaction at 1. cbn zeta.
  unfold try_except_else.
  destruct (operation _ _ _ _) as [[a|e] w2]; [done|]. by destruct (is_Exception e).
Qed.

Lemma trace_txn_commit t w : w_trace (txn_commit t w).2 = w_trace w ++ [EvCommit t].
Proof. reflexivity. Qed.

Lemma trace_txn_abort t w : w_trace (txn_abort t w).2 = w_trace w ++ [EvAbort t].
Proof. unfold txn_abort. cbn. by destruct (w_open w !! t). Qed.

Lemma db_txn_commit t w : w_db (txn_commit t w).2 = w_db w.
Proof. reflexivity. Qed.

(** ** The transaction scope helper *)

(** C1 (as amended).  [inTransactionWrapper]: with a [txn] keyword the
    outcome of the wrapped method is the outcome of the operation run with
    that value as its transaction, with nothing added.  With no [txn] keyword
    a transaction labelled with the operation's name is created first; when
    the operation returns, the transaction is committed and the result
    returned; when it raises an instance of [Exception], the transaction is
    aborted, the failure is logged with the label, and the generator returns
    the [Failure] as a value (it neither raises nor returns [None]).  In
    these two cases what the wrapper adds to the trace after the operation
    holds exactly one [commit] or [abort] of that transaction.  A raisable
    that is not an instance of [Exception] is not caught by
    [except Exception]: it leaves the wrapper as it came, and the wrapper
    adds nothing after the operation, neither [commit] nor [abort]. *)
Theorem C1_inTransactionWrapper {Args A : Type} (diruid name : string)
    (operation : pyval → Args → gmap string pyval → M A)
    (args : Args) (kwargs : gmap string pyval) (w : World) :
  match kwargs !! "txn" with
  | Some txn =>
      inTransactionWrapper diruid name operation args kwargs w
        = operation txn args (delete "txn" kwargs) w
      ∧ _inTxn diruid name operation args kwargs w
        = match operation txn args (delete "txn" kwargs) w with
          | (Ok a, w') => (Ok (Value a), w')
          | (Err e, w') => (Err e, w')
          end
  | None =>
      let t := w_next_txn w in
      let lbl := label diruid name in
      ∃ w1, newTransaction lbl w = (Ok t, w1)
        ∧ w_trace w1 = w_trace w ++ [EvNewTransaction t lbl]
        ∧ match operation (PyTxn t) args kwargs w1 with
          | (Ok a, w2) =>
              ∃ w3, _inTxn diruid name operation args kwargs w = (Ok (Value a), w3)
                ∧ inTransactionWrapper diruid name operation args kwargs w = (Ok a, w3)
                ∧ w_trace w3 = w_trace w2 ++ [EvCommit t]
                ∧ w_db w3 = w_db w2
                ∧ releases t (w_trace w3) = releases t (w_trace w2) + 1
          | (Err e, w2) =>
              if is_Exception e
              then
                ∃ w3, _inTxn diruid name operation args kwargs w
                        = (Ok (FailureValue (mkFailure e)), w3)
                  ∧ inTransactionWrapper diruid name operation args kwargs w = (Err e, w3)
                  ∧ w_trace w3 = w_trace w2
                      ++ [EvAbort t; EvLogError (lbl +:+ " failed: " +:+ str_exn e)]
                  ∧ releases t (w_trace w3) = releases t (w_trace w2) + 1
              else
                _inTxn diruid name operation args kwargs w = (Err e, w2)
                ∧ inTransactionWrapper diruid name operation args kwargs w = (Err e, w2)
          end
  end.
Proof.
  destruct (kwargs !! "txn") as [txn|] eqn:Hk.
  - pose proof (_inTxn_supplied diruid name operation args kwargs txn w Hk) as Hs.
    split; [|exact Hs].
    unfold inTransactionWrapper, fire. rewrite Hs.
    by destruct (operation txn args (delete "txn" kwargs) w) as [[a|e] w'].
  - cbn zeta. eexists. split; [reflexivity|]. split; [reflexivity|].
    pose proof (_inTxn_created diruid name operation args kwargs w Hk) as Hc.
    cbn zeta in Hc.
    destruct (operation _ _ _ _) as [[a|e] w2] eqn:Hop.
    + eexists. split; [exact Hc|]. split.
      { unfold inTransactionWrapper, fire. by rewrite Hc. }
      rewrite trace_txn_commit, db_txn_commit. split; [done|]. split; [done|].
      rewrite releases_app. f_equal. unfold releases, count_events. cbn.
      by rewrite bool_decide_eq_true_2.
    + destruct (is_Exception e).
      * eexists. split; [exact Hc|]. split.
        { unfold inTransactionWrapper, fire. by rewrite Hc. }
        rewrite trace_record_event, trace_txn_abort, <- app_assoc. split; [done|].
        rewrite releases_app. f_equal. unfold releases, count_events. cbn.
        by rewrite bool_decide_eq_true_2.
      * split; [exact Hc|]. unfold inTransactionWrapper, fire. by rewrite Hc.
Qed.

(** C1 as it was stated fails on a raisable outside [Exception]: an
    operation interrupted by [KeyboardInterrupt] leaves the wrapper with that
    raisable, and the transaction that the wrapper created has been neither
    committed nor aborted; it is still open. *)
Lemma C1_raisable_outside_Exception :
  let operation : pyval → unit → gmap string pyval → M unit :=
    fun _ _ _ => raise KeyboardInterrupt in
  let run := inTransactionWrapper Scenario.diruid "operation" operation tt ∅
               Scenario.fresh_world in
  run.1 = Err KeyboardInterrupt
  ∧ w_trace run.2
    = [EvNewTransaction 0 "Cross-pod Migration Sync for user42: operation"]
  ∧ releases 0 (w_trace run.2) = 0
  ∧ w_open run.2 !! 0 = Some empty_DB.
Proof. vm_compute. done. Qed.

(** C9.  A [txn] keyword that is present with the value [None] counts as a
    transaction supplied by the caller: the wrapper opens no transaction and
    commits, aborts and logs nothing; the operation is called with [None] as
    its transaction and without the keyword, and its result or error is the
    wrapped method's, unchanged. *)
Theorem C9_txn_keyword_None {Args A : Type} (diruid name : string)
    (operation : pyval → Args → gmap string pyval → M A)
    (args : Args) (kwargs : gmap string pyval) (w : World) :
  inTransactionWrapper diruid name operation args (<["txn" := PyNone]> kwargs) w
    = operation PyNone args (delete "txn" kwargs) w
  ∧ _inTxn diruid name operation args (<["txn" := PyNone]> kwargs) w
    = match operation PyNone args (delete "txn" kwargs) w with
      | (Ok a, w') => (Ok (Value a), w')
      | (Err e, w') => (Err e, w')
      end.
Proof.
  assert (Hk : <["txn" := PyNone]> kwargs !! "txn" = Some PyNone) by apply lookup_insert_eq.
  pose proof (_inTxn_supplied diruid name operation args _ PyNone w Hk) as Hs.
  rewrite delete_insert_eq in Hs.
  split; [|exact Hs].
  unfold inTransactionWrapper, fire. rewrite Hs.
  by destruct (operation PyNone args (delete "txn" kwargs) w) as [[a|e] w'].
Qed.

(** ** Loading the directory record *)

(** C8.  [loadRecord] stores what the directory service answers in
    [self.record]; it raises [DirectoryRecordNotFoundError] when the answer is
    [None], raises the invalid-target error ([ValueError]) when the record
    says [thisServer()], and returns normally otherwise.  When it raises,
    [sync] ends with that error right after it was entered: the store is
    untouched, no transaction was opened, and nothing but the entry into
    [sync] is on the trace. *)
Theorem C8_loadRecord (diruid : string) (w : World) :
  loadRecord diruid w =
    match w_directory w !! diruid with
    | None =>
        (Err (DirectoryRecordNotFoundError
                ("Cross-pod Migration Sync missing directory record for " +:+ diruid)),
         set_record (Some None) w)
    | Some r =>
        if rec_thisServer r
        then (Err (ValueError
                     ("Cross-pod Migration Sync cannot sync with user already on this server: "
                      +:+ diruid)),
              set_record (Some (Some r)) w)
        else (Ok tt, set_record (Some (Some r)) w)
    end
  ∧ match loadRecord diruid (record_event (EvEnter "sync") w) with
    | (Err e, w1) =>
        sync diruid w = (Err e, w1)
        ∧ w_db w1 = w_db w
        ∧ w_next_txn w1 = w_next_txn w
        ∧ w_trace w1 = w_trace w ++ [EvEnter "sync"]
    | (Ok _, w1) => w_record w1 = Some (w_directory w !! diruid)
    end.
Proof.
  split.
  - unfold loadRecord, recordWithUID, gets, modify. rewrite !run_bind.
    destruct (w_directory w !! diruid) as [r|]; [|done].
    by destruct (rec_thisServer r).
  - unfold sync, call, emit, modify. rewrite (run_bind (fun w => (Ok (), record_event _ w))).
    cbn beta iota. rewrite !run_bind.
    unfold loadRecord, recordWithUID, gets, modify. rewrite !run_bind. cbn.
    destruct (w_directory w !! diruid) as [r|]; [|done].
    by destruct (rec_thisServer r).
Qed.

(** ** Counting events along a run *)

Section Bounded.
Context (p : Event → bool).

Lemma bounded_weaken {A} (c : M A) n m : bounded p n c → n ≤ m → bounded p m c.
Proof.
  intros Hc Hle w r w' Hrun. destruct (Hc w r w' Hrun) as (evs & Htr & Hn).
  exists evs. split; [done | lia].
Qed.

Lemma bounded_ret {A} (a : A) : bounded p 0 (ret a).
Proof. intros w r w' [= <- <-]. exists []. by rewrite app_nil_r. Qed.

Lemma bounded_raise {A} e : bounded p 0 (raise (A:=A) e).
Proof. intros w r w' [= <- <-]. exists []. by rewrite app_nil_r. Qed.

Lemma bounded_gets {A} (f : World → A) : bounded p 0 (gets f).
Proof. intros w r w' [= <- <-]. exists []. by rewrite app_nil_r. Qed.

Lemma bounded_modify (f : World → World) :
  (∀ w, w_trace (f w) = w_trace w) → bounded p 0 (modify f).
Proof. intros Hf w r w' [= <- <-]. exists []. by rewrite Hf, app_nil_r. Qed.

Lemma bounded_step {A} (a : World → A) (f : World → World) :
  (∀ w, w_trace (f w) = w_trace w) → bounded p 0 (fun w => (Ok (a w), f w)).
Proof. intros Hf w r w' [= <- <-]. exists []. by rewrite Hf, app_nil_r. Qed.

Lemma bounded_emit0 ev : p ev = false → bounded p 0 (emit ev).
Proof.
  intros Hp w r w' [= <- <-]. exists [ev]. split; [done|].
  unfold count_events. cbn. by rewrite decide_False by (rewrite Hp; done).
Qed.

Lemma bounded_emit1 ev : bounded p 1 (emit ev).
Proof.
  intros w r w' [= <- <-]. exists [ev]. split; [done|].
  unfold count_events. cbn. destruct (decide _); cbn; lia.
Qed.

Lemma bounded_bind {A B} (c : M A) (k : A → M B) n1 n2 :
  bounded p n1 c → (∀ a, bounded p n2 (k a)) → bounded p (n1 + n2) (bind c k).
Proof.
  intros Hc Hk w r w'. rewrite run_bind.
  destruct (c w) as [[a|e] w1] eqn:Hcw.
  - intros Hkw. destruct (Hc _ _ _ Hcw) as (evs1 & Htr1 & Hn1).
    destruct (Hk a _ _ _ Hkw) as (evs2 & Htr2 & Hn2).
    exists (evs1 ++ evs2). rewrite Htr2, Htr1, app_assoc, count_events_app.
    split; [done | lia].
  - intros [= <- <-]. destruct (Hc _ _ _ Hcw) as (evs1 & Htr1 & Hn1).
    exists evs1. split; [done | lia].
Qed.

Lemma bounded_bind_l {A B} (c : M A) (k : A → M B) n :
  bounded p n c → (∀ a, bounded p 0 (k a)) → bounded p n (bind c k).
Proof. intros Hc Hk. eapply bounded_weaken; [by apply bounded_bind | lia]. Qed.

Lemma bounded_bind_r {A B} (c : M A) (k : A → M B) n :
  bounded p 0 c → (∀ a, bounded p n (k a)) → bounded p n (bind c k).
Proof. intros Hc Hk. eapply bounded_weaken; [by apply bounded_bind | lia]. Qed.

(** The value read by [gets] is a function of the world it is read in. *)
Lemma bounded_bind_gets {A B} (f : World → A) (k : A → M B) n :
  (∀ w, bounded p n (k (f w))) → bounded p n (bind (gets f) k).
Proof. intros Hk w r w'. rewrite run_bind. cbn. apply Hk. Qed.

Lemma bounded_for_each {A S} (l : list A) (body : A → S → M S) (s : S) n :
  (∀ x s, x ∈ l → bounded p n (body x s)) →
  bounded p (length l * n) (for_each l body s).
Proof.
  revert s. induction l as [|x l IH]; intros s Hbody; cbn [for_each length].
  - apply bounded_ret.
  - cbn. apply bounded_bind.
    + apply Hbody. by left.
    + intros s'. apply IH. intros y s'' Hy. apply Hbody. by right.
Qed.

Lemma bounded_for_each0 {A S} (l : list A) (body : A → S → M S) (s : S) :
  (∀ x s, bounded p 0 (body x s)) → bounded p 0 (for_each l body s).
Proof.
  intros Hbody. eapply bounded_weaken; [apply bounded_for_each; eauto | lia].
Qed.

Lemma bounded_for_each_ {A} (l : list A) (body : A → M unit) n :
  (∀ x, x ∈ l → bounded p n (body x)) → bounded p (length l * n) (for_each_ l body).
Proof. intros Hbody. unfold for_each_. apply bounded_for_each. eauto. Qed.

Lemma bounded_for_each0_ {A} (l : list A) (body : A → M unit) :
  (∀ x, bounded p 0 (body x)) → bounded p 0 (for_each_ l body).
Proof. intros Hbody. unfold for_each_. apply bounded_for_each0. eauto. Qed.

Lemma bounded_batch_loop0 {A} size fuel (l : list A) (body : list A → M unit) :
  (∀ win, bounded p 0 (body win)) → bounded p 0 (batch_loop size fuel l body).
Proof.
  intros Hbody. revert l. induction fuel as [|fuel IH]; intros [|x l]; cbn [batch_loop];
    try apply bounded_ret; try apply bounded_raise.
  apply bounded_bind_l; [apply Hbody | intros _; apply IH].
Qed.

Lemma bounded_txn_commit t : p (EvCommit t) = false → bounded p 0 (txn_commit t).
Proof.
  intros Hp w r w' [= <- <-]. exists [EvCommit t]. split; [done|].
  unfold count_events. cbn. by rewrite decide_False by (rewrite Hp; done).
Qed.

Lemma bounded_txn_abort t : p (EvAbort t) = false → bounded p 0 (txn_abort t).
Proof.
  intros Hp w r w' [= <- <-]. exists [EvAbort t]. split.
  - cbn. by destruct (w_open w !! t).
  - unfold count_events. cbn. by rewrite decide_False by (rewrite Hp; done).
Qed.

Lemma bounded_newTransaction l : (∀ t, p (EvNewTransaction t l) = false) →
  bounded p 0 (newTransaction l).
Proof.
  intros Hp w r w' [= <- <-]. exists [EvNewTransaction (w_next_txn w) l]. split; [done|].
  unfold count_events. cbn. by rewrite decide_False by (rewrite Hp; done).
Qed.

Lemma bounded_fire {A} (c : M (returned A)) n : bounded p n c → bounded p n (fire c).
Proof.
  intros Hc w r w'. unfold fire. destruct (c w) as [[[a|f]|e] w1] eqn:Hcw;
    intros [= <- <-]; eapply Hc; eauto.
Qed.

Lemma bounded_inTransactionWrapper {Args A} diruid name
    (operation : pyval → Args → gmap string pyval → M A) args kwargs n :
  wrapper_free p →
  (∀ txn kw, bounded p n (operation txn args kw)) →
  bounded p n (inTransactionWrapper diruid name operation args kwargs).
Proof.
  intros (Hnew & Hcommit & Habort & Hlog) Hop.
  unfold inTransactionWrapper. apply bounded_fire. unfold _inTxn.
  destruct (kwargs !! "txn") as [txn|].
  - apply bounded_bind_l; [apply Hop | intros; apply bounded_ret].
  - apply bounded_bind_r; [by apply bounded_newTransaction|]. intros t.
    intros w r w'. unfold try_except_else.
    destruct (operation (PyTxn t) args kwargs w) as [[a|e] w1] eqn:Hrun.
    + intros Hrest. destruct (Hop _ _ _ _ _ Hrun) as (evs1 & Htr1 & Hn1).
      assert (Hb : bounded p 0 (bind (txn_commit t) (fun _ => ret (Value a)))).
      { apply bounded_bind_l; [by apply bounded_txn_commit | intros; apply bounded_ret]. }
      destruct (Hb _ _ _ Hrest) as (evs2 & Htr2 & Hn2).
      exists (evs1 ++ evs2). rewrite Htr2, Htr1, app_assoc, count_events_app.
      split; [done | lia].
    + intros Hrest. destruct (Hop _ _ _ _ _ Hrun) as (evs1 & Htr1 & Hn1).
      destruct (is_Exception e).
      * assert (Hb : bounded p 0
                  (bind (txn_abort t) (fun _ =>
                     bind (log_error (label diruid name +:+ " failed: " +:+ str_exn e))
                          (fun _ => ret (FailureValue (A:=A) (mkFailure e)))))).
        { apply bounded_bind_l; [by apply bounded_txn_abort | intros].
          apply bounded_bind_l; [by apply bounded_emit0 | intros; apply bounded_ret]. }
        destruct (Hb _ _ _ Hrest) as (evs2 & Htr2 & Hn2).
        exists (evs1 ++ evs2). rewrite Htr2, Htr1, app_assoc, count_events_app.
        split; [done | lia].
      * injection Hrest as _ <-. by exists evs1.
Qed.

Lemma bounded_in_txn {Args A} diruid name (operation : pyval → Args → M A) args n :
  wrapper_free p →
  (∀ txn, bounded p n (operation txn args)) →
  bounded p n (in_txn diruid name operation args).
Proof. intros Hp Hop. unfold in_txn. apply bounded_inTransactionWrapper; auto. Qed.

End Bounded.

Ltac head_of c :=
  lazymatch c with
  | ?f _ => head_of f
  | _ => c
  end.

Ltac wrapper_free_tac := repeat split; intros; reflexivity.

(** Proves [bounded p 0 c] for a concrete kind [p] by walking through [c]. *)
Ltac bounded0 :=
  lazymatch goal with
  | |- bounded _ _ (bind _ _) => apply bounded_bind_l; [bounded0 | intros ?; bounded0]
  | |- bounded _ _ (ret _) => apply bounded_ret
  | |- bounded _ _ (raise _) => apply bounded_raise
  | |- bounded _ _ (gets _) => apply bounded_gets
  | |- bounded _ _ (modify _) => apply bounded_modify; reflexivity
  | |- bounded _ _ (emit _) => apply bounded_emit0; reflexivity
  | |- bounded _ _ (for_each _ _ _) => apply bounded_for_each0; intros ? ?; bounded0
  | |- bounded _ _ (for_each_ _ _) => apply bounded_for_each0_; intros ?; bounded0
  | |- bounded _ _ (batch_loop _ _ _ _) => apply bounded_batch_loop0; intros ?; bounded0
  | |- bounded _ _ (in_txn _ _ _ _) =>
      apply bounded_in_txn; [wrapper_free_tac | intros ?; bounded0]
  | |- bounded _ _ (fun _ => _) => apply bounded_step; reflexivity
  | |- bounded _ _ (match ?x with _ => _ end) => destruct x; bounded0
  | |- bounded _ _ ?c => let h := head_of c in unfold h; bounded0
  end.

(** *** Methods that stay below the orchestration level *)

Lemma syncCalendarList_no_marker diruid : bounded is_marker 0 (syncCalendarList diruid).
Proof. bounded0. Qed.

Lemma syncAttachments_no_marker diruid : bounded is_marker 0 (syncAttachments diruid).
Proof. bounded0. Qed.

(** ** Phases *)

Lemma markers_app tr1 tr2 : markers (tr1 ++ tr2) = markers tr1 ++ markers tr2.
Proof. apply filter_app. Qed.

Lemma markers_nil_of_count evs : count_events is_marker evs ≤ 0 → markers evs = [].
Proof.
  unfold count_events, markers. intros H. apply length_zero_iff_nil. lia.
Qed.

Lemma phases_of_bounded {A} (c : M A) : bounded is_marker 0 c → phases [] c.
Proof.
  intros Hc w r w' Hrun. destruct (Hc _ _ _ Hrun) as (evs & Htr & Hn).
  exists evs. split; [done|]. rewrite (markers_nil_of_count _ Hn). done.
Qed.

Lemma phases_bind {A B} (c : M A) (k : A → M B) f1 f2 :
  phases f1 c → (∀ a, phases f2 (k a)) → phases (f1 ++ f2) (bind c k).
Proof.
  intros Hc Hk w r w'. rewrite run_bind. destruct (c w) as [[a|e] w1] eqn:Hcw.
  - intros Hkw. destruct (Hc _ _ _ Hcw) as (evs1 & Htr1 & _ & Hfull1).
    destruct (Hk a _ _ _ Hkw) as (evs2 & Htr2 & Hpre2 & Hfull2).
    exists (evs1 ++ evs2). rewrite Htr2, Htr1, app_assoc, markers_app, (Hfull1 eq_refl).
    split; [done|]. split; [by apply prefix_app|].
    intros Hok. by rewrite Hfull2.
  - intros [= <- <-]. destruct (Hc _ _ _ Hcw) as (evs1 & Htr1 & Hpre1 & _).
    exists evs1. split; [done|]. split; [by apply prefix_app_r | done].
Qed.

Lemma phases_ret {A} (a : A) : phases [] (ret a).
Proof. apply phases_of_bounded, bounded_ret. Qed.

Lemma phases_emit_marker ev : is_marker ev = true → phases [ev] (emit ev).
Proof.
  intros Hev w r w' [= <- <-]. exists [ev]. split; [done|].
  unfold markers. cbn. by rewrite decide_True.
Qed.

Lemma phases_call {A} method (body : M A) inner :
  phases inner body → phases (phase method inner) (call method body).
Proof.
  intros Hbody. unfold call, phase.
  apply phases_bind; [by apply phases_emit_marker | intros _].
  apply phases_bind; [done | intros a].
  replace [EvLeave method] with ([EvLeave method] ++ []) by apply app_nil_r.
  apply phases_bind; [by apply phases_emit_marker | intros _; apply phases_ret].
Qed.

Lemma phases_seq {A B} (c : M A) (k : M B) f1 f2 :
  phases f1 c → phases f2 k → phases (f1 ++ f2) (bind c (fun _ => k)).
Proof. intros Hc Hk. apply phases_bind; auto. Qed.

Lemma sync_phases diruid : phases (phase "sync" []) (sync diruid).
Proof. unfold sync. apply phases_call, phases_of_bounded. bounded0. Qed.

Lemma linkAttachments_phases diruid :
  phases (phase "linkAttachments" []) (linkAttachments diruid).
Proof. unfold linkAttachments. apply phases_call, phases_of_bounded. bounded0. Qed.

Lemma delegateReconcile_phases diruid :
  phases (phase "delegateReconcile" []) (delegateReconcile diruid).
Proof. unfold delegateReconcile. apply phases_call, phases_of_bounded. bounded0. Qed.

Lemma finalSync_phases diruid :
  phases (phase "finalSync" (phase "linkAttachments" [] ++ phase "delegateReconcile" []))
         (finalSync diruid).
Proof.
  unfold finalSync. apply phases_call, phases_seq.
  - apply linkAttachments_phases.
  - apply delegateReconcile_phases.
Qed.

Lemma sync_then {A} diruid (k : M A) w :
  bind (sync diruid) (fun _ => k) w
  = match sync diruid w with
    | (Ok _, w1) => k w1
    | (Err e, w1) => (Err e, w1)
    end.
Proof. apply run_bind. Qed.

Lemma migrateHere_run diruid w :
  migrateHere diruid w
  = match sync diruid w with
    | (Err e, w1) => (Err e, w1)
    | (Ok _, w1) =>
        match sync diruid w1 with
        | (Err e, w2) => (Err e, w2)
        | (Ok _, w2) =>
            (Err (placeholder_error "disableRemoteHome"),
             record_event (EvEnter "disableRemoteHome") w2)
        end
    end.
Proof.
  unfold migrateHere. rewrite sync_then.
  destruct (sync diruid w) as [[[]|e] w1]; [|done]. rewrite sync_then.
  by destruct (sync diruid w1) as [[[]|e] w2].
Qed.

Lemma finalSync_run diruid w :
  finalSync diruid w
  = match linkAttachments diruid (record_event (EvEnter "finalSync") w) with
    | (Err e, w1) => (Err e, w1)
    | (Ok _, w1) =>
        match delegateReconcile diruid w1 with
        | (Err e, w2) => (Err e, w2)
        | (Ok _, w2) => (Ok tt, record_event (EvLeave "finalSync") w2)
        end
    end.
Proof.
  unfold finalSync, call. rewrite run_bind. unfold emit at 1, modify at 1. cbv beta iota.
  rewrite run_bind, run_bind.
  destruct (linkAttachments diruid _) as [[n|e] w1]; [|done].
  by destruct (delegateReconcile diruid w1) as [[[]|e] w2].
Qed.

Lemma migrateHere_markers diruid w :
  ∃ evs, w_trace (migrateHere diruid w).2 = w_trace w ++ evs
    ∧ markers evs `prefix_of` migrateHere_reached
    ∧ is_ok (migrateHere diruid w).1 = false.
Proof.
  rewrite migrateHere_run. unfold migrateHere_reached.
  destruct (sync diruid w) as [[[]|e] w1] eqn:Hrun1;
    destruct (sync_phases diruid _ _ _ Hrun1) as (evs1 & Htr1 & Hpre1 & Hall1).
  2:{ exists evs1. split; [done|]. split; [by apply prefix_app_r | done]. }
  specialize (Hall1 eq_refl).
  destruct (sync diruid w1) as [[[]|e] w2] eqn:Hrun2;
    destruct (sync_phases diruid _ _ _ Hrun2) as (evs2 & Htr2 & Hpre2 & Hall2).
  - specialize (Hall2 eq_refl).
    exists (evs1 ++ evs2 ++ [EvEnter "disableRemoteHome"]). cbn [fst snd].
    rewrite trace_record_event, Htr2, Htr1, <- !app_assoc. split; [done|].
    rewrite !markers_app, Hall1, Hall2. done.
  - exists (evs1 ++ evs2). cbn [fst snd]. rewrite Htr2, Htr1, <- !app_assoc. split; [done|].
    rewrite markers_app, Hall1. split; [|done]. by apply prefix_app, prefix_app_r.
Qed.

(** C6 (what the code does).  [migrateHere] runs the bulk sync, then, when
    that has returned, the warm re-sync, then, when that has returned, calls
    [disableRemoteHome].  That call raises: the method is decorated with
    [@inlineCallbacks] and its body, a docstring and [pass], has no [yield].
    So every run of [migrateHere] ends with an error: with the error of one of
    the two syncs, or with the [TypeError] of [disableRemoteHome].  The final
    delta sync, the final reconcile, the enabling of the local home and the
    purge of the remote home are never started.  What does run is in the
    order of [migrateHere_phases], a method being entered only after the one
    before it has returned.  [finalSync], called on its own, runs
    [linkAttachments] and, when that has returned, [delegateReconcile]. *)
Theorem C6_migrateHere_stops_at_disableRemoteHome (diruid : string) (w : World) :
  migrateHere diruid w
  = match sync diruid w with
    | (Err e, w1) => (Err e, w1)
    | (Ok _, w1) =>
        match sync diruid w1 with
        | (Err e, w2) => (Err e, w2)
        | (Ok _, w2) =>
            (Err (TypeError ("inlineCallbacks requires disableRemoteHome"
                             +:+ " to produce a generator; instead got None")),
             record_event (EvEnter "disableRemoteHome") w2)
        end
    end
  ∧ (∃ evs, w_trace (migrateHere diruid w).2 = w_trace w ++ evs
       ∧ markers evs `prefix_of` migrateHere_reached
       ∧ is_ok (migrateHere diruid w).1 = false)
  ∧ migrateHere_reached
    = [ EvEnter "sync"; EvLeave "sync";
        EvEnter "sync"; EvLeave "sync";
        EvEnter "disableRemoteHome" ]
  ∧ migrateHere_reached `prefix_of` migrateHere_phases
  ∧ finalSync diruid w
    = match linkAttachments diruid (record_event (EvEnter "finalSync") w) with
      | (Err e, w1) => (Err e, w1)
      | (Ok _, w1) =>
          match delegateReconcile diruid w1 with
          | (Err e, w2) => (Err e, w2)
          | (Ok _, w2) => (Ok tt, record_event (EvLeave "finalSync") w2)
          end
      end
  ∧ phases (phase "finalSync" (phase "linkAttachments" [] ++ phase "delegateReconcile" []))
      (finalSync diruid)
  ∧ (migrateHere Scenario.diruid Scenario.fresh_world).1
    = Err (placeholder_error "disableRemoteHome")
  ∧ markers (w_trace (migrateHere Scenario.diruid Scenario.fresh_world).2)
    = migrateHere_reached.
Proof.
  split; [apply migrateHere_run|]. split; [apply migrateHere_markers|].
  split; [reflexivity|]. split; [by eexists|]. split; [apply finalSync_run|].
  split; [apply finalSync_phases|]. split; vm_compute; reflexivity.
Qed.

(** ** Relations kept along a run *)

Global Instance same_preorder {X} (f : World → X) : PreOrder (same f).
Proof. split; [by intros w | intros w1 w2 w3 H1 H2; unfold same in *; congruence]. Qed.

Section Respects.
Context (b : bool) (R : relation World) `{!PreOrder R}.

Lemma respects_ret {A} (a : A) : respects b R (ret a).
Proof. intros w r w' [= <- <-] _. reflexivity. Qed.

Lemma respects_raise {A} e : respects b R (raise (A:=A) e).
Proof. intros w r w' [= <- <-] _. reflexivity. Qed.

Lemma respects_step {A} (a : World → A) (f : World → World) :
  (∀ w, R w (f w)) → respects b R (fun w => (Ok (a w), f w)).
Proof. intros Hf w r w' [= <- <-] _. apply Hf. Qed.

Lemma respects_bind {A B} (c : M A) (k : A → M B) :
  respects b R c → (∀ a, respects b R (k a)) → respects b R (bind c k).
Proof.
  intros Hc Hk w r w'. rewrite run_bind. destruct (c w) as [[a|e] w1] eqn:Hcw.
  - intros Hkw Hok. transitivity w1.
    + by eapply Hc.
    + by eapply Hk.
  - intros [= <- <-] Hok. by eapply Hc.
Qed.

Lemma respects_bind_gets {A B} (f : World → A) (k : A → M B) :
  (∀ w, respects b R (k (f w))) → respects b R (bind (gets f) k).
Proof. intros Hk w r w'. rewrite run_bind. cbn. apply Hk. Qed.

Lemma respects_for_each {A S} (l : list A) (body : A → S → M S) (s : S) :
  (∀ x s, respects b R (body x s)) → respects b R (for_each l body s).
Proof.
  intros Hbody. revert s. induction l as [|x l IH]; intros s; cbn [for_each].
  - apply respects_ret.
  - apply respects_bind; auto.
Qed.

Lemma respects_for_each_ {A} (l : list A) (body : A → M unit) :
  (∀ x, respects b R (body x)) → respects b R (for_each_ l body).
Proof. intros Hbody. unfold for_each_. apply respects_for_each. auto. Qed.

Lemma respects_batch_loop {A} size fuel (l : list A) (body : list A → M unit) :
  (∀ win, respects b R (body win)) → respects b R (batch_loop size fuel l body).
Proof.
  intros Hbody. revert l. induction fuel as [|fuel IH]; intros [|x l]; cbn [batch_loop];
    try apply respects_ret; try apply respects_raise.
  apply respects_bind; [apply Hbody | intros _; apply IH].
Qed.

Lemma respects_fire {A} (c : M (returned A)) :
  respects false R c → respects false R (fire c).
Proof.
  intros Hc w r w'. unfold fire. destruct (c w) as [[[a|f]|e] w1] eqn:Hcw;
    intros [= <- <-] _; eapply Hc; eauto; done.
Qed.

(** The wrapper keeps what its parts keep: opening the transaction, the
    operation, and the commit; when runs that end with an error count as
    well, also the abort and the log entry. *)
Lemma respects_in_txn {Args A} diruid name (operation : pyval → Args → M A) args :
  (∀ l w, R w (newTransaction l w).2) →
  (∀ t w, R w (txn_commit t w).2) →
  (b = false → ∀ t w, R w (txn_abort t w).2) →
  (b = false → ∀ m w, R w (record_event (EvLogError m) w)) →
  (∀ txn, respects b R (operation txn args)) →
  respects b R (in_txn diruid name operation args).
Proof.
  intros Hnew Hcommit Habort Hlog Hop w r w' Hrun Hok.
  unfold in_txn, inTransactionWrapper, fire in Hrun.
  rewrite _inTxn_created in Hrun by apply lookup_empty. cbn zeta in Hrun.
  set (w1 := record_event _ _) in Hrun.
  assert (Hw1 : R w w1) by apply (Hnew (label diruid name) w).
  destruct (operation (PyTxn (w_next_txn w)) args w1) as [[a|e] w2] eqn:Hrun_op.
  - injection Hrun as <- <-. transitivity w1; [done|]. transitivity w2.
    + by eapply Hop.
    + apply Hcommit.
  - destruct (is_Exception e); injection Hrun as <- <-; destruct b;
      try (by specialize (Hok eq_refl)).
    + transitivity w1; [done|]. transitivity w2.
      * eapply Hop; [done | done].
      * etransitivity; [apply (Habort eq_refl) | apply (Hlog eq_refl)].
    + transitivity w1; [done|]. eapply Hop; [done | done].
Qed.

End Respects.

Ltac respects_auto leaf :=
  lazymatch goal with
  | |- respects _ _ (bind _ _) =>
      apply respects_bind; [typeclasses eauto | respects_auto leaf | intros ?; respects_auto leaf]
  | |- respects _ _ (ret _) => apply respects_ret; typeclasses eauto
  | |- respects _ _ (raise _) => apply respects_raise; typeclasses eauto
  | |- respects _ _ (for_each _ _ _) =>
      apply respects_for_each; [typeclasses eauto | intros ? ?; respects_auto leaf]
  | |- respects _ _ (for_each_ _ _) =>
      apply respects_for_each_; [typeclasses eauto | intros ?; respects_auto leaf]
  | |- respects _ _ (batch_loop _ _ _ _) =>
      apply respects_batch_loop; [typeclasses eauto | intros ?; respects_auto leaf]
  | |- respects true _ (in_txn _ _ _ _) =>
      apply respects_in_txn;
        [typeclasses eauto | leaf | leaf | discriminate | discriminate
        | intros ?; respects_auto leaf]
  | |- respects _ _ (fun _ => _) => apply respects_step; leaf
  | |- respects _ _ (match ?x with _ => _ end) => destruct x; respects_auto leaf
  | |- respects _ _ ?c => let h := head_of c in unfold h; respects_auto leaf
  end.

Ltac same_leaf := intros; reflexivity.

(** The operations run inside a transaction open no transaction themselves. *)
Lemma purgeBatch_next_txn diruid txn args :
  respects false (same w_next_txn) (purgeBatch diruid txn args).
Proof. respects_auto same_leaf. Qed.

Lemma updateBatch_next_txn diruid txn args :
  respects false (same w_next_txn) (updateBatch diruid txn args).
Proof. respects_auto same_leaf. Qed.

(** ** Windows *)

Lemma windows_concat {A} size fuel (l : list A) :
  0 < size → length l ≤ fuel → concat (windows size fuel l) = l.
Proof.
  intros Hsize. revert l. induction fuel as [|fuel IH]; intros [|x l] Hlen; cbn in Hlen;
    try done; try lia.
  cbn [windows concat]. rewrite IH.
  - apply take_drop.
  - rewrite length_drop. cbn. lia.
Qed.

Lemma windows_sizes {A} size fuel (l : list A) :
  0 < size → Forall (fun win => 0 < length win ≤ size) (windows size fuel l).
Proof.
  intros Hsize. revert l. induction fuel as [|fuel IH]; intros [|x l]; cbn [windows];
    try by constructor.
  constructor; [|apply IH].
  rewrite length_take. cbn [length]. lia.
Qed.

(** Each name is in exactly one window: the windows, put end to end, are the
    list. *)
Lemma windows_partition {A} size (l : list A) :
  0 < size →
  concat (windows size (length l) l) = l
  ∧ Forall (fun win => 0 < length win ≤ size) (windows size (length l) l).
Proof. intros Hsize. split; [by apply windows_concat | by apply windows_sizes]. Qed.

(** The [while] loop runs its body on the windows, one after the other, and
    the fuel it is given is enough. *)
Lemma batch_loop_windows {A} size fuel (l : list A) (body : list A → M unit) w :
  0 < size → length l ≤ fuel →
  batch_loop size fuel l body w = for_each_ (windows size fuel l) body w.
Proof.
  intros Hsize. revert l w. induction fuel as [|fuel IH]; intros [|x l] w Hlen; cbn in Hlen;
    try done; try lia.
  cbn [batch_loop windows]. unfold for_each_. cbn [for_each]. rewrite !run_bind.
  destruct (body _ w) as [[[]|e] w1]; [|done].
  apply IH. rewrite length_drop. cbn. lia.
Qed.

(** ** Events per transaction *)

Section PerTxn.
Context (p : nat → Event → bool).

Lemma per_txn_ret {A} n (a : A) : per_txn p n (ret a).
Proof.
  intros w r w' [= <- <-]. exists []. rewrite app_nil_r.
  split; [done|]. split; [lia|]. split; [intros; cbn; lia | intros t Hnz; by cbn in Hnz].
Qed.

Lemma per_txn_raise {A} n e : per_txn p n (raise (A:=A) e).
Proof.
  intros w r w' [= <- <-]. exists []. rewrite app_nil_r.
  split; [done|]. split; [lia|]. split; [intros; cbn; lia | intros t Hnz; by cbn in Hnz].
Qed.

Lemma per_txn_bind {A B} n (c : M A) (k : A → M B) :
  per_txn p n c → (∀ a, per_txn p n (k a)) → per_txn p n (bind c k).
Proof.
  intros Hc Hk w r w'. rewrite run_bind. destruct (c w) as [[a|e] w1] eqn:Hcw.
  - intros Hkw. destruct (Hc _ _ _ Hcw) as (evs1 & Htr1 & Hle1 & Hn1 & Hown1).
    destruct (Hk a _ _ _ Hkw) as (evs2 & Htr2 & Hle2 & Hn2 & Hown2).
    exists (evs1 ++ evs2). rewrite Htr2, Htr1, app_assoc.
    split; [done|]. split; [lia|]. split.
    + intros t. rewrite count_events_app.
      destruct (decide (count_events (p t) evs1 = 0)) as [Hz|Hnz].
      * rewrite Hz. apply Hn2.
      * destruct (decide (count_events (p t) evs2 = 0)) as [Hz2|Hnz2].
        { rewrite Hz2, Nat.add_0_r. apply Hn1. }
        specialize (Hown1 t Hnz). specialize (Hown2 t Hnz2). lia.
    + intros t. rewrite count_events_app. intros Hnz.
      destruct (decide (count_events (p t) evs1 = 0)) as [Hz|Hnz1].
      * rewrite Hz in Hnz. specialize (Hown2 t Hnz). lia.
      * specialize (Hown1 t Hnz1). lia.
  - intros [= <- <-]. by eapply Hc.
Qed.

Lemma per_txn_for_each_ {A} n (l : list A) (body : A → M unit) :
  (∀ x, per_txn p n (body x)) → per_txn p n (for_each_ l body).
Proof.
  intros Hbody. unfold for_each_. generalize tt.
  induction l as [|x l IH]; intros u; cbn [for_each].
  - apply per_txn_ret.
  - apply per_txn_bind; [apply Hbody | apply IH].
Qed.

Lemma per_txn_batch_loop {A} n size fuel (l : list A) (body : list A → M unit) :
  (∀ win, length win ≤ size → per_txn p n (body win)) →
  per_txn p n (batch_loop size fuel l body).
Proof.
  intros Hbody. revert l. induction fuel as [|fuel IH]; intros [|x l]; cbn [batch_loop];
    try apply per_txn_ret; try apply per_txn_raise.
  apply per_txn_bind; [|intros _; apply IH].
  apply Hbody. rewrite length_take. lia.
Qed.

(** A wrapped operation that writes only in the transaction it is given, at
    most [n] times, and opens no transaction itself. *)
Lemma per_txn_in_txn {Args A} n diruid name (operation : pyval → Args → M A) args :
  (∀ t, wrapper_free (p t)) →
  (∀ t, bounded (p t) n (operation (PyTxn t) args)) →
  (∀ t t', t' ≠ t → bounded (p t') 0 (operation (PyTxn t) args)) →
  (∀ t, respects false (same w_next_txn) (operation (PyTxn t) args)) →
  per_txn p n (in_txn diruid name operation args).
Proof.
  intros Hfree Hn Hother Hnext w r w' Hrun.
  unfold in_txn, inTransactionWrapper, fire in Hrun.
  rewrite _inTxn_created in Hrun by apply lookup_empty. cbn zeta in Hrun.
  set (t0 := w_next_txn w) in *. set (w1 := record_event _ _) in Hrun.
  destruct (operation (PyTxn t0) args w1) as [r2 w2] eqn:Hop.
  destruct (Hn t0 _ _ _ Hop) as (evs & Htr & Hcount).
  assert (Hnext2 : w_next_txn w2 = S t0) by (by apply (Hnext t0 _ _ _ Hop)).
  assert (Hothers : ∀ t, t ≠ t0 → count_events (p t) evs = 0).
  { intros t Ht. destruct (Hother t0 t Ht _ _ _ Hop) as (evs' & Htr' & Hz).
    rewrite Htr in Htr'. apply app_inv_head in Htr'. subst evs'. lia. }
  assert (∃ suffix, w_trace w' = w_trace w2 ++ suffix
                    ∧ w_next_txn w' = S t0
                    ∧ ∀ t, count_events (p t) suffix = 0) as (suffix & Htr' & Hnext' & Hsuffix).
  { destruct r2 as [a|e]; [|destruct (is_Exception e)]; injection Hrun as <- <-.
    3:{ exists []. rewrite app_nil_r. done. }
    - exists [EvCommit t0]. split; [done|]. split; [done|].
      intros t. destruct (Hfree t) as (_ & Hc & _). unfold count_events. cbn.
      by rewrite decide_False by (rewrite Hc; done).
    - eexists [EvAbort t0; EvLogError _]. split.
      { cbn. destruct (w_open w2 !! t0); cbn; by rewrite <- app_assoc. }
      split.
      { cbn. destruct (w_open w2 !! t0); done. }
      intros t. destruct (Hfree t) as (_ & _ & Ha & Hl). unfold count_events. cbn.
      rewrite decide_False by (rewrite Ha; done).
      by rewrite decide_False by (rewrite Hl; done). }
  exists ([EvNewTransaction t0 (label diruid name)] ++ evs ++ suffix).
  rewrite Htr', Htr. subst w1. rewrite trace_record_event. cbn [w_trace set_open set_next_txn].
  split; [by rewrite <- !app_assoc|]. split; [lia|].
  assert (Hall : ∀ t, count_events (p t) ([EvNewTransaction t0 (label diruid name)] ++ evs ++ suffix)
                      = count_events (p t) evs).
  { intros t. rewrite !count_events_app, Hsuffix. destruct (Hfree t) as (Hnew & _).
    unfold count_events at 1. cbn. rewrite decide_False by (rewrite Hnew; done). cbn. lia. }
  split.
  - intros t. rewrite Hall. destruct (decide (t = t0)) as [->|Hne]; [done|].
    rewrite Hothers by done. lia.
  - intros t. rewrite Hall. intros Hnz. destruct (decide (t = t0)) as [->|Hne]; [lia|].
    by rewrite Hothers in Hnz.
Qed.

End PerTxn.

(** ** Running a method step by step *)

Ltac run_cbn_in H :=
  cbn [bind ret raise gets modify emit db_read db_write fst snd
       attr_of the_txn unpack getitem self_record is_Exception
       record_event set_db set_open set_next_txn set_next_id set_next_uuid set_record set_homeId
       begin_txn
       w_db w_open w_next_txn w_next_id w_next_uuid w_remote w_directory w_record w_homeId w_trace
       with_homes with_calendars with_attachments with_links with_calendar_migration
       with_object_migration with_attachment_migration with_delegates with_external_delegates
       with_group_delegates with_groups
       db_homes db_calendars db_attachments db_links db_calendar_migration db_object_migration
       db_attachment_migration db_delegates db_external_delegates db_group_delegates db_groups
       lh_txn lh_uid lh_id lc_txn lc_id lo_txn lo_calendar lo_name lo_row la_txn la_id la_row
       rh_txn rh_uid rh_id rch_txn rch_id rch_row ro_name ro_row ra_id ra_row
       fmap option_fmap option_map] in H.

Ltac run_cbn :=
  cbn [bind ret raise gets modify emit db_read db_write fst snd
       attr_of the_txn unpack getitem self_record is_Exception
       record_event set_db set_open set_next_txn set_next_id set_next_uuid set_record set_homeId
       begin_txn
       w_db w_open w_next_txn w_next_id w_next_uuid w_remote w_directory w_record w_homeId w_trace
       with_homes with_calendars with_attachments with_links with_calendar_migration
       with_object_migration with_attachment_migration with_delegates with_external_delegates
       with_group_delegates with_groups
       db_homes db_calendars db_attachments db_links db_calendar_migration db_object_migration
       db_attachment_migration db_delegates db_external_delegates db_group_delegates db_groups
       lh_txn lh_uid lh_id lc_txn lc_id lo_txn lo_calendar lo_name lo_row la_txn la_id la_row
       rh_txn rh_uid rh_id rch_txn rch_id rch_row ro_name ro_row ra_id ra_row
       fmap option_fmap option_map].

Ltac run_lazy :=
  lazy beta iota zeta delta
      [bind ret raise gets modify emit db_read db_write attr_of the_txn unpack getitem
       self_record];
  run_cbn.

(** [for x in l: body x s] keeps an invariant of the loop state and the world
    that each turn keeps; a turn that raises ends the loop in a world where
    [E] holds. *)
Lemma for_each_inv {A S} (I : S → World → Prop) (E : World → Prop)
    (l : list A) (body : A → S → M S) s w r w' :
  (∀ x s w r w', x ∈ l → I s w → body x s w = (r, w') →
     match r with Ok s' => I s' w' | Err _ => E w' end) →
  I s w →
  for_each l body s w = (r, w') →
  match r with Ok s' => I s' w' | Err _ => E w' end.
Proof.
  revert s w. induction l as [|x l IH]; intros s w Hbody HI; cbn [for_each].
  - by intros [= <- <-].
  - rewrite run_bind. destruct (body x s w) as [[s1|e] w1] eqn:Hx.
    + pose proof (Hbody x s w _ _ ltac:(by left) HI Hx) as HI1. cbn in HI1.
      apply IH; [|done]. intros y s2 w2 r2 w2' Hy. apply Hbody. by right.
    + intros [= <- <-]. exact (Hbody x s w _ _ ltac:(by left) HI Hx).
Qed.

Lemma length_omap_le {A B} (f : A → option B) (l : list A) : length (omap f l) ≤ length l.
Proof. induction l as [|x l IH]; cbn; [done|]. destruct (f x); cbn; lia. Qed.

Lemma length_remove_dups_le {A} `{EqDecision A} (l : list A) :
  length (remove_dups l) ≤ length l.
Proof. induction l as [|x l IH]; cbn; [done|]. destruct (decide_rel _ _ _); cbn; lia. Qed.

Lemma size_list_to_map_le {K A} `{Countable K} (l : list (K * A)) :
  size (list_to_map (M:=gmap K A) l) ≤ length l.
Proof.
  induction l as [|[k a] l IH]; cbn; [by rewrite map_size_empty|].
  destruct (list_to_map (M:=gmap K A) l !! k) eqn:Hk.
  - rewrite map_size_insert_Some by done. lia.
  - rewrite map_size_insert_None by done. lia.
Qed.

Lemma size_py_dict_le {K A} `{Countable K} (l : list (K * A)) :
  size (py_dict l) ≤ length l.
Proof.
  unfold py_dict. etransitivity; [apply size_list_to_map_le|]. by rewrite length_reverse.
Qed.

(** What [objectResourcesWithNames] hands out for a window of names. *)
Lemma local_objects_with_names t lid (objects : gmap string CalObject) (names : list string) :
  let objs := omap (fun n => mkLocalObject t lid n <$> objects !! n) (remove_dups names) in
  length objs ≤ length names
  ∧ Forall (fun o => lo_txn o = t ∧ lo_calendar o = lid
                     ∧ objects !! lo_name o = Some (lo_row o) ∧ lo_name o ∈ names) objs
  ∧ NoDup (lo_name <$> objs).
Proof.
  cbn zeta. split; [|split].
  - etransitivity; [apply length_omap_le | apply length_remove_dups_le].
  - apply Forall_forall. intros o Ho. apply list_elem_of_omap in Ho as (n & Hn & Hf).
    rewrite elem_of_remove_dups in Hn.
    destruct (objects !! n) as [row|] eqn:Hrow; [|done]. injection Hf as <-. cbn. done.
  - pose proof (NoDup_remove_dups names) as Hnd. revert Hnd.
    generalize (remove_dups names). intros l. induction l as [|n l IH]; cbn; [constructor|].
    intros Hnd. apply NoDup_cons in Hnd as [Hn Hnd].
    destruct (objects !! n) as [row|]; cbn; [|by apply IH].
    constructor; [|by apply IH].
    intros Hin. apply list_elem_of_fmap in Hin as (o & Heq & Ho).
    apply list_elem_of_omap in Ho as (n' & Hn' & Hf).
    destruct (objects !! n'); [|done]. injection Hf as <-. cbn in Heq. by subst.
Qed.

(** Purging a list of object resources: one purge each, and no failure. *)
Lemma purge_all_run (objs : list LocalObject) w :
  ∃ w', for_each_ objs object_purge w = (Ok tt, w')
    ∧ w_trace w' = w_trace w
        ++ ((fun o => EvObjectPurge (lo_txn o) (lo_calendar o) (lo_name o)) <$> objs)
    ∧ w_next_txn w' = w_next_txn w
    ∧ w_open w' = w_open w
    ∧ w_next_id w' = w_next_id w
    ∧ (objs = [] → w' = w).
Proof.
  unfold for_each_. revert w. induction objs as [|o objs IH]; intros w; cbn [for_each].
  - exists w. cbn. rewrite app_nil_r. done.
  - rewrite run_bind. unfold object_purge at 1. run_cbn.
    match goal with |- context [for_each objs _ _ ?w1] => destruct (IH w1) as (w' & Hrun & Htr & Hn & Ho & Hi & _) end.
    exists w'. rewrite Hrun, Htr, Hn, Ho, Hi. cbn. rewrite <- app_assoc. done.
Qed.

(** [purgeBatch] in transaction [t]: it purges the object resources of the
    calendar that bear one of the names, each once, and nothing else. *)
Lemma purgeBatch_run diruid t localID names w r w' :
  purgeBatch diruid (PyTxn t) (localID, names) w = (r, w') →
  ∃ objs : list LocalObject,
    w_trace w' = w_trace w ++ ((fun o => EvObjectPurge t localID (lo_name o)) <$> objs)
    ∧ length objs ≤ length names
    ∧ w_next_txn w' = w_next_txn w
    ∧ w_open w' = w_open w
    ∧ (objs = [] → w' = w)
    ∧ (∀ home cal,
         db_homes (w_db w) !! migratingUid diruid = Some home →
         db_calendars (w_db w) !! localID = Some cal →
         c_home cal = h_id home →
         r = Ok tt
         ∧ objs = omap (fun n => mkLocalObject t localID n <$> c_objects cal !! n)
                       (remove_dups names)).
Proof.
  unfold purgeBatch, calendarHomeWithUID, home_childWithID, calendar_objectResourcesWithNames.
  run_cbn. intros Hrun.
  assert (Hstop : ∀ e, (r, w') = (Err e, w) →
            (∀ home cal, db_homes (w_db w) !! migratingUid diruid = Some home →
               db_calendars (w_db w) !! localID = Some cal → c_home cal ≠ h_id home) →
            ∃ objs : list LocalObject,
              w_trace w' = w_trace w ++ ((fun o => EvObjectPurge t localID (lo_name o)) <$> objs)
              ∧ length objs ≤ length names
              ∧ w_next_txn w' = w_next_txn w
              ∧ w_open w' = w_open w
              ∧ (objs = [] → w' = w)
              ∧ (∀ home cal,
                   db_homes (w_db w) !! migratingUid diruid = Some home →
                   db_calendars (w_db w) !! localID = Some cal →
                   c_home cal = h_id home →
                   r = Ok tt
                   ∧ objs = omap (fun n => mkLocalObject t localID n <$> c_objects cal !! n)
                                 (remove_dups names))).
  { intros e [= -> ->] Hno. exists []. cbn. rewrite app_nil_r.
    split; [done|]. split; [lia|]. split; [done|]. split; [done|]. split; [done|].
    intros home cal Hh Hc Hown. by destruct (Hno home cal Hh Hc). }
  destruct (db_homes (w_db w) !! migratingUid diruid) as [home|] eqn:Hhome; run_cbn_in Hrun.
  2:{ eapply Hstop; [by symmetry|]. intros ?? [=]. }
  destruct (db_calendars (w_db w) !! localID) as [cal|] eqn:Hcal; run_cbn_in Hrun.
  2:{ eapply Hstop; [by symmetry|]. intros ?? _ [=]. }
  destruct (decide (c_home cal = h_id home)) as [Hown|Hown]; run_cbn_in Hrun.
  2:{ eapply Hstop; [by symmetry|]. intros ?? [= <-] [= <-]. done. }
  clear Hstop. rewrite Hcal in Hrun.
  set (objs := omap _ _) in Hrun.
  destruct (local_objects_with_names t localID (c_objects cal) names) as (Hlen & Hall & _).
  cbn zeta in Hlen, Hall. fold objs in Hlen, Hall.
  destruct (purge_all_run objs w) as (w1 & Hrun1 & Htr & Hn & Ho & _ & Hnil).
  rewrite Hrun1 in Hrun. injection Hrun as <- <-.
  exists objs. split.
  { rewrite Htr. f_equal. apply Forall_fmap_ext. eapply Forall_impl; [exact Hall|].
    intros o (-> & -> & _). done. }
  split; [done|]. split; [done|]. split; [done|]. split; [done|].
  intros home' cal' [= <-] [= <-] _. done.
Qed.

Lemma count_events_le_any (p q : Event → bool) evs :
  (∀ ev, p ev = true → q ev = true) → count_events p evs ≤ count_events q evs.
Proof.
  intros Hpq. unfold count_events. induction evs as [|ev evs IH]; [done|].
  rewrite !filter_cons. repeat case_decide; cbn; try lia.
  exfalso. auto.
Qed.

Lemma count_events_zero (p : Event → bool) evs :
  Forall (fun ev => p ev = false) evs → count_events p evs = 0.
Proof.
  unfold count_events. induction 1 as [|ev evs Hev _ IH]; cbn; [done|].
  by rewrite decide_False by (rewrite Hev; done).
Qed.

Lemma count_events_cons (p : Event → bool) ev evs :
  count_events p (ev :: evs) = (if p ev then 1 else 0) + count_events p evs.
Proof.
  unfold count_events. rewrite filter_cons. destruct (p ev); case_decide; done.
Qed.

Lemma count_events_nil (p : Event → bool) : count_events p [] = 0.
Proof. done. Qed.

Ltac count_simpl := rewrite ?count_events_cons, ?count_events_nil; cbn.

Lemma count_events_le_length (p : Event → bool) evs : count_events p evs ≤ length evs.
Proof. unfold count_events. apply length_filter. Qed.

Lemma written_in_update t t' ev : written_in t ev → t' ≠ t → is_object_update t' ev = false.
Proof.
  destruct ev; cbn; try done; intros -> Hne; by apply bool_decide_eq_false_2.
Qed.

Lemma written_in_purge t t' ev : written_in t ev → t' ≠ t → is_object_purge t' ev = false.
Proof.
  destruct ev; cbn; try done; intros -> Hne; by apply bool_decide_eq_false_2.
Qed.

(** The same, with the part of the list already gone through in the
    invariant. *)
Lemma for_each_inv_prefix {A S} (I : list A → S → World → Prop) (E : World → Prop)
    (l : list A) (body : A → S → M S) s w r w' :
  (∀ pre x post s w r w', l = pre ++ x :: post → I pre s w → body x s w = (r, w') →
     match r with Ok s' => I (pre ++ [x]) s' w' | Err _ => E w' end) →
  I [] s w →
  for_each l body s w = (r, w') →
  match r with Ok s' => I l s' w' | Err _ => E w' end.
Proof.
  intros Hbody.
  assert (Hgen : ∀ post pre s w, l = pre ++ post → I pre s w →
            for_each post body s w = (r, w') →
            match r with Ok s' => I l s' w' | Err _ => E w' end).
  { induction post as [|x post IH]; intros pre s0 w0 Hl HI; cbn [for_each].
    - intros [= <- <-]. rewrite app_nil_r in Hl. by subst.
    - rewrite run_bind. destruct (body x s0 w0) as [[s1|e] w1] eqn:Hx.
      + pose proof (Hbody pre x post s0 w0 _ _ Hl HI Hx) as HI1. cbn in HI1.
        apply (IH (pre ++ [x])); [|done]. by rewrite <- app_assoc.
      + intros [= <- <-]. exact (Hbody pre x post s0 w0 _ _ Hl HI Hx). }
  intros HI. by apply (Hgen l []).
Qed.

(** [_remoteHome] asks the conduit once. *)
Lemma _remoteHome_run t w :
  _remoteHome (PyTxn t) w =
    match w_record w with
    | None =>
        (Err (AttributeError "'CrossPodHomeSync' object has no attribute 'record'"), w)
    | Some record =>
        (match r_resourceID (w_remote w) with
         | Some resourceID =>
             match record with
             | Some record => Ok (Some (mkRemoteHome t (rec_uid record) resourceID))
             | None => Err (AttributeError "'NoneType' object has no attribute 'uid'")
             end
         | None => Ok None
         end,
         record_event (EvConduit t "home_resource_id") w)
    end.
Proof.
  unfold _remoteHome, send_home_resource_id. run_lazy.
  destruct (w_record w) as [record|]; [|done]. run_cbn.
  destruct (r_resourceID (w_remote w)); [|done].
  by destruct record.
Qed.

Lemma batch_trace_refl t n w : batch_trace t n w w.
Proof.
  exists []. rewrite app_nil_r. split; [done|]. split; [done|]. split; [constructor|].
  cbn. lia.
Qed.

(** Extending a batch's trace by events that are no object writes. *)
Lemma batch_trace_quiet t n w w1 w' evs :
  batch_trace t n w w1 →
  w_trace w' = w_trace w1 ++ evs →
  w_next_txn w' = w_next_txn w1 →
  Forall (fun ev => is_update ev = false ∧ is_purge ev = false ∧ written_in t ev) evs →
  batch_trace t n w w'.
Proof.
  intros (evs1 & Htr1 & Hn1 & Hw1 & Hu1 & Hp1) Htr Hn Hq.
  exists (evs1 ++ evs). rewrite Htr, Htr1, app_assoc, Hn, Hn1, !count_events_app.
  split; [done|]. split; [done|]. split.
  - apply Forall_app. split; [done|]. eapply Forall_impl; [exact Hq|]. by intros ev (_ & _ & ?).
  - rewrite (count_events_zero is_update evs), (count_events_zero is_purge evs).
    + lia.
    + eapply Forall_impl; [exact Hq|]. by intros ev (_ & ? & _).
    + eapply Forall_impl; [exact Hq|]. by intros ev (? & _ & _).
Qed.

Lemma purgeBatch_batch_trace diruid t localID names w r w' :
  purgeBatch diruid (PyTxn t) (localID, names) w = (r, w') →
  batch_trace t (length names) w w'.
Proof.
  intros Hrun. destruct (purgeBatch_run _ _ _ _ _ _ _ Hrun) as (objs & Htr & Hlen & Hn & _).
  eexists. split; [exact Htr|]. split; [done|]. split; [|split].
  - apply Forall_fmap, Forall_forall. by intros o _.
  - rewrite count_events_zero; [lia|]. apply Forall_fmap, Forall_forall. by intros o _.
  - etransitivity; [apply count_events_le_length|]. by rewrite length_fmap.
Qed.

Ltac ext_trace :=
  cbn; rewrite <- ?app_assoc; first [ reflexivity | by (symmetry; apply app_nil_r) ].

Ltac batch_ext H :=
  eapply H;
    [ext_trace | done | cbn [app]; repeat constructor
    |cbn [app]; count_simpl; lia | cbn [app]; count_simpl; lia].

Ltac batch_quiet :=
  eapply batch_trace_quiet;
    [apply batch_trace_refl
    |cbn; rewrite <- ?app_assoc; reflexivity
    |reflexivity
    |cbn [app]; repeat constructor].

Lemma updateBatch_batch_trace diruid t localID remoteID names w r w' :
  updateBatch diruid (PyTxn t) (localID, remoteID, names) w = (r, w') →
  batch_trace t (length names) w w'.
Proof.
  unfold updateBatch. rewrite run_bind, _remoteHome_run.
  destruct (w_record w) as [record|]; run_cbn.
  2:{ intros [= <- <-]. apply batch_trace_refl. }
  destruct (r_resourceID (w_remote w)) as [resourceID|]; run_cbn.
  2:{ intros [= <- <-]. batch_quiet. }
  destruct record as [record|]; run_cbn.
  2:{ intros [= <- <-]. batch_quiet. }
  unfold remote_childWithID. run_cbn.
  destruct (r_calendars (w_remote w) !! remoteID) as [rc|]; run_cbn.
  2:{ intros [= <- <-]. batch_quiet. }
  unfold remote_objectResourcesWithNames, calendarHomeWithUID, home_childWithID. run_cbn.
  destruct (db_homes (w_db w) !! migratingUid diruid) as [home|]; run_cbn.
  2:{ intros [= <- <-]. batch_quiet. }
  destruct (db_calendars (w_db w) !! localID) as [cal|] eqn:Hcal; run_cbn.
  2:{ intros [= <- <-]. batch_quiet. }
  destruct (decide (c_home cal = h_id home)) as [Hown|Hown]; run_cbn.
  2:{ intros [= <- <-]. batch_quiet. }
  unfold calendar_objectResourcesWithNames. run_cbn. rewrite Hcal.
  set (w2 := record_event (EvMigrating t) _).
  assert (H2 : batch_trace t 0 w w2) by (subst w2; batch_quiet).
  set (remote_objects := py_dict _). set (local_objects := py_dict (_ <$> omap _ _)).
  match goal with |- context [for_each _ ?b _] => set (body := b) end.
  rewrite run_bind.
  destruct (for_each (map_to_list remote_objects) body local_objects w2) as [r1 w3] eqn:Hloop.
  pose (I := fun (pre : list (string * RemoteObject)) (s : gmap string LocalObject) (w3 : World) =>
    (∃ evs, w_trace w3 = w_trace w ++ evs ∧ w_next_txn w3 = w_next_txn w
       ∧ Forall (written_in t) evs ∧ count_events is_update evs ≤ length pre
       ∧ count_events is_purge evs = 0)
    ∧ map_Forall (fun _ o => lo_txn o = t) s ∧ size s ≤ length names).
  pose (E := fun (w3 : World) =>
    ∃ evs, w_trace w3 = w_trace w ++ evs ∧ w_next_txn w3 = w_next_txn w
       ∧ Forall (written_in t) evs
       ∧ count_events is_update evs ≤ length (map_to_list remote_objects)
       ∧ count_events is_purge evs = 0).
  assert (Hsize_remote : length (map_to_list remote_objects) ≤ length names).
  { rewrite length_map_to_list. subst remote_objects.
    etransitivity; [apply size_py_dict_le|]. rewrite length_fmap.
    etransitivity; [apply length_omap_le | apply length_remove_dups_le]. }
  apply (for_each_inv_prefix I E) in Hloop.
  - destruct r1 as [s'|e].
    + destruct Hloop as ((evs & Htr & Hn & Hw & Hu & Hp) & Htag & Hsize).
      destruct (purge_all_run (map_to_list s').*2 w3) as (w4 & Hrun4 & Htr4 & Hn4 & _).
      rewrite Hrun4. intros [= <- <-].
      eexists. rewrite Htr4, Htr, <- app_assoc. split; [done|]. split; [congruence|].
      rewrite !count_events_app. split; [|split].
      * apply Forall_app. split; [done|]. apply Forall_fmap, Forall_forall.
        intros o Ho. cbn. apply list_elem_of_fmap in Ho as ([k o'] & -> & Ho).
        apply elem_of_map_to_list in Ho. by apply (Htag k o').
      * rewrite (count_events_zero is_update (_ <$> _)); [lia|].
        apply Forall_fmap, Forall_forall. by intros o _.
      * rewrite Hp. cbn. etransitivity; [apply count_events_le_length|].
        rewrite !length_fmap, length_map_to_list. done.
    + intros [= <- <-]. destruct Hloop as (evs & Htr & Hn & Hw & Hu & Hp).
      exists evs. split; [done|]. split; [done|]. split; [done|]. split; lia.
  - (* one turn of the loop *)
    clear Hloop r w' r1 w3. intros pre [obj_name remote_object] post s w3 r w' Hl HI.
    destruct HI as ((evs & Htr & Hn & Hw & Hu & Hp) & Htag & Hsize).
    assert (Hpre : S (length pre) ≤ length (map_to_list remote_objects)).
    { rewrite Hl, length_app. cbn. lia. }
    assert (Hext : ∀ (w' : World) evs',
              w_trace w' = w_trace w3 ++ evs' → w_next_txn w' = w_next_txn w3 →
              Forall (written_in t) evs' → count_events is_update evs' ≤ 1 →
              count_events is_purge evs' = 0 →
              ∃ evs0, w_trace w' = w_trace w ++ evs0 ∧ w_next_txn w' = w_next_txn w
                ∧ Forall (written_in t) evs0 ∧ count_events is_update evs0 ≤ length (pre ++ [(obj_name, remote_object)])
                ∧ count_events is_purge evs0 = 0).
    { intros w4 evs' Htr' Hn' Hw' Hu' Hp'. exists (evs ++ evs').
      rewrite Htr', Htr, app_assoc, Hn', Hn, !count_events_app, length_app. cbn.
      split; [done|]. split; [done|]. split; [by apply Forall_app|]. lia. }
    assert (HE : ∀ w' : World, (∃ evs0, w_trace w' = w_trace w ++ evs0 ∧ w_next_txn w' = w_next_txn w
                ∧ Forall (written_in t) evs0 ∧ count_events is_update evs0 ≤ length (pre ++ [(obj_name, remote_object)])
                ∧ count_events is_purge evs0 = 0) → E w').
    { intros w4 (evs0 & ? & ? & ? & Hu0 & ?). exists evs0. rewrite length_app in Hu0. cbn in Hu0.
      repeat (split; [done|]). split; [lia | done]. }
    subst body. cbn beta. cbn [fst snd].
    destruct (s !! obj_name) as [local_object|] eqn:Hlocal.
    + unfold object_setComponentInternal, object_copyMetadata. run_cbn.
      intros [= <- <-]. split; [|split].
      * apply Hext with (evs' := [EvObjectSet (lo_txn local_object) (lo_calendar local_object) (lo_name local_object);
                                   EvObjectCopyMetadata (lo_txn local_object) (lo_calendar local_object) (lo_name local_object)]).
        -- cbn. by rewrite <- app_assoc.
        -- done.
        -- repeat constructor. cbn. by apply (Htag obj_name).
        -- count_simpl. lia.
        -- by count_simpl.
      * by apply map_Forall_delete.
      * rewrite map_size_delete, Hlocal. lia.
    + unfold calendar_createCalendarObjectWithNameInternal, fresh_id, self_homeId,
        CalendarObjectMigrationRecord_create, object_copyMetadata. run_lazy.
      destruct (db_calendars (w_db w3) !! localID) as [cal3|]; run_lazy.
      2:{ intros [= <- <-]. apply HE. batch_ext Hext. }
      destruct (c_objects cal3 !! obj_name); run_lazy.
      { intros [= <- <-]. apply HE. batch_ext Hext. }
      destruct (w_homeId w3) as [homeId|]; run_lazy.
      2:{ intros [= <- <-]. apply HE. batch_ext Hext. }
      destruct (_ !! (homeId, _)); run_lazy.
      { intros [= <- <-]. apply HE. batch_ext Hext. }
      intros [= <- <-]. split; [|done].
      batch_ext Hext.
  - (* before the loop *)
    destruct H2 as (evs & Htr & Hn & Hw & Hu & Hp). split; [|split].
    + exists evs. cbn [length]. repeat (split; [done|]). lia.
    + subst local_objects. intros k o Hko. unfold py_dict in Hko.
      apply elem_of_list_to_map_2 in Hko. rewrite elem_of_reverse in Hko.
      apply list_elem_of_fmap in Hko as (o' & [= -> ->] & Ho).
      destruct (local_objects_with_names t localID (c_objects cal) names) as (_ & Hall & _).
      cbn zeta in Hall. rewrite Forall_forall in Hall. by destruct (Hall _ Ho).
    + subst local_objects. etransitivity; [apply size_py_dict_le|]. rewrite length_fmap.
      etransitivity; [apply length_omap_le | apply length_remove_dups_le].
Qed.

Lemma batch_per_txn {Args A} diruid name (operation : pyval → Args → M A) args n :
  (∀ t w r w', operation (PyTxn t) args w = (r, w') → batch_trace t n w w') →
  per_txn is_object_update n (in_txn diruid name operation args)
  ∧ per_txn is_object_purge n (in_txn diruid name operation args).
Proof.
  intros Hop. split; apply per_txn_in_txn; try (intros; wrapper_free_tac).
  - intros t w r w' Hrun. destruct (Hop _ _ _ _ Hrun) as (evs & Htr & _ & _ & Hu & _).
    exists evs. split; [done|]. etransitivity; [|exact Hu].
    apply count_events_le_any. by intros [].
  - intros t t' Hne w r w' Hrun. destruct (Hop _ _ _ _ Hrun) as (evs & Htr & _ & Hw & _).
    exists evs. split; [done|]. rewrite count_events_zero; [done|].
    eapply Forall_impl; [exact Hw|]. intros ev Hev. by eapply written_in_update.
  - intros t w r w' Hrun _. by destruct (Hop _ _ _ _ Hrun) as (evs & _ & ? & _).
  - intros t w r w' Hrun. destruct (Hop _ _ _ _ Hrun) as (evs & Htr & _ & _ & _ & Hp).
    exists evs. split; [done|]. etransitivity; [|exact Hp].
    apply count_events_le_any. by intros [].
  - intros t t' Hne w r w' Hrun. destruct (Hop _ _ _ _ Hrun) as (evs & Htr & _ & Hw & _).
    exists evs. split; [done|]. rewrite count_events_zero; [done|].
    eapply Forall_impl; [exact Hw|]. intros ev Hev. by eapply written_in_purge.
  - intros t w r w' Hrun _. by destruct (Hop _ _ _ _ Hrun) as (evs & _ & ? & _).
Qed.


(** A wrapped batch opens the next transaction and writes object resources in
    that transaction only. *)
Lemma in_txn_batch {Args A} diruid name (operation : pyval → Args → M A) args n w r w' :
  (∀ t w r w', operation (PyTxn t) args w = (r, w') → batch_trace t n w w') →
  in_txn diruid name operation args w = (r, w') →
  ∃ evs, w_trace w' = w_trace w ++ EvNewTransaction (w_next_txn w) (label diruid name) :: evs
    ∧ w_next_txn w' = S (w_next_txn w)
    ∧ Forall (written_in (w_next_txn w)) evs.
Proof.
  intros Hop Hrun. unfold in_txn, inTransactionWrapper, fire in Hrun.
  rewrite _inTxn_created in Hrun by apply lookup_empty. cbn zeta in Hrun.
  set (t0 := w_next_txn w) in *. set (w1 := record_event _ _) in Hrun.
  destruct (operation (PyTxn t0) args w1) as [[a|e] w2] eqn:Hrun_op;
    destruct (Hop _ _ _ _ Hrun_op) as (evs & Htr & Hn & Hw & _);
    [|destruct (is_Exception e)]; injection Hrun as <- <-.
  3:{ exists evs. rewrite Htr. subst w1. cbn. by rewrite <- !app_assoc. }
  - exists (evs ++ [EvCommit t0]). cbn. rewrite Htr. subst w1. cbn.
    rewrite <- !app_assoc. split; [done|]. split; [by rewrite Hn|].
    apply Forall_app. split; [done | by repeat constructor].
  - eexists (evs ++ [EvAbort t0; EvLogError _]). split; [|split].
    + cbn. destruct (w_open w2 !! t0); cbn; rewrite Htr; subst w1; cbn;
        by rewrite <- !app_assoc.
    + cbn. destruct (w_open w2 !! t0); cbn; by rewrite Hn.
    + apply Forall_app. split; [done | by repeat constructor].
Qed.

(** ** Batches *)

(** C7.  The names to purge and the names to update are gone through in
    windows of at most [BATCH_SIZE] = 50 names: the windows put end to end
    are the list, so every name is in exactly one window.  Each window is
    handed to the wrapped [purgeBatch] (resp. [updateBatch]) without a
    transaction, so each runs in a transaction of its own, opened for it, and
    writes object resources in that transaction only.  Hence no transaction
    sees more than 50 object purges, or more than 50 object stores and
    creations. *)
Theorem C7_batch_windows (diruid : string) (migrationRecord : CalendarMigrationRecord)
    (names : list string) (w : World) :
  let wins := windows BATCH_SIZE (length names) names in
  let purge_window := fun win =>
    in_txn diruid "purgeBatch" (purgeBatch diruid) (localResourceID migrationRecord, win) in
  let update_window := fun win =>
    in_txn diruid "updateBatch" (updateBatch diruid)
      (localResourceID migrationRecord, remoteResourceID migrationRecord, win) in
  BATCH_SIZE = 50
  ∧ concat wins = names
  ∧ Forall (fun win => 0 < length win ≤ BATCH_SIZE) wins
  ∧ purgeDeletedObjectsInBatches diruid migrationRecord names w = for_each_ wins purge_window w
  ∧ updateChangedObjectsInBatches diruid migrationRecord names w = for_each_ wins update_window w
  ∧ (∀ win w0,
       ∃ evs, w_trace (purge_window win w0).2
                = w_trace w0 ++ EvNewTransaction (w_next_txn w0) (label diruid "purgeBatch") :: evs
         ∧ w_next_txn (purge_window win w0).2 = S (w_next_txn w0)
         ∧ Forall (written_in (w_next_txn w0)) evs)
  ∧ (∀ win w0,
       ∃ evs, w_trace (update_window win w0).2
                = w_trace w0 ++ EvNewTransaction (w_next_txn w0) (label diruid "updateBatch") :: evs
         ∧ w_next_txn (update_window win w0).2 = S (w_next_txn w0)
         ∧ Forall (written_in (w_next_txn w0)) evs)
  ∧ per_txn is_object_purge BATCH_SIZE (purgeDeletedObjectsInBatches diruid migrationRecord names)
  ∧ per_txn is_object_update BATCH_SIZE (updateChangedObjectsInBatches diruid migrationRecord names)
  ∧ per_txn is_object_purge BATCH_SIZE (updateChangedObjectsInBatches diruid migrationRecord names).
Proof.
  cbn zeta.
  assert (Hsize : 0 < BATCH_SIZE) by (unfold BATCH_SIZE; lia).
  destruct (windows_partition BATCH_SIZE names Hsize) as [Hconcat Hsizes].
  split; [done|]. split; [done|]. split; [done|].
  split; [by apply batch_loop_windows|]. split; [by apply batch_loop_windows|].
  split; [|split].
  - intros win w0.
    destruct (in_txn diruid "purgeBatch" (purgeBatch diruid) _ w0) as [r w'] eqn:Hrun.
    eapply in_txn_batch; [|exact Hrun].
    intros t w1 r1 w1' Hop. by eapply purgeBatch_batch_trace.
  - intros win w0.
    destruct (in_txn diruid "updateBatch" (updateBatch diruid) _ w0) as [r w'] eqn:Hrun.
    eapply in_txn_batch; [|exact Hrun].
    intros t w1 r1 w1' Hop. by eapply updateBatch_batch_trace.
  - assert (Hpurge : ∀ win, length win ≤ BATCH_SIZE →
              per_txn is_object_purge BATCH_SIZE
                (in_txn diruid "purgeBatch" (purgeBatch diruid)
                   (localResourceID migrationRecord, win))).
    { intros win Hwin. eapply (batch_per_txn diruid "purgeBatch" (purgeBatch diruid)).
      intros t w1 r1 w1' Hop. apply purgeBatch_batch_trace in Hop.
      destruct Hop as (evs & ? & ? & ? & ? & ?). exists evs. repeat (split; [done|]). lia. }
    assert (Hupdate : ∀ win, length win ≤ BATCH_SIZE →
              per_txn is_object_update BATCH_SIZE
                (in_txn diruid "updateBatch" (updateBatch diruid)
                   (localResourceID migrationRecord, remoteResourceID migrationRecord, win))
              ∧ per_txn is_object_purge BATCH_SIZE
                (in_txn diruid "updateBatch" (updateBatch diruid)
                   (localResourceID migrationRecord, remoteResourceID migrationRecord, win))).
    { intros win Hwin. eapply (batch_per_txn diruid "updateBatch" (updateBatch diruid)).
      intros t w1 r1 w1' Hop. apply updateBatch_batch_trace in Hop.
      destruct Hop as (evs & ? & ? & ? & ? & ?). exists evs. repeat (split; [done|]). lia. }
    split; [|split].
    + unfold purgeDeletedObjectsInBatches. by apply per_txn_batch_loop.
    + unfold updateChangedObjectsInBatches. apply per_txn_batch_loop.
      intros win Hwin. by apply Hupdate.
    + unfold updateChangedObjectsInBatches. apply per_txn_batch_loop.
      intros win Hwin. by apply Hupdate.
Qed.

(** ** Attachment links *)

Lemma makeAttachmentLinks_open txn args :
  respects false (same w_open) (makeAttachmentLinks txn args).
Proof. respects_auto same_leaf. Qed.

Lemma pretty_key_exists (k : nat) : ∃ key, KeyError (pretty k) = KeyError key.
Proof. by eexists. Qed.

(** [makeAttachmentLinks] in transaction [t], link by link. *)
Lemma makeAttachmentLinks_run t links (attachmentIDMap objectIDMap : gmap nat IdMigrationRecord) w :
  (Forall (link_mapped attachmentIDMap objectIDMap) links →
     ∃ w', makeAttachmentLinks (PyTxn t) (links, attachmentIDMap, objectIDMap) w = (Ok tt, w')
       ∧ db_links (w_db w) `prefix_of` db_links (w_db w')
       ∧ (∀ new, new ∈ db_links (w_db w')
                 ↔ new ∈ db_links (w_db w)
                   ∨ ∃ link, link ∈ links ∧ link_remapped attachmentIDMap objectIDMap link new)
       ∧ (NoDup (db_links (w_db w)) → NoDup (db_links (w_db w')))
       ∧ ((∀ link new, link ∈ links →
             link_remapped attachmentIDMap objectIDMap link new → new ∈ db_links (w_db w)) →
          db_links (w_db w') = db_links (w_db w)))
  ∧ (¬ Forall (link_mapped attachmentIDMap objectIDMap) links →
     ∃ key w', makeAttachmentLinks (PyTxn t) (links, attachmentIDMap, objectIDMap) w
                 = (Err (KeyError key), w')).
Proof.
  unfold makeAttachmentLinks, for_each_, getitem, link_insert, link_mapped. run_lazy.
  generalize tt.
  revert w. induction links as [|link links IH]; intros w u; cbn [for_each]; run_lazy.
  - split.
    + intros _. exists w. destruct u. split; [done|]. split; [done|]. split; [|done].
      intros new. split; [by left|]. intros [Hin|(link & Hin & _)]; [done|].
      by apply not_elem_of_nil in Hin.
    + intros Hno. destruct Hno. constructor.
  - destruct (attachmentIDMap !! l_attachmentID link) as [a|] eqn:Ha; run_lazy.
    2:{ split.
        - intros Hall. apply Forall_cons in Hall as [[[? Hs] _] _]. by rewrite Ha in Hs.
        - intros _. by eexists _, _. }
    destruct (objectIDMap !! l_calendarObjectID link) as [o|] eqn:Ho; run_lazy.
    2:{ split.
        - intros Hall. apply Forall_cons in Hall as [[_ [? Hs]] _]. by rewrite Ho in Hs.
        - intros _. by eexists _, _. }
    match goal with |- context [for_each links _ _ ?w1] =>
      destruct (IH w1 u) as [IHok IHno] end.
    split.
    + intros Hall. apply Forall_cons in Hall as [_ Hall].
      destruct (IHok Hall) as (w' & Hrun & Hpre & Hin & Hnd & Hsame). exists w'.
      split; [exact Hrun|].
      run_cbn_in Hpre. run_cbn_in Hin. run_cbn_in Hnd. run_cbn_in Hsame.
      set (new0 := mkLink (im_local a) (im_local o)) in *.
      assert (Hstep : ∀ new, new ∈ (if decide (new0 ∈ db_links (w_db w))
                                    then db_links (w_db w) else db_links (w_db w) ++ [new0])
                             ↔ new ∈ db_links (w_db w) ∨ new = new0).
      { intros new. destruct (decide (new0 ∈ db_links (w_db w))) as [Hthere|Hnot].
        - split; [by left|]. intros [?| ->]; done.
        - rewrite elem_of_app, list_elem_of_singleton. done. }
      split; [|split; [|split]].
      * etransitivity; [|exact Hpre].
        destruct (decide (new0 ∈ db_links (w_db w))); [done | by apply prefix_app_r].
      * intros new. rewrite Hin, Hstep. split.
        -- intros [[Hold| ->]|(link' & Hl & Hre)].
           ++ by left.
           ++ right. exists link. split; [by left|]. by exists a, o.
           ++ right. exists link'. split; [by right | done].
        -- intros [Hold|(link' & Hl & Hre)]; [by left; left|].
           apply elem_of_cons in Hl as [->|Hl].
           ++ left. right. destruct Hre as (a' & o' & Ha' & Ho' & ->).
              rewrite Ha in Ha'. rewrite Ho in Ho'. by injection Ha' as <-; injection Ho' as <-.
           ++ right. by exists link'.
      * intros Hnd0. apply Hnd.
        destruct (decide (new0 ∈ db_links (w_db w))) as [Hthere|Hnot]; [done|].
        apply NoDup_app. split; [done|]. split; [|apply NoDup_singleton].
        intros x Hx Hx0. apply list_elem_of_singleton in Hx0 as ->. done.
      * intros Hthere.
        assert (Hnew0 : new0 ∈ db_links (w_db w)).
        { apply (Hthere link); [by left | by exists a, o]. }
        rewrite decide_True in Hsame by done. apply Hsame.
        intros link' new Hl Hre. apply (Hthere link'); [by right | done].
    + intros Hno. apply IHno. intros Hall. apply Hno. constructor; [|done].
      split; by eexists.
Qed.

(** ** What a wrapped method does, in terms of its operation *)

Lemma in_txn_run {Args A} diruid name (operation : pyval → Args → M A) args w :
  in_txn diruid name operation args w =
    match operation (PyTxn (w_next_txn w)) args (begin_txn diruid name w) with
    | (Ok a, w2) => (Ok a, (txn_commit (w_next_txn w) w2).2)
    | (Err e, w2) =>
        (Err e, if is_Exception e then abort_txn diruid name (w_next_txn w) e w2 else w2)
    end.
Proof.
  unfold in_txn, inTransactionWrapper, fire.
  rewrite _inTxn_created by apply lookup_empty. cbn zeta. fold (begin_txn diruid name w).
  destruct (operation _ _ _) as [[a|e] w2]; [done|]. by destruct (is_Exception e).
Qed.

(** Aborting puts the store back as it was when the transaction was opened,
    provided the operation left the table of open transactions alone. *)
Lemma abort_txn_restores diruid name e w w2 :
  w_open w2 = w_open (begin_txn diruid name w) →
  w_db (abort_txn diruid name (w_next_txn w) e w2) = w_db w
  ∧ w_trace (abort_txn diruid name (w_next_txn w) e w2)
    = w_trace w2 ++ [EvAbort (w_next_txn w);
                     EvLogError (label diruid name +:+ " failed: " +:+ str_exn e)].
Proof.
  intros Hopen. unfold abort_txn, txn_abort. cbn. rewrite Hopen. cbn.
  rewrite lookup_insert_eq. cbn. by rewrite <- app_assoc.
Qed.

(** C10.  [makeAttachmentLinks], called as [linkAttachments] calls it, ends
    normally only when every link of the batch has its attachment id in the
    attachment ID map and its calendar-object id in the object ID map (and it
    does so then: the rows of the link table are kept, and the rows it has
    gained are the re-mapped links of the batch).  When some link of
    the batch has an id that is in neither map, the lookup raises [KeyError];
    the transaction opened for the batch is aborted and not committed, and
    the store, its link table included, is as it was before the batch. *)
Theorem C10_makeAttachmentLinks (diruid : string) (links : list Link)
    (attachmentIDMap objectIDMap : gmap nat IdMigrationRecord) (w : World) :
  let run := in_txn diruid "makeAttachmentLinks" makeAttachmentLinks
               (links, attachmentIDMap, objectIDMap) w in
  let t := w_next_txn w in
  (is_ok run.1 = true → Forall (link_mapped attachmentIDMap objectIDMap) links)
  ∧ (Forall (link_mapped attachmentIDMap objectIDMap) links →
       run.1 = Ok tt
       ∧ db_links (w_db w) `prefix_of` db_links (w_db run.2)
       ∧ ∀ new, new ∈ db_links (w_db run.2)
                ↔ new ∈ db_links (w_db w)
                  ∨ ∃ link, link ∈ links ∧ link_remapped attachmentIDMap objectIDMap link new)
  ∧ (¬ Forall (link_mapped attachmentIDMap objectIDMap) links →
       ∃ key tr,
         run.1 = Err (KeyError key)
         ∧ w_trace run.2
           = tr ++ [EvAbort t;
                    EvLogError (label diruid "makeAttachmentLinks" +:+ " failed: " +:+ key)]
         ∧ count_events (is_commit t) (w_trace run.2) = count_events (is_commit t) (w_trace w)
         ∧ w_db run.2 = w_db w
         ∧ db_links (w_db run.2) = db_links (w_db w)).
Proof.
  cbn zeta. rewrite in_txn_run.
  destruct (makeAttachmentLinks_run (w_next_txn w) links attachmentIDMap objectIDMap
              (begin_txn diruid "makeAttachmentLinks" w)) as [Hyes Hno].
  destruct (decide (Forall (link_mapped attachmentIDMap objectIDMap) links)) as [Hall|Hnot].
  - destruct (Hyes Hall) as (w2 & Hrun & Hold & Hnew & _). rewrite Hrun. cbn [fst snd].
    split; [done|]. split; [|done]. intros _. split; [done|]. split; [exact Hold | exact Hnew].
  - destruct (Hno Hnot) as (key & w2 & Hrun). rewrite Hrun. cbn [fst snd is_Exception].
    split; [done|]. split; [done|]. intros _.
    assert (Hopen : w_open w2 = w_open (begin_txn diruid "makeAttachmentLinks" w)).
    { by apply (makeAttachmentLinks_open _ _ _ _ _ Hrun). }
    destruct (abort_txn_restores diruid "makeAttachmentLinks" (KeyError key) w w2 Hopen)
      as [Hdb Htr].
    assert (Hb : bounded (is_commit (w_next_txn w)) 0
                   (makeAttachmentLinks (PyTxn (w_next_txn w))
                      (links, attachmentIDMap, objectIDMap))) by bounded0.
    destruct (Hb _ _ _ Hrun) as (evs & Hevs & Hcount).
    exists key, (w_trace w2). split; [done|]. split; [exact Htr|]. split.
    + rewrite Htr, Hevs. cbn [begin_txn w_trace record_event set_open set_next_txn].
      rewrite !count_events_app.
      replace (count_events _ evs) with 0 by lia.
      rewrite !count_events_cons, count_events_nil. cbn. lia.
    + by rewrite Hdb.
Qed.

(** ** When the conduit knows no remote home *)

Lemma abort_same_db diruid name e w w2 :
  w_open w2 = w_open (begin_txn diruid name w) →
  w_db (abort_txn diruid name (w_next_txn w) e w2) = w_db w.
Proof. intros H. by apply abort_txn_restores. Qed.

(** The one step that checks for a missing remote home. *)
Lemma getCalendarSyncList_remote_None diruid w record :
  w_record w = Some record →
  r_resourceID (w_remote w) = None →
  ∃ w', in_txn diruid "getCalendarSyncList" getCalendarSyncList tt w = (Ok None, w')
    ∧ w_db w' = w_db w.
Proof.
  intros Hrec Hnone. rewrite in_txn_run. unfold getCalendarSyncList.
  rewrite run_bind, _remoteHome_run.
  cbn [begin_txn w_remote w_record record_event set_open set_next_txn].
  rewrite Hrec, Hnone. run_cbn. by eexists.
Qed.

(** The steps that use the remote home without checking it. *)
Lemma syncAttachmentTable_remote_None diruid w record :
  w_record w = Some record →
  r_resourceID (w_remote w) = None →
  ∃ w', in_txn diruid "syncAttachmentTable" (syncAttachmentTable diruid) tt w
          = (Err (AttributeError "'NoneType' object has no attribute 'getAllAttachments'"), w')
    ∧ w_db w' = w_db w.
Proof.
  intros Hrec Hnone. rewrite in_txn_run. unfold syncAttachmentTable.
  rewrite run_bind, _remoteHome_run.
  cbn [begin_txn w_remote w_record record_event set_open set_next_txn].
  rewrite Hrec, Hnone. run_cbn. eexists. split; [done|]. by apply abort_same_db.
Qed.

Lemma getAttachmentLinks_remote_None diruid w record :
  w_record w = Some record →
  r_resourceID (w_remote w) = None →
  ∃ w', in_txn diruid "getAttachmentLinks" getAttachmentLinks tt w
          = (Err (AttributeError "'NoneType' object has no attribute 'getAttachmentLinks'"), w')
    ∧ w_db w' = w_db w.
Proof.
  intros Hrec Hnone. rewrite in_txn_run. unfold getAttachmentLinks.
  rewrite run_bind, _remoteHome_run.
  cbn [begin_txn w_remote w_record record_event set_open set_next_txn].
  rewrite Hrec, Hnone. run_cbn. eexists. split; [done|]. by apply abort_same_db.
Qed.

Lemma updateBatch_remote_None diruid args w record :
  w_record w = Some record →
  r_resourceID (w_remote w) = None →
  ∃ w', in_txn diruid "updateBatch" (updateBatch diruid) args w
          = (Err (AttributeError "'NoneType' object has no attribute 'childWithID'"), w')
    ∧ w_db w' = w_db w.
Proof.
  intros Hrec Hnone. rewrite in_txn_run. destruct args as [[localID remoteID] names].
  unfold updateBatch.
  rewrite run_bind, _remoteHome_run.
  cbn [begin_txn w_remote w_record record_event set_open set_next_txn].
  rewrite Hrec, Hnone. run_cbn. eexists. split; [done|]. by apply abort_same_db.
Qed.

Lemma syncCalendarHomeMetaData_remote_None diruid w record :
  w_record w = Some record →
  r_resourceID (w_remote w) = None →
  ∃ attr w', in_txn diruid "syncCalendarHomeMetaData" (syncCalendarHomeMetaData diruid) tt w
          = (Err (AttributeError ("'NoneType' object has no attribute '" +:+ attr +:+ "'")), w')
    ∧ w_db w' = w_db w.
Proof.
  intros Hrec Hnone. rewrite in_txn_run. unfold syncCalendarHomeMetaData.
  rewrite run_bind, _remoteHome_run.
  cbn [begin_txn w_remote w_record record_event set_open set_next_txn].
  rewrite Hrec, Hnone. unfold calendarHomeWithUID, home_copyMetadata. run_cbn.
  destruct (db_homes (w_db w) !! migratingUid diruid); run_cbn.
  - exists "metadataAttributes". eexists. split; [reflexivity|]. by apply abort_same_db.
  - exists "copyMetadata". eexists. split; [reflexivity|]. by apply abort_same_db.
Qed.

(** Before [loadRecord] has run there is no [self.record]: a step that
    builds the remote home proxy ends with [AttributeError] before it has
    asked the conduit. *)
Ltac step_without_record Hrec :=
  rewrite in_txn_run, run_bind, _remoteHome_run;
  cbn [begin_txn w_remote w_record record_event set_open set_next_txn];
  rewrite Hrec; cbn [is_Exception]; eexists; split; [done|]; by apply abort_same_db.

(** C2 (what the code does).  When the conduit answers [None] for the remote
    home's resource id, fetching the calendar list returns [None] and leaves
    the store alone; the other steps that build the remote home proxy (home
    meta-data sync, attachment table sync, attachment link fetch, object batch
    update) use the [None] proxy as an object: they end with
    [AttributeError], not as a no-op.  Their transaction is aborted, so the
    store is unchanged.  That is so once [self.record] has been assigned;
    before that, each of the five steps ends with the [AttributeError] of the
    missing attribute, the store unchanged as well. *)
Theorem C2_remote_home_None (diruid : string) (w : World) :
  r_resourceID (w_remote w) = None →
  match w_record w with
  | Some _ =>
      (∃ w', in_txn diruid "getCalendarSyncList" getCalendarSyncList tt w = (Ok None, w')
         ∧ w_db w' = w_db w)
      ∧ (∃ w', in_txn diruid "syncAttachmentTable" (syncAttachmentTable diruid) tt w
                 = (Err (AttributeError
                           "'NoneType' object has no attribute 'getAllAttachments'"), w')
           ∧ w_db w' = w_db w)
      ∧ (∃ w', in_txn diruid "getAttachmentLinks" getAttachmentLinks tt w
                 = (Err (AttributeError
                           "'NoneType' object has no attribute 'getAttachmentLinks'"), w')
           ∧ w_db w' = w_db w)
      ∧ (∀ args, ∃ w', in_txn diruid "updateBatch" (updateBatch diruid) args w
                 = (Err (AttributeError "'NoneType' object has no attribute 'childWithID'"), w')
           ∧ w_db w' = w_db w)
      ∧ (∃ attr w',
           in_txn diruid "syncCalendarHomeMetaData" (syncCalendarHomeMetaData diruid) tt w
           = (Err (AttributeError ("'NoneType' object has no attribute '" +:+ attr +:+ "'")), w')
           ∧ w_db w' = w_db w)
  | None =>
      let no_record :=
        AttributeError "'CrossPodHomeSync' object has no attribute 'record'" in
      (∃ w', in_txn diruid "getCalendarSyncList" getCalendarSyncList tt w = (Err no_record, w')
         ∧ w_db w' = w_db w)
      ∧ (∃ w', in_txn diruid "syncAttachmentTable" (syncAttachmentTable diruid) tt w
                 = (Err no_record, w')
           ∧ w_db w' = w_db w)
      ∧ (∃ w', in_txn diruid "getAttachmentLinks" getAttachmentLinks tt w = (Err no_record, w')
           ∧ w_db w' = w_db w)
      ∧ (∀ args, ∃ w', in_txn diruid "updateBatch" (updateBatch diruid) args w
                 = (Err no_record, w')
           ∧ w_db w' = w_db w)
      ∧ (∃ w',
           in_txn diruid "syncCalendarHomeMetaData" (syncCalendarHomeMetaData diruid) tt w
           = (Err no_record, w')
           ∧ w_db w' = w_db w)
  end.
Proof.
  intros Hnone. destruct (w_record w) as [record|] eqn:Hrec.
  - split; [by eapply getCalendarSyncList_remote_None|].
    split; [by eapply syncAttachmentTable_remote_None|].
    split; [by eapply getAttachmentLinks_remote_None|].
    split; [intros args; by eapply updateBatch_remote_None|].
    by eapply syncCalendarHomeMetaData_remote_None.
  - cbn zeta.
    split; [unfold getCalendarSyncList; step_without_record Hrec|].
    split; [unfold syncAttachmentTable; step_without_record Hrec|].
    split; [unfold getAttachmentLinks; step_without_record Hrec|].
    split; [|unfold syncCalendarHomeMetaData; step_without_record Hrec].
    intros [[localID remoteID] names]. unfold updateBatch. step_without_record Hrec.
Qed.

Lemma C2_remote_home_None_witness :
  r_resourceID (w_remote Scenario.no_remote_home) = None
  ∧ (∃ w', in_txn Scenario.diruid "syncAttachmentTable" (syncAttachmentTable Scenario.diruid) tt
             Scenario.no_remote_home
           = (Err (AttributeError "'NoneType' object has no attribute 'getAllAttachments'"), w')
       ∧ w_db w' = w_db Scenario.no_remote_home).
Proof.
  split; [reflexivity|].
  exact (proj1 (proj2 (C2_remote_home_None Scenario.diruid Scenario.no_remote_home eq_refl))).
Defined.

(** ** Finding the objects to sync *)

Lemma py_dict_lookup {K A} `{Countable K} (l : list (K * A)) k v :
  NoDup (l.*1) → py_dict l !! k = Some v ↔ (k, v) ∈ l.
Proof.
  intros Hnd. unfold py_dict. rewrite <- elem_of_list_to_map.
  - by rewrite elem_of_reverse.
  - by rewrite fmap_reverse, reverse_Permutation.
Qed.

Lemma py_dict_lookup_None {K A} `{Countable K} (l : list (K * A)) k :
  py_dict l !! k = None ↔ k ∉ l.*1.
Proof.
  unfold py_dict. rewrite <- not_elem_of_list_to_map.
  by rewrite fmap_reverse, elem_of_reverse.
Qed.

(** The dict built from what [objectResourcesWithNames(names)] returns. *)
Lemma objects_dict_lookup {O} (mk : string → CalObject → O) (name_of : O → string)
    (objects : gmap string CalObject) (names : list string) (n : string) :
  (∀ n row, name_of (mk n row) = n) →
  py_dict ((fun o => (name_of o, o)) <$> omap (fun n => mk n <$> objects !! n) (remove_dups names))
    !! n
  = if decide (n ∈ names) then mk n <$> objects !! n else None.
Proof.
  intros Hname.
  set (objs := omap _ _).
  assert (Hobjs : ∀ o, o ∈ objs ↔ ∃ m row, m ∈ names ∧ objects !! m = Some row ∧ o = mk m row).
  { intros o. subst objs. rewrite list_elem_of_omap. split.
    - intros (m & Hm & Ho). rewrite elem_of_remove_dups in Hm.
      destruct (objects !! m) as [row|] eqn:Hrow; [|done]. injection Ho as <-. eauto.
    - intros (m & row & Hm & Hrow & ->). exists m. rewrite elem_of_remove_dups, Hrow. done. }
  assert (Hnd : NoDup (((fun o => (name_of o, o)) <$> objs).*1)).
  { rewrite <- list_fmap_compose. subst objs.
    pose proof (NoDup_remove_dups names) as Hnd. revert Hnd. generalize (remove_dups names).
    intros l. induction l as [|m l IH]; cbn; [constructor|].
    intros Hnd. apply NoDup_cons in Hnd as [Hm Hnd].
    destruct (objects !! m) as [row|]; cbn; [|by apply IH].
    constructor; [|by apply IH].
    rewrite Hname. intros Hin. apply list_elem_of_fmap in Hin as (o & Heq & Ho).
    apply list_elem_of_omap in Ho as (m' & Hm' & Hf).
    destruct (objects !! m'); [|done]. injection Hf as <-. cbn in Heq.
    rewrite Hname in Heq. by subst. }
  destruct (decide (n ∈ names)) as [Hn|Hn].
  - destruct (objects !! n) as [row|] eqn:Hrow; cbn.
    + apply py_dict_lookup; [done|]. apply list_elem_of_fmap. exists (mk n row).
      rewrite Hname. split; [done|]. apply Hobjs. eauto.
    + apply py_dict_lookup_None. rewrite <- list_fmap_compose. intros Hin.
      apply list_elem_of_fmap in Hin as (o & Heq & Ho). cbn in Heq.
      apply Hobjs in Ho as (m & row & Hm & Hrow' & ->). rewrite Hname in Heq. subst.
      by rewrite Hrow in Hrow'.
  - apply py_dict_lookup_None. rewrite <- list_fmap_compose. intros Hin.
    apply list_elem_of_fmap in Hin as (o & Heq & Ho). cbn in Heq.
    apply Hobjs in Ho as (m & row & Hm & Hrow' & ->). rewrite Hname in Heq. by subst.
Qed.

(** The loop of [findObjectsToSync] keeps the names of the remote objects
    that are absent locally or differ in md5, each once. *)
Lemma actual_changes_spec (remote_changes : gmap string RemoteObject)
    (local_changes : gmap string LocalObject) :
  NoDup (actual_changes remote_changes local_changes)
  ∧ ∀ name, name ∈ actual_changes remote_changes local_changes ↔
      ∃ ro, remote_changes !! name = Some ro
        ∧ (local_changes !! name = None
           ∨ ∃ lo, local_changes !! name = Some lo ∧ o_md5 (ro_row ro) ≠ o_md5 (lo_row lo)).
Proof.
  unfold actual_changes.
  set (keep := fun item : string * RemoteObject =>
         match local_changes !! item.1 with
         | None => true
         | Some local => bool_decide (o_md5 (ro_row item.2) ≠ o_md5 (lo_row local))
         end).
  assert (Hfold : ∀ l acc,
    foldl (fun acc (item : string * RemoteObject) =>
             let name := item.1 in
             match local_changes !! name with
             | None => acc ++ [name]
             | Some local =>
                 if decide (o_md5 (ro_row item.2) ≠ o_md5 (lo_row local))
                 then acc ++ [name] else acc
             end) acc l
    = acc ++ (filter (fun item => keep item = true) l).*1).
  { induction l as [|item l IH]; intros acc; cbn [foldl].
    - by rewrite app_nil_r.
    - rewrite IH, filter_cons. cbn zeta.
      destruct (local_changes !! item.1) as [local|] eqn:Hl.
      + destruct (decide (o_md5 (ro_row item.2) ≠ o_md5 (lo_row local))) as [Hd|Hd].
        * assert (Hk : keep item = true).
          { unfold keep. rewrite Hl. by apply bool_decide_eq_true_2. }
          rewrite decide_True by done. cbn. by rewrite <- app_assoc.
        * assert (Hk : keep item ≠ true).
          { unfold keep. rewrite Hl. by rewrite bool_decide_eq_false_2. }
          by rewrite decide_False by done.
      + assert (Hk : keep item = true) by (unfold keep; by rewrite Hl).
        rewrite decide_True by done. cbn. by rewrite <- app_assoc. }
  rewrite Hfold. cbn [app]. split.
  - apply (NoDup_fmap_fst _); [|apply NoDup_filter; apply NoDup_map_to_list].
    intros k v1 v2 H1 H2. apply list_elem_of_filter in H1 as [_ H1], H2 as [_ H2].
    apply elem_of_map_to_list in H1, H2. congruence.
  - intros name. rewrite list_elem_of_fmap. split.
    + intros ([k ro] & -> & Hin). apply list_elem_of_filter in Hin as [Hkeep Hin].
      apply elem_of_map_to_list in Hin. exists ro. split; [done|].
      unfold keep in Hkeep. cbn in *. destruct (local_changes !! k) as [lo|]; [|by left].
      right. exists lo. split; [done|]. by apply bool_decide_eq_true in Hkeep.
    + intros (ro & Hro & Hkeep). exists (name, ro). split; [done|].
      apply list_elem_of_filter. split; [|by apply elem_of_map_to_list].
      unfold keep. cbn. destruct Hkeep as [->|(lo & -> & Hd)]; [done|].
      by apply bool_decide_eq_true_2.
Qed.

(** [findObjectsToSync] in transaction [t], when both homes and both
    calendars are there. *)
Lemma findObjectsToSync_run diruid t migrationRecord w resourceID record rc home cal :
  r_resourceID (w_remote w) = Some resourceID →
  w_record w = Some (Some record) →
  r_calendars (w_remote w) !! remoteResourceID migrationRecord = Some rc →
  db_homes (w_db w) !! migratingUid diruid = Some home →
  db_calendars (w_db w) !! localResourceID migrationRecord = Some cal →
  c_home cal = h_id home →
  ∃ actual w',
    findObjectsToSync diruid (PyTxn t) migrationRecord w
      = (Ok (Some (actual, (rc_changes rc (lastSyncToken migrationRecord)).1.2)), w')
    ∧ w_db w' = w_db w
    ∧ NoDup actual
    ∧ ∀ name, name ∈ actual ↔
        name ∈ (rc_changes rc (lastSyncToken migrationRecord)).1.1
        ∧ is_Some (rc_objects rc !! name)
        ∧ needs_sync (rc_objects rc) (c_objects cal) name.
Proof.
  intros Hres Hrec Hrc Hhome Hcal Hown.
  unfold findObjectsToSync. rewrite run_bind, _remoteHome_run, Hres, Hrec.
  unfold remote_childWithID, remote_resourceNamesSinceToken. run_cbn. rewrite Hrc. run_cbn.
  destruct (rc_changes rc (lastSyncToken migrationRecord)) as [[changed deleted] invalid].
  unfold calendarHomeWithUID, home_childWithID, remote_objectResourcesWithNames,
    calendar_objectResourcesWithNames.
  run_cbn. rewrite Hhome. run_cbn. rewrite Hcal. run_cbn.
  rewrite decide_True by done. run_cbn. rewrite Hcal.
  eexists _, _. split; [reflexivity|]. split; [done|].
  match goal with |- context [actual_changes ?rcs ?lcs] =>
    destruct (actual_changes_spec rcs lcs) as [Hnd Hiff] end.
  split; [exact Hnd|]. intros name. rewrite Hiff. clear Hnd Hiff.
  rewrite (objects_dict_lookup mkRemoteObject ro_name) by done.
  rewrite (objects_dict_lookup (mkLocalObject t (localResourceID migrationRecord)) lo_name)
    by done.
  cbn [fst snd]. unfold needs_sync.
  destruct (decide (name ∈ changed)) as [Hin|Hin].
  - destruct (rc_objects rc !! name) as [ro|] eqn:Hro; cbn.
    + split.
      * intros (ro' & [= <-] & Hkeep). split; [done|]. split; [by eexists|].
        destruct (c_objects cal !! name) as [lo|]; cbn in Hkeep; [|by left].
        destruct Hkeep as [?|(lo' & [= <-] & Hd)]; [done|]. right. by exists ro, lo.
      * intros (_ & _ & Hneeds). eexists. split; [done|].
        destruct Hneeds as [->|(ro' & lo & [= <-] & -> & Hd)]; [by left|].
        right. by eexists.
    + split.
      * by intros (ro' & ? & _).
      * by intros (_ & [? ?] & _).
  - split.
    + by intros (ro' & ? & _).
    + by intros (? & _).
Qed.

Lemma omap_all_None {A B} (f : A → option B) (l : list A) :
  (∀ x, x ∈ l → f x = None) → omap f l = [].
Proof.
  induction l as [|a l IH]; intros Hl; [done|]. cbn.
  rewrite (Hl a) by apply list_elem_of_here.
  apply IH. intros x Hx. apply Hl. by apply list_elem_of_further.
Qed.

Lemma purgeBatch_skips_absent diruid localID home cal w :
  db_homes (w_db w) !! migratingUid diruid = Some home →
  db_calendars (w_db w) !! localID = Some cal →
  c_home cal = h_id home →
  purge_skips_absent diruid localID (c_objects cal) w.
Proof.
  intros Hhome Hcal Hown names. rewrite in_txn_run.
  destruct (purgeBatch diruid (PyTxn (w_next_txn w)) (localID, names)
              (begin_txn diruid "purgeBatch" w)) as [r w2] eqn:Hrun.
  destruct (purgeBatch_run _ _ _ _ _ _ _ Hrun) as (objs & Htr & _ & _ & _ & Hnil & Hres).
  destruct (Hres home cal Hhome Hcal Hown) as [-> Hobjs].
  eexists _, _. split; [reflexivity|]. split; [|split].
  - cbn. rewrite Htr. cbn. rewrite <- !app_assoc. reflexivity.
  - intros name t calendarID Hname Hin.
    apply elem_of_cons in Hin as [Hin|Hin]; [done|].
    apply elem_of_app in Hin as [Hin|Hin].
    2:{ apply list_elem_of_singleton in Hin. done. }
    apply list_elem_of_fmap in Hin as (o & Heq & Ho). rewrite Hobjs in Ho.
    apply list_elem_of_omap in Ho as (n & _ & Hn).
    destruct (c_objects cal !! n) as [row|] eqn:Hrow; [|done]. injection Hn as <-.
    cbn in Heq. injection Heq as _ _ ->. congruence.
  - intros Habsent. cbn. rewrite Hnil; [done|]. rewrite Hobjs.
    apply omap_all_None. intros n Hn. rewrite elem_of_remove_dups in Hn.
    by rewrite (Habsent n Hn).
Qed.

(** C3. [findObjectsToSync] asks the remote calendar for the names changed
    and deleted since the stored token and returns, as a set, exactly the
    names in [changed] for which the remote calendar returns an object and
    which are absent locally or whose remote md5 differs from the local one;
    [deleted] is passed through as it came, and the store is not touched.
    Purging a name that the local calendar does not hold is a silent no-op:
    [purgeBatch] ends normally without a purge for it. *)
Theorem C3_findObjectsToSync diruid migrationRecord w resourceID record rc home cal :
  r_resourceID (w_remote w) = Some resourceID →
  w_record w = Some (Some record) →
  r_calendars (w_remote w) !! remoteResourceID migrationRecord = Some rc →
  db_homes (w_db w) !! migratingUid diruid = Some home →
  db_calendars (w_db w) !! localResourceID migrationRecord = Some cal →
  c_home cal = h_id home →
  findObjectsToSync_returns remote_needs_sync diruid migrationRecord w rc cal
  ∧ purge_skips_absent diruid (localResourceID migrationRecord) (c_objects cal) w.
Proof.
  intros Hrid Hrec Hrc Hhome Hcal Hown. split.
  2:{ by eapply purgeBatch_skips_absent. }
  intros changed deleted invalid Hchanges. rewrite in_txn_run.
  destruct (findObjectsToSync_run diruid (w_next_txn w) migrationRecord
              (begin_txn diruid "findObjectsToSync" w) resourceID record rc home cal)
    as (actual & w2 & Hrun & Hdb & Hnodup & Hiff); try done.
  rewrite Hrun, Hchanges. cbn.
  eexists _, _. split; [reflexivity|]. split; [|split; [done|]].
  - cbn. rewrite Hdb. reflexivity.
  - intros name. rewrite Hiff, Hchanges. cbn. unfold remote_needs_sync. tauto.
Qed.

Lemma C3_findObjectsToSync_witness :
  findObjectsToSync_returns remote_needs_sync Scenario.diruid Scenario.record10
    Scenario.incremental Scenario.calendar10_later Scenario.local_calendar101
  ∧ purge_skips_absent Scenario.diruid (localResourceID Scenario.record10)
      (c_objects Scenario.local_calendar101) Scenario.incremental.
Proof.
  eapply (C3_findObjectsToSync Scenario.diruid Scenario.record10 Scenario.incremental);
    vm_compute; reflexivity.
Defined.

(** C3, as worded: "the subset of [changed] that is absent locally or whose
    md5 differs".  The name [gone.ics] is reported as changed and is absent
    locally, but the remote calendar returns no object for it, and the code
    leaves it out. *)
Lemma C3_changed_name_without_remote_object :
  ¬ findObjectsToSync_returns needs_sync Scenario.diruid Scenario.record10
      Scenario.incremental Scenario.calendar10_later Scenario.local_calendar101.
Proof.
  intros Hclaim.
  destruct (Hclaim _ _ _ eq_refl) as (actual & w' & Hrun & _ & _ & Hiff).
  vm_compute in Hrun. injection Hrun as <- _.
  assert (Hin : "gone.ics" ∈ ["e3.ics"; "e1.ics"]).
  { apply Hiff. split.
    - apply list_elem_of_In. cbn. tauto.
    - left. reflexivity. }
  apply list_elem_of_In in Hin. cbn in Hin.
  destruct Hin as [Hin|[Hin|[]]]; discriminate Hin.
Qed.

(** ** Sync tokens: the second pass *)

Lemma sync_list_loop t resourceID (l : list (nat * RemoteCalendar)) acc w r w' :
  for_each ((λ kv : nat * RemoteCalendar, mkRemoteCalendarH t kv.1 kv.2) <$> l)
    (λ (calendar : RemoteCalendarH) (results : gmap nat CalendarMigrationRecord),
       if rc_owned (rch_row calendar)
       then sync_token <- remote_syncToken calendar ;;
            ret (<[rch_id calendar :=
                     CalendarMigrationRecord_make resourceID (rch_id calendar) 0
                       (Some sync_token)]> results)
       else ret results) acc w = (r, w') →
  r = Ok (foldl (fun results (kv : nat * RemoteCalendar) =>
              if rc_owned kv.2
              then <[kv.1 := CalendarMigrationRecord_make resourceID kv.1 0
                               (Some (rc_syncToken kv.2))]> results
              else results) acc l).
Proof.
  revert acc w. induction l as [|kv l IH]; intros acc w; cbn [for_each fmap list_fmap foldl].
  - by intros [= <- <-].
  - rewrite run_bind. cbn [rch_row rch_id]. destruct (rc_owned kv.2).
    + unfold remote_syncToken. run_lazy. apply IH.
    + run_lazy. apply IH.
Qed.

Lemma getCalendarSyncList_result t w r w' :
  getCalendarSyncList (PyTxn t) tt w = (Ok r, w') → r = remote_sync_state (w_remote w).
Proof.
  unfold getCalendarSyncList, _remoteHome, send_home_resource_id, remote_loadChildren,
    remote_sync_state.
  run_lazy.
  destruct (w_record w) as [record|]; [|done]. run_cbn.
  destruct (r_resourceID (w_remote w)) as [resourceID|]; [|by intros [= <- <-]].
  destruct record as [record|]; [|done]. run_cbn.
  match goal with |- context [for_each ?l ?b ?s ?w0] =>
    destruct (for_each l b s w0) as [r1 w1] eqn:Hloop end.
  apply (sync_list_loop t resourceID) in Hloop. subst r1. by intros [= <- <-].
Qed.

Lemma sync_state_lookup (h : nat) (table : gmap (nat * nat) (nat * option string)) (rid : nat) :
  py_dict ((fun record => (remoteResourceID record, record))
           <$> ((fun kv : nat * nat * (nat * option string) =>
                   mkCalendarMigrationRecord kv.1.1 kv.1.2 kv.2.1 kv.2.2 false)
                <$> map_to_list (filter (fun kv : nat * nat * (nat * option string) => kv.1.1 = h)
                                        table))) !! rid
  = (fun row => mkCalendarMigrationRecord h rid row.1 row.2 false) <$> table !! (h, rid).
Proof.
  set (rows := map_to_list _).
  assert (Hrows : ∀ kv, kv ∈ rows ↔ table !! kv.1 = Some kv.2 ∧ kv.1.1 = h).
  { intros [k v]. subst rows. rewrite elem_of_map_to_list, map_lookup_filter_Some. done. }
  assert (Hnd : NoDup rows) by apply NoDup_map_to_list.
  rewrite <- list_fmap_compose.
  destruct (table !! (h, rid)) as [row|] eqn:Hrow; cbn.
  - apply py_dict_lookup.
    + rewrite <- list_fmap_compose. apply NoDup_fmap_2_strong; [|done].
      intros [[h1 r1] v1] [[h2 r2] v2] H1 H2. cbn. intros ->.
      apply Hrows in H1 as [H1 Hh1], H2 as [H2 Hh2]. cbn in *. subst h1 h2.
      rewrite H1 in H2. by injection H2 as ->.
    + apply list_elem_of_fmap. exists ((h, rid), row). split; [done|]. by apply Hrows.
  - apply py_dict_lookup_None. rewrite <- list_fmap_compose. intros Hin.
    apply list_elem_of_fmap in Hin as ([[h1 r1] v1] & Heq & Hin). cbn in Heq. subst r1.
    apply Hrows in Hin as [Hin Hh]. cbn in *. subst h1. by rewrite Hrow in Hin.
Qed.

Lemma getSyncState_run t w h :
  w_homeId w = Some h →
  getSyncState (PyTxn t) tt w
  = (Ok (py_dict ((fun record => (remoteResourceID record, record))
           <$> ((fun kv : nat * nat * (nat * option string) =>
                   mkCalendarMigrationRecord kv.1.1 kv.1.2 kv.2.1 kv.2.2 false)
                <$> map_to_list (filter (fun kv : nat * nat * (nat * option string) => kv.1.1 = h)
                                        (db_calendar_migration (w_db w)))))), w).
Proof.
  intros Hh. unfold getSyncState, self_homeId, CalendarMigrationRecord_querysimple.
  run_lazy. rewrite Hh. reflexivity.
Qed.

Lemma syncCalendar_skip diruid remoteID (local_sync_state remote_sync_state : gmap nat CalendarMigrationRecord)
    local_record remote_record w :
  local_sync_state !! remoteID = Some local_record →
  remote_sync_state !! remoteID = Some remote_record →
  lastSyncToken local_record = lastSyncToken remote_record →
  syncCalendar diruid remoteID local_sync_state remote_sync_state w
  = (in_txn diruid "updateSyncState" updateSyncState
       (local_record, lastSyncToken remote_record) ;;;
     ret local_sync_state) w.
Proof.
  intros Hl Hr Htok. unfold syncCalendar. rewrite Hl. run_lazy. rewrite Hl, Hr. run_cbn.
  destruct (decide (lastSyncToken local_record ≠ lastSyncToken remote_record)) as [Hne|_];
    [done|].
  run_lazy. reflexivity.
Qed.

Lemma syncCalendar_skip_quiet diruid remoteID
    (local_sync_state remote_sync_state : gmap nat CalendarMigrationRecord)
    local_record remote_record :
  local_sync_state !! remoteID = Some local_record →
  remote_sync_state !! remoteID = Some remote_record →
  lastSyncToken local_record = lastSyncToken remote_record →
  bounded is_calendar_sync_work 0
    (syncCalendar diruid remoteID local_sync_state remote_sync_state).
Proof.
  intros Hl Hr Htok w r w' Hrun.
  rewrite (syncCalendar_skip _ _ _ _ _ _ _ Hl Hr Htok) in Hrun.
  revert w r w' Hrun.
  change (bounded is_calendar_sync_work 0
            (in_txn diruid "updateSyncState" updateSyncState
               (local_record, lastSyncToken remote_record) ;;; ret local_sync_state)).
  bounded0.
Qed.

(** *** Partial correctness, and runs that add no event of a kind *)

Lemma triple_ret {A} (P : World → Prop) (a : A) : triple P (ret a) (fun a' w => a' = a ∧ P w).
Proof. intros w a' w' HP [= <- <-]. done. Qed.

Lemma triple_conseq {A} (P P' : World → Prop) (c : M A) (Q Q' : A → World → Prop) :
  triple P' c Q' → (∀ w, P w → P' w) → (∀ a w, Q' a w → Q a w) → triple P c Q.
Proof. intros Hc HP HQ w a w' Hw Hrun. eapply HQ, Hc; eauto. Qed.

Lemma triple_bind {A B} (P : World → Prop) (c : M A) (Q : A → World → Prop)
    (k : A → M B) (R : B → World → Prop) :
  triple P c Q → (∀ a, triple (Q a) (k a) R) → triple P (bind c k) R.
Proof.
  intros Hc Hk w b w' HP. rewrite run_bind. destruct (c w) as [[a|e] w1] eqn:Hcw; [|done].
  intros Hrun. eapply Hk; [|done]. by eapply Hc.
Qed.

Lemma triple_and {A} (P1 P2 : World → Prop) (c : M A) (Q1 Q2 : A → World → Prop) :
  triple P1 c Q1 → triple P2 c Q2 →
  triple (fun w => P1 w ∧ P2 w) c (fun a w => Q1 a w ∧ Q2 a w).
Proof. intros H1 H2 w a w' [HP1 HP2] Hrun. split; [by eapply H1 | by eapply H2]. Qed.

Lemma triple_exists {A X} (P : X → World → Prop) (c : M A) (Q : A → World → Prop) :
  (∀ x, triple (P x) c Q) → triple (fun w => ∃ x, P x w) c Q.
Proof. intros Hc w a w' [x HP] Hrun. by eapply Hc. Qed.

Lemma triple_pure {A} (φ : Prop) (P : World → Prop) (c : M A) (Q : A → World → Prop) :
  (φ → triple P c Q) → triple (fun w => φ ∧ P w) c Q.
Proof. intros Hc w a w' [Hφ HP] Hrun. by eapply Hc. Qed.

Lemma triple_respects {A} (R : relation World) (P : World → Prop) (c : M A)
    (Q : World → Prop) :
  respects true R c → (∀ w w', P w → R w w' → Q w') → triple P c (fun _ => Q).
Proof. intros Hc HQ w a w' HP Hrun. eapply HQ; [done|]. by eapply Hc. Qed.

Lemma triple_frame {A} (P : World → Prop) (c : M A) :
  on_store P → respects true (same store_view) c → triple P c (fun _ => P).
Proof. intros HP Hc. eapply triple_respects; [done|]. intros w w' Hw Hs. by eapply HP. Qed.

Lemma triple_for_each {A S} (I : list A → S → World → Prop) (l : list A)
    (body : A → S → M S) (s : S) :
  (∀ pre x post s, l = pre ++ x :: post →
     triple (I pre s) (body x s) (I (pre ++ [x]))) →
  triple (I [] s) (for_each l body s) (I l).
Proof.
  intros Hbody w s' w' HI Hrun.
  apply (for_each_inv_prefix I (fun _ => True) l body s w _ _) in Hrun; [done| |done].
  intros pre x post s0 w0 [s1|e] w1 Hl HI0 Hx; [|done]. by eapply Hbody.
Qed.

Lemma triple_for_each_inv {A S} (I : S → World → Prop) (l : list A)
    (body : A → S → M S) (s : S) :
  (∀ x s, x ∈ l → triple (I s) (body x s) I) →
  triple (I s) (for_each l body s) I.
Proof.
  intros Hbody w s' w' HI Hrun.
  apply (for_each_inv I (fun _ => True) l body s w _ _) in Hrun; [done| |done].
  intros x s0 w0 [s1|e] w1 Hx HI0 Hrun0; [|done]. by eapply Hbody.
Qed.

Lemma triple_in_txn {Args A} diruid name (operation : pyval → Args → M A) args
    (P : World → Prop) (Q : A → World → Prop) :
  on_store P → (∀ a, on_store (Q a)) →
  (∀ t, triple P (operation (PyTxn t) args) Q) →
  triple P (in_txn diruid name operation args) Q.
Proof.
  intros HP HQ Hop w a w' Hw. rewrite in_txn_run.
  destruct (operation _ _ _) as [[a1|e] w2] eqn:Hrun; [|done].
  intros [= <- <-]. eapply HQ; [|eapply Hop; [|done]].
  - reflexivity.
  - eapply HP; [|done]. reflexivity.
Qed.

Section Quiet.
Context (p : Event → bool).

Lemma quiet_intro {A} (P : World → Prop) (c : M A) (Q : A → World → Prop) :
  bounded p 0 c → triple P c Q → quiet p P c Q.
Proof.
  intros Hb Ht w r w' HP Hrun. split.
  - destruct (Hb _ _ _ Hrun) as (evs & Htr & Hn). exists evs. split; [done|lia].
  - intros a ->. by eapply Ht.
Qed.

Lemma quiet_bounded {A} (P : World → Prop) (c : M A) :
  bounded p 0 c → quiet p P c (fun _ _ => True).
Proof. intros Hb. apply quiet_intro; [done|]. by intros w a w' _ _. Qed.

Lemma quiet_bind {A B} (P : World → Prop) (c : M A) (Q : A → World → Prop)
    (k : A → M B) (R : B → World → Prop) :
  quiet p P c Q → (∀ a, quiet p (Q a) (k a) R) → quiet p P (bind c k) R.
Proof.
  intros Hc Hk w r w' HP. rewrite run_bind. destruct (c w) as [[a|e] w1] eqn:Hcw.
  - intros Hrun. destruct (Hc _ _ _ HP Hcw) as [(evs1 & Htr1 & Hn1) HQ].
    destruct (Hk a _ _ _ (HQ a eq_refl) Hrun) as [(evs2 & Htr2 & Hn2) HR].
    split; [|done]. exists (evs1 ++ evs2).
    rewrite Htr2, Htr1, <- app_assoc, count_events_app. split; [done|lia].
  - intros [= <- <-]. destruct (Hc _ _ _ HP Hcw) as [Hq _]. split; [done|]. by intros b.
Qed.

Lemma quiet_conseq {A} (P P' : World → Prop) (c : M A) (Q Q' : A → World → Prop) :
  quiet p P' c Q' → (∀ w, P w → P' w) → (∀ a w, Q' a w → Q a w) → quiet p P c Q.
Proof.
  intros Hc HP HQ w r w' Hw Hrun. destruct (Hc _ _ _ (HP _ Hw) Hrun) as [Hq Hr].
  split; [done|]. intros a ->. by eapply HQ, Hr.
Qed.

Lemma quiet_for_each {A S} (I : S → World → Prop) (l : list A) (body : A → S → M S) (s : S) :
  (∀ x s, x ∈ l → quiet p (I s) (body x s) I) →
  quiet p (I s) (for_each l body s) I.
Proof.
  revert s. induction l as [|x l IH]; intros s Hbody; cbn [for_each].
  - intros w r w' HI [= <- <-]. split; [|by intros a [= <-]].
    exists []. by rewrite app_nil_r.
  - eapply quiet_bind.
    + apply Hbody. by left.
    + intros s1. apply IH. intros y s2 Hy. apply Hbody. by right.
Qed.
End Quiet.

(** *** What the steps leave alone *)

Lemma loadRecord_store diruid : respects true (same store_view) (loadRecord diruid).
Proof. respects_auto same_leaf. Qed.

Lemma getCalendarSyncList_store txn : respects true (same store_view) (getCalendarSyncList txn tt).
Proof. respects_auto same_leaf. Qed.

Lemma getSyncState_store txn : respects true (same store_view) (getSyncState txn tt).
Proof. respects_auto same_leaf. Qed.

Lemma newCalendar_table diruid :
  respects true (same table_view) (in_txn diruid "newCalendar" (newCalendar diruid) tt).
Proof. respects_auto same_leaf. Qed.

Lemma syncCalendarMetaData_table diruid rec :
  respects true (same table_view)
    (in_txn diruid "syncCalendarMetaData" (syncCalendarMetaData diruid) rec).
Proof. respects_auto same_leaf. Qed.

Lemma findObjectsToSync_table diruid rec :
  respects true (same table_view)
    (in_txn diruid "findObjectsToSync" (findObjectsToSync diruid) rec).
Proof. respects_auto same_leaf. Qed.

Lemma purgeDeleted_table diruid rec deleted :
  respects true (same table_view) (purgeDeletedObjectsInBatches diruid rec deleted).
Proof. respects_auto same_leaf. Qed.

Lemma updateChanged_table diruid rec changed :
  respects true (same table_view) (updateChangedObjectsInBatches diruid rec changed).
Proof. respects_auto same_leaf. Qed.

Lemma syncAttachments_table diruid :
  respects true (same table_view) (syncAttachments diruid).
Proof. respects_auto same_leaf. Qed.

(** *** A sync that finds every token recorded *)

Lemma synced_on_store diruid h rss : on_store (synced diruid h rss).
Proof.
  intros w w' [= Hdb Hremote Hid] (Hh & Hr & Ht). unfold synced, home_id.
  by rewrite Hdb, Hremote.
Qed.

Lemma on_store_and (P Q : World → Prop) : on_store P → on_store Q → on_store (fun w => P w ∧ Q w).
Proof. intros HP HQ w w' Hv [Hp Hq]. split; [by eapply HP | by eapply HQ]. Qed.

Lemma on_store_homeId h : on_store (fun w => w_homeId w = Some h).
Proof. intros w w' [= Hdb Hremote Hid] Hh. congruence. Qed.

Lemma on_store_pure (φ : Prop) : on_store (fun _ => φ).
Proof. by intros w w' _ H. Qed.

Lemma quiet_pure p {A} (φ : Prop) (P : World → Prop) (c : M A) (Q : A → World → Prop) :
  (φ → quiet p P c Q) → quiet p (fun w => φ ∧ P w) c Q.
Proof. intros Hc w r w' [Hφ HP] Hrun. by eapply Hc. Qed.

Lemma prepareCalendarHome_again diruid h (P : World → Prop) :
  on_store P →
  triple (fun w => home_id diruid w = Some h ∧ P w)
    (in_txn diruid "prepareCalendarHome" (prepareCalendarHome diruid) tt)
    (fun a w => a = h ∧ P w).
Proof.
  intros HP w a w' [Hh Hp]. rewrite in_txn_run.
  unfold prepareCalendarHome, calendarHomeWithUID, home_id in *. run_lazy.
  destruct (db_homes (w_db w) !! migratingUid diruid) as [home|]; [|done].
  run_cbn. injection Hh as <-. intros [= <- <-]. split; [done|].
  eapply HP; [|done]. reflexivity.
Qed.

Lemma purgeLocal_keeps_remote diruid txn
    (local_state remote_state : gmap nat CalendarMigrationRecord) :
  triple (fun _ => True)
    (purgeLocal diruid txn (local_state, Some remote_state))
    (fun local_state' _ =>
       ∀ remoteID, remoteID ∈ dom remote_state →
         local_state' !! remoteID = local_state !! remoteID).
Proof.
  unfold purgeLocal.
  eapply triple_bind with (Q := fun _ _ => True); [done|]. intros t.
  eapply triple_bind with (Q := fun _ _ => True); [done|]. intros home.
  cbn [fmap option_fmap option_map attr_of].
  eapply triple_bind with (Q := fun a _ => a = dom remote_state ∧ True); [by intros w a w' _ [= <- <-]|].
  intros keys. apply triple_pure. intros ->.
  eapply triple_conseq;
    [apply (triple_for_each_inv
              (fun s _ => ∀ remoteID, remoteID ∈ dom remote_state →
                            s !! remoteID = local_state !! remoteID))
    | done | done].
  intros x s Hx w0 s' w0' Hs Hbody.
  apply elem_of_elements, elem_of_difference in Hx as [_ Hx].
  apply bind_Ok_inv in Hbody as (record & w1 & _ & Hbody).
  apply bind_Ok_inv in Hbody as (home' & w2 & _ & Hbody).
  apply bind_Ok_inv in Hbody as (calendar & w3 & _ & Hbody).
  apply bind_Ok_inv in Hbody as (u & w4 & _ & Hbody).
  injection Hbody as <- <-. intros remoteID Hr.
  rewrite lookup_delete_ne; [by apply Hs|]. by intros ->.
Qed.

Lemma syncCalendarList_again diruid h rss :
  quiet is_calendar_sync_work
    (fun w => synced diruid h rss w ∧ w_homeId w = Some h)
    (syncCalendarList diruid) (fun _ _ => True).
Proof.
  pose proof (on_store_and _ _ (synced_on_store diruid h rss) (on_store_homeId h)) as Hstore.
  unfold syncCalendarList.
  eapply quiet_bind with
    (Q := fun a w => a = Some rss ∧ (synced diruid h rss w ∧ w_homeId w = Some h)).
  { apply quiet_intro; [bounded0|]. apply triple_in_txn; [done| |].
    - intros a. by apply on_store_and; [apply on_store_pure|].
    - intros t w a w' HP Hrun. split.
      + apply getCalendarSyncList_result in Hrun. destruct HP as [(_ & Hr & _) _]. congruence.
      + eapply Hstore; [|done]. by eapply getCalendarSyncList_store. }
  intros remote_state. apply quiet_pure. intros ->.
  eapply quiet_bind with (Q := fun a w => tokens_agree a rss).
  { apply quiet_intro; [bounded0|]. apply triple_in_txn; [done| |].
    - intros a. apply on_store_pure.
    - intros t w a w' [(_ & _ & Hrec) Hh]. rewrite (getSyncState_run _ _ _ Hh).
      intros [= <- <-]. intros remoteID remote_record Hr.
      destruct (Hrec _ _ Hr) as [localID Hrow]. rewrite sync_state_lookup, Hrow. cbn. eauto. }
  intros local_state.
  eapply quiet_bind with (Q := fun a w => tokens_agree a rss).
  { apply quiet_intro; [bounded0|]. apply triple_in_txn.
    - by intros w w' _ H.
    - intros a. apply on_store_pure.
    - intros t w a w' Hagree Hrun.
      pose proof (purgeLocal_keeps_remote diruid (PyTxn t) local_state rss w a w' I Hrun)
        as Hkeep.
      intros remoteID remote_record Hr. rewrite Hkeep; [by eapply Hagree|].
      by apply elem_of_dom. }
  intros local_state'. cbn [attr_of].
  eapply quiet_bind with (Q := fun a _ => a = rss ∧ tokens_agree local_state' rss).
  { apply quiet_intro; [bounded0|]. by intros w a w' H [= <- <-]. }
  intros keys. apply quiet_pure. intros ->.
  eapply quiet_bind with (Q := fun _ _ => True); [|intros; apply quiet_bounded; bounded0].
  eapply quiet_conseq;
    [apply (quiet_for_each _ (fun s _ => tokens_agree s rss)) | by intros w Hw; apply Hw | done].
  intros remoteID s Hin.
  apply list_elem_of_fmap in Hin as ([k remote_record] & -> & Hin).
  apply elem_of_map_to_list in Hin. cbn [fst].
  intros w r w' Hagree Hrun.
  destruct (Hagree _ _ Hin) as (local_record & Hl & Htok). split.
  - destruct (syncCalendar_skip_quiet diruid _ _ _ _ _ Hl Hin Htok _ _ _ Hrun)
      as (evs & Htr & Hn).
    exists evs. split; [done|lia].
  - intros a ->. rewrite (syncCalendar_skip _ _ _ _ _ _ _ Hl Hin Htok) in Hrun.
    apply bind_Ok_inv in Hrun as (u & w1 & _ & Hrun). by injection Hrun as <- <-.
Qed.

Lemma sync_again diruid h rss :
  quiet is_calendar_sync_work (synced diruid h rss) (sync diruid) (fun _ _ => True).
Proof.
  pose proof (synced_on_store diruid h rss) as Hstore.
  unfold sync, call.
  eapply quiet_bind with (Q := fun _ => synced diruid h rss).
  { apply quiet_intro; [bounded0|]. apply triple_frame; [done|]. respects_auto same_leaf. }
  intros _.
  eapply quiet_bind with (Q := fun _ _ => True); [|intros; apply quiet_bounded; bounded0].
  eapply quiet_bind with (Q := fun _ => synced diruid h rss).
  { apply quiet_intro; [bounded0|]. apply triple_frame; [done|]. apply loadRecord_store. }
  intros _.
  eapply quiet_bind with (Q := fun a w => a = h ∧ synced diruid h rss w).
  { apply quiet_intro; [bounded0|].
    eapply triple_conseq; [by apply (prepareCalendarHome_again diruid h) | | done].
    intros w Hw. split; [apply Hw | done]. }
  intros homeId. apply quiet_pure. intros ->.
  eapply quiet_bind with (Q := fun _ w => synced diruid h rss w ∧ w_homeId w = Some h).
  { apply quiet_intro; [bounded0|]. intros w a w' Hw [= <- <-]. split; [exact Hw|done]. }
  intros _.
  eapply quiet_bind with (Q := fun _ _ => True); [|intros; apply quiet_bounded; bounded0].
  apply syncCalendarList_again.
Qed.

(** *** A sync that ends normally records every token *)

Lemma purgeLocal_homes diruid txn args :
  respects true (same homes_view) (purgeLocal diruid txn args).
Proof. respects_auto same_leaf. Qed.

Lemma purgeLocal_rows diruid t (lss rss : gmap nat CalendarMigrationRecord) h T0 :
  local_ids_distinct T0 →
  (∀ rid, lss !! rid = row_record h rid <$> T0 !! (h, rid)) →
  triple (fun w => migration_table w = T0)
    (purgeLocal diruid (PyTxn t) (lss, Some rss))
    (fun lss' w => ∀ rid, rid ∈ dom rss →
                     lss' !! rid = row_record h rid <$> migration_table w !! (h, rid)).
Proof.
  intros Hdistinct Hrows. unfold purgeLocal.
  eapply triple_bind with (Q := fun _ w => migration_table w = T0);
    [by intros w a w' H [= <- <-]|]. intros t'.
  eapply triple_bind with (Q := fun _ w => migration_table w = T0);
    [by intros w a w' H [= <- <-]|]. intros home.
  cbn [fmap option_fmap option_map attr_of].
  eapply triple_bind with (Q := fun a w => a = dom rss ∧ migration_table w = T0);
    [by intros w a w' H [= <- <-]|].
  intros keys. apply triple_pure. intros ->.
  eapply triple_conseq;
    [apply (triple_for_each_inv
              (fun s w => (∀ k rec, s !! k = Some rec → lss !! k = Some rec)
                          ∧ ∀ rid, rid ∈ dom rss →
                              s !! rid = lss !! rid
                              ∧ migration_table w !! (h, rid) = T0 !! (h, rid))) | | ].
  - intros x s Hx w0 s' w0' [Hsub Hkeep] Hbody.
    apply elem_of_elements, elem_of_difference in Hx as [_ Hx].
    unfold getitem, home_childWithID, calendar_purge in Hbody.
    destruct (s !! x) as [record|] eqn:Hrec; [|done].
    apply Hsub in Hrec. rewrite Hrows in Hrec.
    destruct (T0 !! (h, x)) as [row|] eqn:Hrow; [|done]. injection Hrec as <-.
    revert Hbody. run_lazy. destruct home as [home|]; [|done]. run_cbn.
    assert (Hstate : (∀ k rec, delete x s !! k = Some rec → lss !! k = Some rec)
                     ∧ ∀ rid, rid ∈ dom rss → delete x s !! rid = lss !! rid).
    { split.
      - intros k rec Hk. apply lookup_delete_Some in Hk as [_ Hk]. by apply Hsub.
      - intros rid Hrid. rewrite lookup_delete_ne by (by intros ->). by apply Hkeep. }
    destruct Hstate as [Hsub' Hkeep'].
    match goal with |- context [match ?c with Some _ => _ | None => _ end w0] =>
      destruct c as [calendar|] eqn:Hcal end.
    + assert (lc_id calendar = row.1) as Hid.
      { destruct (db_calendars (w_db w0) !! _) as [c|]; [|done].
        destruct (decide _); [|done]. by injection Hcal as <-. }
      run_cbn. intros [= <- <-]. split; [done|]. intros rid Hrid.
      split; [by apply Hkeep'|]. unfold migration_table. run_cbn.
      destruct (Hkeep rid Hrid) as [_ Hrid_row]. unfold migration_table in Hrid_row.
      rewrite <- Hrid_row.
      destruct (db_calendar_migration (w_db w0) !! (h, rid)) as [row'|] eqn:Hrow'.
      * apply map_lookup_filter_Some. split; [done|]. cbn. rewrite Hid. intros Heq.
        symmetry in Hrid_row.
        pose proof (Hdistinct _ _ _ _ Hrid_row Hrow Heq) as [= ->]. done.
      * apply map_lookup_filter_None. by left.
    + intros [= <- <-]. split; [done|]. intros rid Hrid. split; [by apply Hkeep'|].
      by apply Hkeep.
  - intros w Hw. split; [done|]. intros rid Hrid. by rewrite Hw.
  - intros lss' w [_ Hkeep] rid Hrid. destruct (Hkeep rid Hrid) as [-> ->]. apply Hrows.
Qed.

Lemma updateSyncState_homes txn args : respects true (same homes_view) (updateSyncState txn args).
Proof. respects_auto same_leaf. Qed.

Lemma updateSyncState_row t local_record token T :
  (cm_isnew local_record = false →
   ∃ token0, T !! (calendarHomeResourceID local_record, remoteResourceID local_record)
             = Some (localResourceID local_record, token0)) →
  triple (fun w => migration_table w = T)
    (updateSyncState (PyTxn t) (local_record, token))
    (fun _ w =>
       migration_table w !! (calendarHomeResourceID local_record, remoteResourceID local_record)
         = Some (localResourceID local_record, token)
       ∧ ∀ k, k ≠ (calendarHomeResourceID local_record, remoteResourceID local_record) →
              migration_table w !! k = T !! k).
Proof.
  intros Hrow w u w' <-. unfold updateSyncState, CalendarMigrationRecord_insert,
    CalendarMigrationRecord_update, migration_table.
  destruct (cm_isnew local_record).
  - run_lazy.
    destruct (db_calendar_migration (w_db w) !! _) as [row|]; [done|]. run_cbn.
    intros [= <-]; subst w'. run_cbn. split; [by rewrite lookup_insert_eq|].
    intros k Hk. by rewrite lookup_insert_ne.
  - run_lazy. intros [= <-]; subst w'. run_cbn. destruct (Hrow eq_refl) as [token0 Hrow0].
    unfold migration_table in Hrow0. split.
    + by rewrite lookup_alter_eq, Hrow0.
    + intros k Hk. by rewrite lookup_alter_ne.
Qed.

Lemma on_store_table (Q : gmap (nat * nat) (nat * option string) → Prop) :
  on_store (fun w => Q (migration_table w)).
Proof. intros w w' [= Hdb _ _]. unfold migration_table. by rewrite Hdb. Qed.

Lemma syncCalendar_homes diruid x s rss :
  respects true (same homes_view) (syncCalendar diruid x s rss).
Proof. respects_auto same_leaf. Qed.

Lemma syncCalendar_records diruid x (s rss : gmap nat CalendarMigrationRecord) remote_record h T :
  rss !! x = Some remote_record →
  s !! x = row_record h x <$> T !! (h, x) →
  triple (fun w => w_homeId w = Some h ∧ migration_table w = T)
    (syncCalendar diruid x s rss)
    (fun s1 w =>
       (∃ localID, migration_table w !! (h, x) = Some (localID, lastSyncToken remote_record))
       ∧ (∀ k, k ≠ (h, x) → migration_table w !! k = T !! k)
       ∧ ∀ rid, rid ≠ x → s1 !! rid = s !! rid).
Proof.
  intros Hrss Hsx w s1 w' [Hh HT] Hrun. unfold syncCalendar in Hrun.
  apply bind_Ok_inv in Hrun as (s0 & w1 & Hfirst & Hrun).
  assert (same table_view w w1
          ∧ ∃ local_record, s0 !! x = Some local_record
              ∧ calendarHomeResourceID local_record = h
              ∧ remoteResourceID local_record = x
              ∧ (cm_isnew local_record = false →
                 ∃ token0, T !! (h, x) = Some (localResourceID local_record, token0))
              ∧ ∀ rid, rid ≠ x → s0 !! rid = s !! rid) as (Hw1 & local_record & Hs0 & Hhome & Hremote & Hold & Hrest).
  { destruct (s !! x) as [local_record|] eqn:Hx.
    - injection Hfirst as <- <-. split; [done|]. exists local_record.
      destruct (T !! (h, x)) as [row|]; [|done]. injection Hsx as ->.
      split; [done|]. cbn. split; [done|]. split; [done|].
      split; [|done]. intros _. exists row.2. by destruct row.
    - apply bind_Ok_inv in Hfirst as (localID & wa & Hnew & Hfirst).
      pose proof (newCalendar_table diruid _ _ _ Hnew (fun _ => eq_refl)) as Hview.
      unfold self_homeId in Hfirst. revert Hfirst. run_lazy.
      pose proof Hview as [= _ _ Hid _]. rewrite Hid, Hh. run_cbn. intros [= <- <-].
      split; [done|]. eexists. rewrite lookup_insert_eq. split; [done|]. cbn.
      split; [done|]. split; [done|]. split; [done|].
      intros rid Hrid. by rewrite lookup_insert_ne. }
  unfold getitem in Hrun. rewrite Hrss, Hs0 in Hrun. run_cbn_in Hrun.
  apply bind_Ok_inv in Hrun as (u & w2 & Hwork & Hrun).
  assert (same table_view w1 w2) as Hw2.
  { revert Hwork. match goal with |- ?c _ = _ → _ =>
      assert (respects true (same table_view) c) as Hframe by respects_auto same_leaf end.
    intros Hwork. by eapply Hframe. }
  apply bind_Ok_inv in Hrun as (u' & w3 & Hupdate & Hrun). injection Hrun as <- <-.
  assert (migration_table w2 = T) as HT2.
  { unfold same, table_view in Hw1, Hw2. unfold migration_table in *. congruence. }
  assert (Hold' : cm_isnew local_record = false →
            ∃ token0, T !! (calendarHomeResourceID local_record, remoteResourceID local_record)
                      = Some (localResourceID local_record, token0)).
  { by rewrite Hhome, Hremote. }
  assert (Htriple :
    triple (fun w => migration_table w = T)
      (in_txn diruid "updateSyncState" updateSyncState
         (local_record, lastSyncToken remote_record))
      (fun _ w =>
         (fun table => table !! (h, x)
                       = Some (localResourceID local_record, lastSyncToken remote_record)
                       ∧ ∀ k, k ≠ (h, x) → table !! k = T !! k) (migration_table w))).
  { apply triple_in_txn.
    - apply (on_store_table (fun table => table = T)).
    - intros _ w0 w0' [= Hdb _ _]. unfold migration_table. by rewrite Hdb.
    - intros t. eapply triple_conseq; [by apply updateSyncState_row | done |].
      cbn beta. intros _ w0. by rewrite Hhome, Hremote. }
  pose proof (Htriple w2 u' w3 HT2 Hupdate) as Hpost.
  cbn beta in Hpost. destruct Hpost as [Hnew Hothers].
  split; [eauto|]. split; [done|]. done.
Qed.

Lemma getCalendarSyncList_in_txn diruid V :
  triple (fun w => store_view w = V)
    (in_txn diruid "getCalendarSyncList" getCalendarSyncList tt)
    (fun a w => store_view w = V ∧ a = remote_sync_state V.1.2).
Proof.
  apply triple_in_txn.
  - intros w w' Hv Hw. congruence.
  - intros a w w' Hv [Hw Ha]. split; congruence.
  - intros t w a w' Hw Hrun. split.
    + rewrite <- Hw. by eapply getCalendarSyncList_store.
    + apply getCalendarSyncList_result in Hrun. by subst.
Qed.

Lemma getSyncState_in_txn diruid V h :
  triple (fun w => store_view w = V ∧ w_homeId w = Some h)
    (in_txn diruid "getSyncState" getSyncState tt)
    (fun a w => store_view w = V
                ∧ ∀ rid, a !! rid = row_record h rid <$> db_calendar_migration V.1.1 !! (h, rid)).
Proof.
  apply triple_in_txn.
  - intros w w' Hv [Hw Hh]. pose proof Hv as [= _ _ Hid]. split; congruence.
  - intros a w w' Hv [Hw Ha]. split; [congruence|done].
  - intros t w a w' [Hw Hh]. rewrite (getSyncState_run _ _ _ Hh). intros [= <- <-].
    split; [done|]. intros rid. rewrite sync_state_lookup. by subst V.
Qed.

Lemma purgeLocal_in_txn_homes diruid args :
  respects true (same homes_view) (in_txn diruid "purgeLocal" (purgeLocal diruid) args).
Proof. respects_auto same_leaf. Qed.

Lemma syncCalendarList_records diruid h :
  triple (fun w => w_homeId w = Some h ∧ local_ids_distinct (migration_table w))
    (syncCalendarList diruid)
    (fun _ w => ∃ rss, remote_sync_state (w_remote w) = Some rss
                       ∧ tokens_recorded h rss (w_db w)).
Proof.
  intros w u w' [Hh Hdistinct] Hrun. unfold syncCalendarList in Hrun.
  apply bind_Ok_inv in Hrun as (rs & w1 & Hget & Hrun).
  apply (getCalendarSyncList_in_txn diruid (store_view w)) in Hget as [Hv1 ->]; [|done].
  apply bind_Ok_inv in Hrun as (lss & w2 & Hstate & Hrun).
  apply (getSyncState_in_txn diruid (store_view w) h) in Hstate as [Hv2 Hrows].
  2:{ split; [done|]. pose proof Hv1 as [= _ _ Hid]. congruence. }
  apply bind_Ok_inv in Hrun as (lss' & w3 & Hpurge & Hrun).
  apply bind_Ok_inv in Hrun as (rss' & w3' & Hkeys & Hrun).
  cbn [store_view fst snd] in Hrows, Hkeys, Hpurge.
  destruct (remote_sync_state (w_remote w)) as [rss|] eqn:Hremote; [|done].
  injection Hkeys as <- <-.
  apply bind_Ok_inv in Hrun as (s_fin & w4 & Hloop & Hrun). injection Hrun as _ <-.
  pose proof (purgeLocal_in_txn_homes diruid _ _ _ _ Hpurge (fun _ => eq_refl)) as Hv3.
  set (T0 := migration_table w) in *.
  assert (Hstart : ∀ rid, rid ∈ dom rss →
            lss' !! rid = row_record h rid <$> migration_table w3 !! (h, rid)).
  { assert (Ht : triple (fun w0 => migration_table w0 = T0)
                   (in_txn diruid "purgeLocal" (purgeLocal diruid) (lss, Some rss))
                   (fun lss' w0 => ∀ rid, rid ∈ dom rss →
                      lss' !! rid = row_record h rid <$> migration_table w0 !! (h, rid))).
    { apply triple_in_txn.
      - apply (on_store_table (fun table => table = T0)).
      - intros a w0 w0' [= Hdb _ _]. unfold migration_table. by rewrite Hdb.
      - intros t. by apply purgeLocal_rows. }
    eapply Ht; [|done]. pose proof Hv2 as [= Hdb _ _]. unfold T0, migration_table.
    by rewrite Hdb. }
  assert (Hhomes3 : w_homeId w3 = Some h ∧ w_remote w3 = w_remote w).
  { pose proof Hv2 as [= _ Hr2 Hid2]. pose proof Hv3 as [= Hr3 Hid3 _]. split; congruence. }
  destruct Hhomes3 as [Hh3 Hr3].
  set (I := fun (done : list nat) (s : gmap nat CalendarMigrationRecord) (w0 : World) =>
              (w_homeId w0 = Some h ∧ w_remote w0 = w_remote w)
              ∧ (∀ rid, rid ∈ done →
                   ∃ remote_record localID, rss !! rid = Some remote_record
                     ∧ migration_table w0 !! (h, rid)
                       = Some (localID, lastSyncToken remote_record))
              ∧ (∀ rid, rid ∈ dom rss → rid ∉ done →
                   s !! rid = row_record h rid <$> migration_table w0 !! (h, rid))).
  assert (Hend : I (map_to_list rss).*1 s_fin w4).
  { revert Hloop. apply (triple_for_each I).
    - intros pre x post s Hl w0 s1 w0' ((Hh0 & Hr0) & Hdone & Htodo) Hstep.
      assert (Hx : x ∉ pre).
      { pose proof (NoDup_fst_map_to_list rss) as Hnd. rewrite Hl in Hnd.
        apply NoDup_app in Hnd as (_ & Hnd & _). intros Hin. apply (Hnd x Hin). by left. }
      assert (Hrx : ∃ remote_record, rss !! x = Some remote_record).
      { assert (x ∈ (map_to_list rss).*1) as Hin by (rewrite Hl; set_solver).
        apply list_elem_of_fmap in Hin as ([k v] & -> & Hin).
        apply elem_of_map_to_list in Hin. eauto. }
      destruct Hrx as [remote_record Hrx].
      pose proof (syncCalendar_homes diruid _ _ _ _ _ _ Hstep (fun _ => eq_refl))
        as [= Hr1 Hid1 _].
      pose proof (syncCalendar_records diruid x s rss remote_record h (migration_table w0)
                    Hrx (Htodo x ltac:(by apply elem_of_dom) Hx) w0 s1 w0'
                    (conj Hh0 eq_refl) Hstep) as (Hnew & Hothers & Hstate).
      split; [split; congruence|]. split.
      + intros rid Hrid. apply elem_of_app in Hrid as [Hrid|Hrid].
        * assert (rid ≠ x) as Hne by (by intros ->).
          rewrite Hothers by congruence. by apply Hdone.
        * apply list_elem_of_singleton in Hrid as ->. destruct Hnew as [localID Hrow]. eauto.
      + intros rid Hrid Hnot.
        assert (rid ≠ x) as Hne.
        { intros ->. apply Hnot, elem_of_app. right. by left. }
        rewrite Hstate, Hothers by congruence. apply Htodo; [done|].
        intros Hin. apply Hnot, elem_of_app. by left.
    - split; [done|]. split; [set_solver|]. intros rid Hrid _. by apply Hstart. }
  destruct Hend as ((_ & Hr4) & Hdone & _).
  exists rss. split; [congruence|]. intros rid remote_record Hrid.
  destruct (Hdone rid) as (remote_record' & localID & Hrid' & Hrow).
  { apply list_elem_of_fmap. exists (rid, remote_record). split; [done|].
    by apply elem_of_map_to_list. }
  rewrite Hrid in Hrid'. injection Hrid' as <-. eauto.
Qed.

Lemma keep_view_copyMetadata diruid meta uid w :
  same (keep_view diruid) w
    (set_db (with_homes (alter (fun h => mkHome (h_id h) meta (h_migratingUID h)) uid)) w).
Proof.
  unfold same, keep_view, home_id, migration_table. cbn. f_equal.
  destruct (decide (uid = migratingUid diruid)) as [->|Hne].
  - rewrite lookup_alter_eq. by destruct (db_homes (w_db w) !! _).
  - by rewrite lookup_alter_ne.
Qed.

Ltac keep_leaf := intros; first [reflexivity | apply keep_view_copyMetadata].

Lemma syncCalendarHomeMetaData_keep diruid :
  respects true (same (keep_view diruid))
    (in_txn diruid "syncCalendarHomeMetaData" (syncCalendarHomeMetaData diruid) tt).
Proof. respects_auto keep_leaf. Qed.

Lemma syncCalendarList_homes diruid : respects true (same homes_view) (syncCalendarList diruid).
Proof. respects_auto same_leaf. Qed.

Lemma prepareCalendarHome_first diruid :
  triple (fun _ => True)
    (in_txn diruid "prepareCalendarHome" (prepareCalendarHome diruid) tt)
    (fun h w => home_id diruid w = Some h).
Proof.
  apply triple_in_txn.
  - done.
  - intros h w w' [= Hdb _ _]. unfold home_id. by rewrite Hdb.
  - intros t w h w' _. unfold prepareCalendarHome, calendarHomeWithUID_create,
      calendarHomeWithUID, fresh_id, home_id. run_lazy.
    destruct (db_homes (w_db w) !! migratingUid diruid) as [home|] eqn:Hhome; run_cbn.
    + intros [= <- <-]. by rewrite Hhome.
    + rewrite Hhome. run_cbn. intros [= <- <-]. run_cbn. by rewrite lookup_insert_eq.
Qed.

Lemma prepareCalendarHome_table diruid :
  respects true (same (fun w => (migration_table w, w_remote w)))
    (in_txn diruid "prepareCalendarHome" (prepareCalendarHome diruid) tt).
Proof. respects_auto same_leaf. Qed.

Lemma sync_first diruid :
  triple (fun w => local_ids_distinct (migration_table w)) (sync diruid)
    (fun _ w => ∃ h rss, synced diruid h rss w).
Proof.
  intros w u w' Hdistinct Hrun. unfold sync, call in Hrun.
  apply bind_Ok_inv in Hrun as (u0 & w0 & Henter & Hrun). injection Henter as _ <-.
  apply bind_Ok_inv in Hrun as (r & wb & Hbody & Hrun).
  apply bind_Ok_inv in Hrun as (u1 & w9 & Hleave & Hrun).
  injection Hleave as _ <-. injection Hrun as _ <-.
  apply bind_Ok_inv in Hbody as (u2 & w1 & Hload & Hbody).
  pose proof (loadRecord_store diruid _ _ _ Hload (fun _ => eq_refl)) as [= Hdb1 Hr1 _].
  apply bind_Ok_inv in Hbody as (h & w2 & Hprepare & Hbody).
  pose proof (prepareCalendarHome_first diruid _ _ _ I Hprepare) as Hhome2.
  pose proof (prepareCalendarHome_table diruid _ _ _ Hprepare (fun _ => eq_refl))
    as [= HT2 Hr2].
  apply bind_Ok_inv in Hbody as (u3 & w3 & Hset & Hbody). injection Hset as _ <-.
  apply bind_Ok_inv in Hbody as (u4 & w4 & Hlist & Hbody).
  pose proof (syncCalendarList_homes diruid _ _ _ Hlist (fun _ => eq_refl)) as [= Hr4 _ Hhomes4].
  apply (syncCalendarList_records diruid h) in Hlist as (rss & Hrss & Htokens).
  2:{ split; [done|]. unfold migration_table in *. cbn. rewrite HT2, Hdb1. done. }
  apply bind_Ok_inv in Hbody as (u5 & w5 & Hmeta & Hbody).
  pose proof (syncCalendarHomeMetaData_keep diruid _ _ _ Hmeta (fun _ => eq_refl))
    as [= HT5 Hr5 Hhome5].
  apply bind_Ok_inv in Hbody as (u6 & w6 & Hatt & Hbody). injection Hbody as _ <-.
  pose proof (syncAttachments_table diruid _ _ _ Hatt (fun _ => eq_refl))
    as [= HT6 Hr6 _ Hhomes6].
  exists h, rss. unfold synced, tokens_recorded, home_id, migration_table in *. cbn in *.
  rewrite Hhomes6, Hr6, HT6, HT5, Hr5, Hhome5, Hhomes4. done.
Qed.

(** C4. For a calendar whose stored sync token equals the current remote
    token, [syncCalendar] skips the meta-data sync and the object sync: it
    runs as [updateSyncState] alone, [resourceNamesSinceToken] is not called
    and no object resource is written.  Consequently a [sync] run right after
    a [sync] that ended normally (the remote pod unchanged, the rows of the
    migration table pointing to local calendars of their own) does none of
    that work for any calendar and writes no calendar object. *)
Theorem C4_token_short_circuit (diruid : string) :
  skips_on_equal_tokens diruid ∧ second_sync_writes_nothing diruid.
Proof.
  split.
  - intros remoteID lss rss local_record remote_record Hl Hr Htok. split.
    + intros w. by apply syncCalendar_skip.
    + by eapply syncCalendar_skip_quiet.
  - intros w w1 r2 w2 Hdistinct Hfirst Hsecond.
    destruct (sync_first diruid w tt w1 Hdistinct Hfirst) as (h & rss & Hsynced).
    destruct (sync_again diruid h rss w1 r2 w2 Hsynced Hsecond) as [(evs & Htr & Hn) _].
    exists evs. split; [done|]. split; [done|].
    pose proof (count_events_le_any is_object_write is_calendar_sync_work evs) as Hle.
    assert (count_events is_object_write evs ≤ count_events is_calendar_sync_work evs);
      [|lia].
    apply Hle. by intros [].
Qed.

Lemma C4_token_short_circuit_witness :
  ∃ w1 w2,
    sync Scenario.diruid Scenario.fresh_world = (Ok tt, w1)
    ∧ count_events is_object_write (w_trace w1) = 2
    ∧ sync Scenario.diruid w1 = (Ok tt, w2)
    ∧ ∃ evs, w_trace w2 = w_trace w1 ++ evs
        ∧ count_events is_calendar_sync_work evs = 0
        ∧ count_events is_object_write evs = 0.
Proof.
  exists (sync Scenario.diruid Scenario.fresh_world).2.
  exists (sync Scenario.diruid (sync Scenario.diruid Scenario.fresh_world).2).2.
  assert (Hfirst : sync Scenario.diruid Scenario.fresh_world
                   = (Ok tt, (sync Scenario.diruid Scenario.fresh_world).2)).
  { vm_compute. reflexivity. }
  assert (Hsecond : sync Scenario.diruid (sync Scenario.diruid Scenario.fresh_world).2
                    = (Ok tt, (sync Scenario.diruid
                                 (sync Scenario.diruid Scenario.fresh_world).2).2)).
  { vm_compute. reflexivity. }
  split; [exact Hfirst|]. split; [vm_compute; reflexivity|]. split; [exact Hsecond|].
  assert (Hdistinct : local_ids_distinct (migration_table Scenario.fresh_world)).
  { intros k k' row row' Hk. unfold migration_table in Hk. cbn in Hk.
    by rewrite lookup_empty in Hk. }
  exact (proj2 (C4_token_short_circuit Scenario.diruid) _ _ _ _ Hdistinct Hfirst Hsecond).
Defined.

(** ** The attachment table *)

(** *** The dicts built from the tables *)

Lemma py_dict_of_map {K A B} `{Countable K} (f : K → A → B) (m : gmap K A) (k : K) :
  py_dict ((fun kv : K * A => (kv.1, f kv.1 kv.2)) <$> map_to_list m) !! k = f k <$> m !! k.
Proof.
  assert (Hnd : NoDup (((fun kv : K * A => (kv.1, f kv.1 kv.2)) <$> map_to_list m).*1)).
  { rewrite <- list_fmap_compose. apply NoDup_fst_map_to_list. }
  destruct (m !! k) as [a|] eqn:Hk; cbn.
  - apply py_dict_lookup; [done|]. apply list_elem_of_fmap. exists (k, a). split; [done|].
    by apply elem_of_map_to_list.
  - apply py_dict_lookup_None. rewrite <- list_fmap_compose. intros Hin.
    apply list_elem_of_fmap in Hin as ([k' a] & Heq & Hin). cbn in Heq. subst k'.
    apply elem_of_map_to_list in Hin. by rewrite Hk in Hin.
Qed.

Lemma rows_of_home_lookup {B} (f : nat → nat → nat → B) (key : B → nat) (h : nat)
    (table : gmap (nat * nat) nat) (rid : nat) :
  (∀ a b c, key (f a b c) = b) →
  py_dict ((fun record => (key record, record))
           <$> ((fun kv : nat * nat * nat => f kv.1.1 kv.1.2 kv.2)
                <$> map_to_list (filter (fun kv : nat * nat * nat => kv.1.1 = h) table))) !! rid
  = f h rid <$> table !! (h, rid).
Proof.
  intros Hkey. set (rows := map_to_list _).
  assert (Hrows : ∀ kv, kv ∈ rows ↔ table !! kv.1 = Some kv.2 ∧ kv.1.1 = h).
  { intros [k v]. subst rows. rewrite elem_of_map_to_list, map_lookup_filter_Some. done. }
  assert (Hnd : NoDup rows) by apply NoDup_map_to_list.
  rewrite <- list_fmap_compose.
  destruct (table !! (h, rid)) as [row|] eqn:Hrow; cbn.
  - apply py_dict_lookup.
    + rewrite <- list_fmap_compose. apply NoDup_fmap_2_strong; [|done].
      intros [[h1 r1] v1] [[h2 r2] v2] H1 H2. cbn. rewrite !Hkey. intros ->.
      apply Hrows in H1 as [H1 Hh1], H2 as [H2 Hh2]. cbn in *. subst h1 h2.
      rewrite H1 in H2. by injection H2 as ->.
    + apply list_elem_of_fmap. exists ((h, rid), row). cbn. rewrite Hkey. split; [done|].
      by apply Hrows.
  - apply py_dict_lookup_None. rewrite <- list_fmap_compose. intros Hin.
    apply list_elem_of_fmap in Hin as ([[h1 r1] v1] & Heq & Hin). cbn in Heq.
    rewrite Hkey in Heq. subst r1.
    apply Hrows in Hin as [Hin Hh]. cbn in *. subst h1. by rewrite Hrow in Hin.
Qed.

Lemma attachment_mapping_lookup h rows (rid : nat) :
  attachment_mapping h rows !! rid = rows !! (h, rid).
Proof.
  unfold attachment_mapping. set (l := map_to_list _).
  assert (Hrows : ∀ kv, kv ∈ l ↔ rows !! kv.1 = Some kv.2 ∧ kv.1.1 = h).
  { intros [k v]. subst l. rewrite elem_of_map_to_list, map_lookup_filter_Some. done. }
  assert (Hnd : NoDup l) by apply NoDup_map_to_list.
  destruct (rows !! (h, rid)) as [row|] eqn:Hrow.
  - apply elem_of_list_to_map.
    + rewrite <- list_fmap_compose. apply NoDup_fmap_2_strong; [|done].
      intros [[h1 r1] v1] [[h2 r2] v2] H1 H2. cbn. intros ->.
      apply Hrows in H1 as [H1 Hh1], H2 as [H2 Hh2]. cbn in *. subst h1 h2.
      rewrite H1 in H2. by injection H2 as ->.
    + apply list_elem_of_fmap. exists ((h, rid), row). split; [done|]. by apply Hrows.
  - apply not_elem_of_list_to_map. rewrite <- list_fmap_compose. intros Hin.
    apply list_elem_of_fmap in Hin as ([[h1 r1] v1] & Heq & Hin). cbn in Heq. subst r1.
    apply Hrows in Hin as [Hin Hh]. cbn in *. subst h1. by rewrite Hrow in Hin.
Qed.

(** *** The three loops *)

Lemma pairs_in_cons (M : gmap nat nat) rid l ids :
  M !! rid = Some l → pairs_in M (rid :: ids) = (rid, l) :: pairs_in M ids.
Proof. intros Hl. unfold pairs_in. cbn. by rewrite Hl. Qed.

Lemma removal_step (t h : nat) (mapping : gmap nat IdMigrationRecord) (rid l : nat) (w : World) :
  mapping !! rid = Some (mkIdMigrationRecord h rid l) →
  (record <- getitem mapping rid ;;
   att <- ManagedAttachment_load t (im_local record) ;;
   match att with
   | Some att => attachment_remove att false
   | None => AttachmentMigrationRecord_delete t record
   end) w
  = (Ok tt,
     if decide (l ∈ dom (db_attachments (w_db w)))
     then record_event (EvAttachmentRemove t l false)
            (set_db (fun db =>
                       with_attachments (delete l)
                         (with_attachment_migration (filter (fun kv => kv.2 ≠ l))
                            (with_links (filter (fun l0 => l_attachmentID l0 ≠ l)) db)))
               (record_event (EvAttachmentLoad t l) w))
     else record_event (EvAttachmentRecordDelete t rid)
            (set_db (with_attachment_migration (delete (h, rid)))
               (record_event (EvAttachmentLoad t l) w))).
Proof.
  intros Hrid.
  unfold getitem, ManagedAttachment_load, attachment_remove, AttachmentMigrationRecord_delete.
  rewrite Hrid. run_lazy. cbn [im_home im_remote im_local].
  destruct (db_attachments (w_db w) !! l) as [row|] eqn:Hrow; run_cbn.
  - by rewrite decide_True by (apply elem_of_dom; eauto).
  - by rewrite decide_False by (by rewrite not_elem_of_dom).
Qed.

Lemma removal_loop (t h : nat) (mapping : gmap nat IdMigrationRecord) (M : gmap nat nat)
    (ids : list nat) (w : World) :
  (∀ rid, mapping !! rid = mkIdMigrationRecord h rid <$> M !! rid) →
  (∀ rid, rid ∈ ids → is_Some (M !! rid)) →
  ∃ w',
    for_each_ ids (fun remove_id =>
      record <- getitem mapping remove_id ;;
      att <- ManagedAttachment_load t (im_local record) ;;
      match att with
      | Some att => attachment_remove att false
      | None => AttachmentMigrationRecord_delete t record
      end) w = (Ok tt, w')
    ∧ w_trace w' = w_trace w
        ++ removal_events t (dom (db_attachments (w_db w))) (pairs_in M ids)
    ∧ w_next_id w' = w_next_id w
    ∧ ∀ k, db_attachment_migration (w_db w) !! k = None →
           db_attachment_migration (w_db w') !! k = None.
Proof.
  intros Hmapping. revert w. unfold for_each_.
  induction ids as [|rid ids IH]; intros w Hids; cbn [for_each pairs_in omap].
  - exists w. by rewrite app_nil_r.
  - destruct (Hids rid ltac:(by left)) as [l Hl].
    rewrite run_bind, (removal_step t h mapping rid l) by (by rewrite Hmapping, Hl).
    rewrite (pairs_in_cons M rid l) by done. cbn [removal_events].
    match goal with |- context [for_each ids _ tt ?w1] =>
      destruct (IH w1) as (w' & Hrun & Htr & Hid & Hrows) end.
    { intros rid' Hin. apply Hids. by right. }
    exists w'. split; [done|]. rewrite Htr, Hid.
    destruct (decide (l ∈ dom (db_attachments (w_db w)))) as [Hin|Hin]; run_cbn.
    + split; [|split; [done|]].
      * rewrite dom_delete_L. rewrite <- !app_assoc. reflexivity.
      * intros k Hk. apply Hrows. run_cbn. apply map_lookup_filter_None. by left.
    + split; [|split; [done|]].
      * rewrite <- !app_assoc. reflexivity.
      * intros k Hk. apply Hrows. run_cbn.
        destruct (decide (k = (h, rid))) as [->|Hne];
          [apply lookup_delete_eq | by rewrite lookup_delete_ne].
Qed.

Lemma creation_step (t h rid : nat) (acc : gset nat) (w : World) :
  db_attachment_migration (w_db w) !! (h, rid) = None →
  (attachment <- ManagedAttachment_create t h ;;
   AttachmentMigrationRecord_create t h rid (la_id attachment) ;;;
   ret (acc ∪ {[la_id attachment]})) w
  = (Ok (acc ∪ {[w_next_id w]}),
     record_event (EvAttachmentRecordCreate t rid (w_next_id w))
       (set_db (with_attachment_migration (insert (h, rid) (w_next_id w)))
          (record_event (EvAttachmentCreate t (w_next_id w))
             (set_db (with_attachments (insert (w_next_id w) (mkAttachment h "" "" "")))
                (set_next_id (S (w_next_id w)) w))))).
Proof.
  intros Hrow.
  unfold ManagedAttachment_create, AttachmentMigrationRecord_create, fresh_id. run_lazy.
  rewrite Hrow. reflexivity.
Qed.

Lemma creation_loop (t h : nat) (ids : list nat) (acc : gset nat) (w : World) :
  NoDup ids →
  (∀ rid, rid ∈ ids → db_attachment_migration (w_db w) !! (h, rid) = None) →
  ∃ w',
    for_each ids (fun (added_id : nat) (data_ids : gset nat) =>
      attachment <- ManagedAttachment_create t h ;;
      AttachmentMigrationRecord_create t h added_id (la_id attachment) ;;;
      ret (data_ids ∪ {[la_id attachment]})) acc w
    = (Ok (acc ∪ list_to_set (seq (w_next_id w) (length ids))), w')
    ∧ w_trace w' = w_trace w ++ creation_events t (w_next_id w) ids.
Proof.
  revert acc w. induction ids as [|rid ids IH]; intros acc w Hnd Hrows; cbn [for_each].
  - exists w. cbn. rewrite app_nil_r. split; [|done]. by rewrite (right_id_L ∅ (∪)).
  - apply NoDup_cons in Hnd as [Hrid Hnd].
    rewrite run_bind, creation_step by (apply Hrows; by left).
    match goal with |- context [for_each ids _ ?acc1 ?w1] =>
      destruct (IH acc1 w1 Hnd) as (w' & Hrun & Htr) end.
    { intros rid' Hin. run_cbn. rewrite lookup_insert_ne; [apply Hrows; by right|].
      intros [= ->]. done. }
    exists w'. rewrite Hrun, Htr. run_cbn. split.
    + cbn [length seq list_to_set]. by rewrite (assoc_L (∪)).
    + unfold creation_events. cbn [length seq zip_with concat].
      rewrite <- !app_assoc. reflexivity.
Qed.

Lemma update_step (t h : nat) (mapping : gmap nat IdMigrationRecord)
    (rmap : gmap nat RemoteAttachment) (lmap : gmap nat LocalAttachment)
    (rid l : nat) (ra la : Attachment) (acc : gset nat) (w : World) :
  mapping !! rid = Some (mkIdMigrationRecord h rid l) →
  rmap !! rid = Some (mkRemoteAttachment rid ra) →
  lmap !! l = Some (mkLocalAttachment t l la) →
  (record <- getitem mapping rid ;;
   let local_id := im_local record in
   remote <- getitem rmap rid ;;
   local <- getitem lmap local_id ;;
   if decide (a_md5 (ra_row remote) ≠ a_md5 (la_row local)) then
     attachment_copyRemote local remote ;;;
     ret (acc ∪ {[local_id]})
   else ret acc) w
  = if bool_decide (a_md5 ra ≠ a_md5 la)
    then (Ok (acc ∪ {[l]}),
          record_event (EvAttachmentCopyRemote t l rid)
            (set_db (with_attachments (alter (fun row =>
               mkAttachment (a_home row) (a_md5 ra) (a_meta ra) (a_data row)) l)) w))
    else (Ok acc, w).
Proof.
  intros Hm Hr Hl. unfold getitem, attachment_copyRemote. rewrite Hm. run_lazy.
  cbn [im_local]. rewrite Hr, Hl. run_cbn.
  destruct (decide (a_md5 ra ≠ a_md5 la)) as [Hne|Heq].
  - by rewrite bool_decide_eq_true_2.
  - by rewrite bool_decide_eq_false_2.
Qed.

Lemma update_loop (t h : nat) (mapping : gmap nat IdMigrationRecord)
    (rmap : gmap nat RemoteAttachment) (lmap : gmap nat LocalAttachment)
    (M : gmap nat nat) (A L : gmap nat Attachment)
    (ids : list nat) (acc : gset nat) (w : World) :
  (∀ rid, mapping !! rid = mkIdMigrationRecord h rid <$> M !! rid) →
  (∀ rid, rmap !! rid = mkRemoteAttachment rid <$> A !! rid) →
  (∀ l, lmap !! l = mkLocalAttachment t l <$> L !! l) →
  (∀ rid, rid ∈ ids → ∃ l, M !! rid = Some l ∧ is_Some (A !! rid) ∧ is_Some (L !! l)) →
  ∃ w',
    for_each ids (fun (updated_id : nat) (data_ids : gset nat) =>
      record <- getitem mapping updated_id ;;
      let local_id := im_local record in
      remote <- getitem rmap updated_id ;;
      local <- getitem lmap local_id ;;
      if decide (a_md5 (ra_row remote) ≠ a_md5 (la_row local)) then
        attachment_copyRemote local remote ;;;
        ret (data_ids ∪ {[local_id]})
      else ret data_ids) acc w
    = (Ok (acc ∪ list_to_set
                   (filter (fun pair => md5_differs A L pair = true) (pairs_in M ids)).*2), w')
    ∧ w_trace w' = w_trace w ++ copy_events t A L (pairs_in M ids).
Proof.
  intros Hmapping Hrmap Hlmap. revert acc w.
  induction ids as [|rid ids IH]; intros acc w Hids; cbn [for_each].
  - exists w. cbn. rewrite app_nil_r. split; [|done]. by rewrite (right_id_L ∅ (∪)).
  - destruct (Hids rid ltac:(by left)) as (l & Hl & [ra Hra] & [la Hla]).
    rewrite run_bind, (update_step t h mapping rmap lmap rid l ra la);
      [|by rewrite Hmapping, Hl|by rewrite Hrmap, Hra|by rewrite Hlmap, Hla].
    rewrite (pairs_in_cons M rid l) by done.
    unfold copy_events. rewrite !filter_cons.
    assert (md5_differs A L (rid, l) = bool_decide (a_md5 ra ≠ a_md5 la)) as Hmd5.
    { unfold md5_differs. cbn. by rewrite Hra, Hla. }
    rewrite Hmd5.
    destruct (bool_decide (a_md5 ra ≠ a_md5 la)) eqn:Hdiff; cbv beta iota.
    + rewrite decide_True by done.
      match goal with |- context [for_each ids _ ?acc1 ?w1] =>
        destruct (IH acc1 w1) as (w' & Hrun & Htr) end.
      { intros rid' Hin. apply Hids. by right. }
      exists w'. split.
      * etransitivity; [exact Hrun|].
        cbn [fmap list_fmap list_to_set snd]. by rewrite (assoc_L (∪)).
      * rewrite Htr. run_cbn. unfold copy_events. cbn [fmap list_fmap fst snd].
        by rewrite <- app_assoc.
    + rewrite decide_False by done.
      destruct (IH acc w) as (w' & Hrun & Htr).
      { intros rid' Hin. apply Hids. by right. }
      exists w'. split; [exact Hrun | exact Htr].
Qed.

Lemma dom_fmap_lookup {A B} (m1 : gmap nat A) (m2 : gmap nat B) (f : nat → B → A) :
  (∀ k, m1 !! k = f k <$> m2 !! k) → dom m1 = dom m2.
Proof.
  intros Hm. apply set_eq. intros k. rewrite !elem_of_dom, Hm.
  destruct (m2 !! k); cbn; split; intros [x Hx]; eauto; done.
Qed.

Lemma filter_ext_in {X} (P Q : X → Prop) `{∀ x, Decision (P x)} `{∀ x, Decision (Q x)}
    (l : list X) :
  (∀ x, x ∈ l → P x ↔ Q x) → filter P l = filter Q l.
Proof.
  induction l as [|x l IH]; intros Hl; [done|]. rewrite !filter_cons.
  rewrite IH by (intros y Hy; apply Hl; by right).
  destruct (decide (P x)) as [HP|HP], (decide (Q x)) as [HQ|HQ]; try done.
  - exfalso. apply HQ, (Hl x); [by left|done].
  - exfalso. apply HP, (Hl x); [by left|done].
Qed.

Lemma elem_of_pairs_in (M : gmap nat nat) ids rid l :
  (rid, l) ∈ pairs_in M ids ↔ rid ∈ ids ∧ M !! rid = Some l.
Proof.
  unfold pairs_in. rewrite list_elem_of_omap. split.
  - intros (x & Hx & Heq). destruct (M !! x) as [l'|] eqn:Hl; [|done].
    injection Heq as <- <-. done.
  - intros [Hin Hl]. exists rid. by rewrite Hl.
Qed.

Lemma syncAttachmentTable_run diruid t w resourceID record home h :
  r_resourceID (w_remote w) = Some resourceID →
  w_record w = Some (Some record) →
  db_homes (w_db w) !! migratingUid diruid = Some home →
  w_homeId w = Some h →
  let A := r_attachments (w_remote w) in
  let L := db_attachments (w_db w) in
  let M := attachment_mapping h (db_attachment_migration (w_db w)) in
  let removed := dom M ∖ dom A in
  let added := dom A ∖ dom M in
  let updates := dom M ∩ dom A in
  (∀ rid l, M !! rid = Some l → is_Some (A !! rid) →
     ∃ la, L !! l = Some la ∧ a_home la = h_id home) →
  ∃ w',
    syncAttachmentTable diruid (PyTxn t) tt w
    = (Ok (list_to_set (seq (w_next_id w) (length (elements added)))
           ∪ list_to_set (filter (fun pair => md5_differs A L pair = true)
                                 (pairs_in M (elements updates))).*2,
           removed), w')
    ∧ w_trace w' = w_trace w
        ++ [EvConduit t "home_resource_id"; EvConduit t "getAllAttachments"]
        ++ removal_events t (dom L) (pairs_in M (elements removed))
        ++ creation_events t (w_next_id w) (elements added)
        ++ copy_events t A L (pairs_in M (elements updates)).
Proof.
  intros Hrid Hrec Hhome Hh A L M removed added updates Hlocal.
  unfold syncAttachmentTable, _remoteHome, send_home_resource_id, remote_getAllAttachments,
    calendarHomeWithUID, home_getAllAttachments, self_homeId,
    AttachmentMigrationRecord_querysimple, id_records.
  run_lazy. rewrite Hrec. run_cbn. rewrite Hrid. run_cbn. rewrite Hhome. run_cbn. rewrite Hh. run_cbn.
  set (mapping := py_dict ((fun record0 : IdMigrationRecord => (im_remote record0, record0)) <$> _)).
  set (rmap := py_dict ((fun attachment : RemoteAttachment => (ra_id attachment, attachment)) <$> _)).
  set (lmap := py_dict ((fun attachment : LocalAttachment => (la_id attachment, attachment)) <$> _)).
  assert (Hmapping : ∀ rid, mapping !! rid = mkIdMigrationRecord h rid <$> M !! rid).
  { intros rid. subst mapping M. rewrite attachment_mapping_lookup.
    by apply (rows_of_home_lookup mkIdMigrationRecord im_remote). }
  assert (Hrmap : ∀ rid, rmap !! rid = mkRemoteAttachment rid <$> A !! rid).
  { intros rid. subst rmap. rewrite <- list_fmap_compose.
    apply (py_dict_of_map mkRemoteAttachment). }
  set (L' := filter (fun kv : nat * Attachment => a_home kv.2 = h_id home) L).
  assert (Hlmap : ∀ l, lmap !! l = mkLocalAttachment t l <$> L' !! l).
  { intros l. subst lmap. rewrite <- list_fmap_compose.
    apply (py_dict_of_map (mkLocalAttachment t)). }
  rewrite (dom_fmap_lookup mapping M _ Hmapping), (dom_fmap_lookup rmap A _ Hrmap).
  fold removed added updates.
  set (w1 := record_event (EvConduit t "getAllAttachments") _).
  assert (Hrows1 : ∀ rid, db_attachment_migration (w_db w1) !! (h, rid) = M !! rid).
  { intros rid. subst M. by rewrite attachment_mapping_lookup. }
  destruct (removal_loop t h mapping M (elements removed) w1 Hmapping)
    as (w2 & Hrun2 & Htr2 & Hid2 & Hrows2).
  { intros rid Hin. apply elem_of_elements, elem_of_difference in Hin as [Hin _].
    by apply elem_of_dom. }
  match goal with |- context [for_each_ (elements removed) ?b ?w0] =>
    assert (E : for_each_ (elements removed) b w0 = (Ok tt, w2)) by exact Hrun2;
    rewrite E; clear E end.
  destruct (creation_loop t h (elements added) ∅ w2) as (w3 & Hrun3 & Htr3).
  { apply NoDup_elements. }
  { intros rid Hin. apply elem_of_elements, elem_of_difference in Hin as [_ Hin].
    apply Hrows2. rewrite Hrows1. by apply not_elem_of_dom. }
  match goal with |- context [for_each (elements added) ?b ?s0 ?w0] =>
    assert (E : for_each (elements added) b s0 w0 = _) by exact Hrun3;
    rewrite E; clear E end.
  match goal with |- context [for_each (elements updates) _ ?acc _] =>
    destruct (update_loop t h mapping rmap lmap M A L' (elements updates) acc w3
                Hmapping Hrmap Hlmap) as (w4 & Hrun4 & Htr4) end.
  { intros rid Hin. apply elem_of_elements, elem_of_intersection in Hin as [HM HA].
    apply elem_of_dom in HM as [l Hl]. apply elem_of_dom in HA.
    destruct (Hlocal rid l Hl HA) as (la & Hla & Hhome_la).
    exists l. split; [done|]. split; [done|]. exists la.
    by apply map_lookup_filter_Some. }
  match goal with |- context [for_each (elements updates) ?b ?s0 ?w0] =>
    assert (E : for_each (elements updates) b s0 w0 = _) by exact Hrun4;
    rewrite E; clear E end.
  assert (Hsame : filter (fun pair => md5_differs A L' pair = true)
                    (pairs_in M (elements updates))
                  = filter (fun pair => md5_differs A L pair = true)
                      (pairs_in M (elements updates))).
  { apply filter_ext_in. intros [rid l] Hin.
    apply elem_of_pairs_in in Hin as [Hin Hl].
    apply elem_of_elements, elem_of_intersection in Hin as [_ HA]. apply elem_of_dom in HA.
    destruct (Hlocal rid l Hl HA) as (la & Hla & Hhome_la).
    unfold md5_differs. cbn [fst snd].
    assert (L' !! l = Some la) as -> by (by apply map_lookup_filter_Some).
    by rewrite Hla. }
  exists w4. split.
  - rewrite Hsame, Hid2. subst w1. run_cbn. by rewrite (left_id_L ∅ (∪)).
  - rewrite Htr4, Htr3, Htr2, Hid2. unfold copy_events. rewrite Hsame. subst w1. run_cbn.
    rewrite <- !app_assoc. reflexivity.
Qed.

(** C5. [syncAttachmentTable] partitions the attachment ids by set operations
    on the keys of the stored mapping and of the remote attachment map.  For
    each remote id in the mapping but not on the remote side, the local
    attachment is loaded by its local id and removed without quota
    adjustment; when it is already gone, only the mapping row is deleted.
    For each remote id on the remote side but not in the mapping, a new local
    attachment and a new mapping row are created, and the new local id is
    marked for data transfer.  For each id on both sides, the remote
    meta-data is copied and the local id marked only when the md5s differ.
    The method returns the set of marked local ids and the set of removed
    remote ids. *)
Theorem C5_syncAttachmentTable (diruid : string) (w : World) (resourceID : nat)
    (record : DirRecord) (home : Home) (homeId : nat) :
  r_resourceID (w_remote w) = Some resourceID →
  w_record w = Some (Some record) →
  db_homes (w_db w) !! migratingUid diruid = Some home →
  w_homeId w = Some homeId →
  mapped_attachments_present home homeId w →
  syncAttachmentTable_partitions diruid homeId w.
Proof.
  intros Hrid Hrec Hhome Hh Hlocal. unfold syncAttachmentTable_partitions.
  split; [intros remoteID; apply attachment_mapping_lookup|].
  rewrite in_txn_run.
  destruct (syncAttachmentTable_run diruid (w_next_txn w)
              (begin_txn diruid "syncAttachmentTable" w)
              resourceID record home homeId Hrid Hrec Hhome Hh Hlocal)
    as (w2 & Hrun & Htr).
  rewrite Hrun. run_cbn_in Htr. run_cbn.
  eexists _, _. split; [reflexivity|]. split.
  - intros localID. rewrite elem_of_union, !elem_of_list_to_set, elem_of_seq.
    rewrite list_elem_of_fmap. unfold size, set_size.
    apply or_iff_compat_l. split.
    + intros ([rid l] & -> & Hin). apply list_elem_of_filter in Hin as [Hmd5 Hin].
      apply elem_of_pairs_in in Hin as [Hin Hl]. apply elem_of_elements in Hin. eauto.
    + intros (rid & Hin & Hl & Hmd5). exists (rid, localID). split; [done|].
      apply list_elem_of_filter. split; [done|]. apply elem_of_pairs_in.
      by rewrite elem_of_elements.
  - rewrite trace_txn_commit, Htr. rewrite <- !app_assoc. reflexivity.
Qed.

Lemma C5_syncAttachmentTable_witness :
  syncAttachmentTable_partitions Scenario.diruid 100 Scenario.attachments
  ∧ (in_txn Scenario.diruid "syncAttachmentTable" (syncAttachmentTable Scenario.diruid) tt
       Scenario.attachments).1 = Ok ({[201; 300]}, {[5; 6]})
  ∧ w_trace (in_txn Scenario.diruid "syncAttachmentTable"
               (syncAttachmentTable Scenario.diruid) tt Scenario.attachments).2
    = [EvNewTransaction 30 "Cross-pod Migration Sync for user42: syncAttachmentTable";
       EvConduit 30 "home_resource_id"; EvConduit 30 "getAllAttachments";
       EvAttachmentLoad 30 204; EvAttachmentRecordDelete 30 6;
       EvAttachmentLoad 30 203; EvAttachmentRemove 30 203 false;
       EvAttachmentCreate 30 300; EvAttachmentRecordCreate 30 9 300;
       EvAttachmentCopyRemote 30 201 7; EvCommit 30].
Proof.
  split; [|split; vm_compute; reflexivity].
  apply (C5_syncAttachmentTable Scenario.diruid Scenario.attachments 1
           (mkDirRecord "user42" false) (mkHome 100 "" (Some "user42")) 100);
    try (vm_compute; reflexivity).
  intros remoteID localID HM HA. rewrite attachment_mapping_lookup in HM.
  assert (Hall : map_Forall (fun (k : nat * nat) (l : nat) =>
                    is_Some (r_attachments (w_remote Scenario.attachments) !! k.2) →
                    a_home <$> db_attachments (w_db Scenario.attachments) !! l = Some 100)
                   (db_attachment_migration (w_db Scenario.attachments))).
  { refine (bool_decide_unpack _ _). vm_compute. exact I. }
  pose proof (Hall _ _ HM HA) as Hl.
  destruct (db_attachments (w_db Scenario.attachments) !! localID) as [la|]; [|done].
  injection Hl as Hl. eauto.
Defined.

(** * More on the methods *)

(** ** Transactions are closed *)

Lemma open_below_next w w' :
  open_below w → w_open w' = w_open w → w_next_txn w ≤ w_next_txn w' → open_below w'.
Proof. intros Hbelow Ho Hn t Ht. rewrite Ho in Ht. specialize (Hbelow t Ht). lia. Qed.

Lemma closes_ret {A} (a : A) : closes_its_transactions (ret a).
Proof. intros w r w' [= <- <-] _. split; [lia | done]. Qed.

Lemma closes_raise {A} e : closes_its_transactions (raise (A:=A) e).
Proof. intros w r w' [= <- <-] _. split; [lia | done]. Qed.

Lemma closes_step {A} (a : World → A) (f : World → World) :
  (∀ w, w_open (f w) = w_open w ∧ w_next_txn (f w) = w_next_txn w) →
  closes_its_transactions (fun w => (Ok (a w), f w)).
Proof. intros Hf w r w' [= <- <-] _. destruct (Hf w) as [-> ->]. split; [lia | done]. Qed.

Lemma closes_bind {A B} (c : M A) (k : A → M B) :
  closes_its_transactions c → (∀ a, closes_its_transactions (k a)) →
  closes_its_transactions (bind c k).
Proof.
  intros Hc Hk w r w' Hrun Hbelow. rewrite run_bind in Hrun.
  destruct (c w) as [[a|e] w1] eqn:Hcw; destruct (Hc _ _ _ Hcw Hbelow) as [Hn1 Ho1].
  - specialize (Ho1 I).
    destruct (Hk a _ _ _ Hrun (open_below_next _ _ Hbelow Ho1 Hn1)) as [Hn2 Ho2].
    split; [lia|]. intros Hr. by rewrite Ho2.
  - injection Hrun as <- <-. done.
Qed.

Lemma closes_for_each {A S} (l : list A) (body : A → S → M S) (s : S) :
  (∀ x s, closes_its_transactions (body x s)) → closes_its_transactions (for_each l body s).
Proof.
  intros Hbody. revert s. induction l as [|x l IH]; intros s; cbn [for_each].
  - apply closes_ret.
  - apply closes_bind; [apply Hbody | intros s'; apply IH].
Qed.

Lemma closes_for_each_ {A} (l : list A) (body : A → M unit) :
  (∀ x, closes_its_transactions (body x)) → closes_its_transactions (for_each_ l body).
Proof. intros Hbody. apply closes_for_each. intros x _. apply Hbody. Qed.

Lemma closes_batch_loop {A} size fuel (l : list A) (body : list A → M unit) :
  (∀ win, closes_its_transactions (body win)) →
  closes_its_transactions (batch_loop size fuel l body).
Proof.
  intros Hbody. revert l. induction fuel as [|fuel IH]; intros [|x l]; cbn [batch_loop];
    try apply closes_ret; try apply closes_raise.
  apply closes_bind; [apply Hbody | intros _; apply IH].
Qed.

(** What the wrapper leaves open, for an operation that leaves open what it
    found open: nothing of its own after the commit or the abort, and its own
    transaction when the operation ended with a raisable outside
    [Exception]. *)
Lemma in_txn_open {Args A} diruid name (operation : pyval → Args → M A) args w r2 w2 :
  open_below w →
  operation (PyTxn (w_next_txn w)) args (begin_txn diruid name w) = (r2, w2) →
  w_open w2 = w_open (begin_txn diruid name w) →
  w_open (in_txn diruid name operation args w).2
  = match r2 with
    | Ok _ => w_open w
    | Err e => if is_Exception e then w_open w else <[w_next_txn w := w_db w]> (w_open w)
    end.
Proof.
  intros Hbelow Hrun Ho. rewrite in_txn_run, Hrun.
  assert (Hfresh : w_open w !! w_next_txn w = None).
  { destruct (w_open w !! w_next_txn w) eqn:Ht; [|done].
    assert (w_next_txn w < w_next_txn w) by (apply Hbelow; by rewrite Ht). lia. }
  unfold begin_txn in Ho. run_cbn_in Ho.
  destruct r2 as [a|e]; [|destruct (is_Exception e)]; cbn [snd].
  - unfold txn_commit. run_cbn. by rewrite Ho, delete_insert_id.
  - unfold abort_txn, txn_abort. run_cbn. rewrite Ho, lookup_insert_eq. run_cbn.
    by rewrite Ho, delete_insert_id.
  - done.
Qed.

Lemma closes_in_txn {Args A} diruid name (operation : pyval → Args → M A) args :
  (∀ txn, closes_its_transactions (operation txn args)) →
  closes_its_transactions (in_txn diruid name operation args).
Proof.
  intros Hop w r w' Hrun Hbelow.
  destruct (operation (PyTxn (w_next_txn w)) args (begin_txn diruid name w)) as [r2 w2] eqn:Hrun2.
  assert (Hbegun : open_below (begin_txn diruid name w)).
  { intros t. unfold begin_txn. run_cbn. intros Ht.
    destruct (decide (t = w_next_txn w)) as [->|Hne]; [lia|].
    rewrite lookup_insert_ne in Ht by done. specialize (Hbelow t Ht). lia. }
  destruct (Hop _ _ _ _ Hrun2 Hbegun) as [Hn Ho]. unfold begin_txn in Hn. run_cbn_in Hn.
  assert (Hr : r = r2 ∧ w_next_txn w' = w_next_txn w2).
  { rewrite in_txn_run, Hrun2 in Hrun. destruct r2 as [a|e]; [|destruct (is_Exception e)];
      injection Hrun as <- <-; split; try done.
    unfold abort_txn, txn_abort. run_cbn. by destruct (w_open w2 !! w_next_txn w). }
  destruct Hr as [-> Hn']. split; [lia|]. intros Hreleased.
  pose proof (in_txn_open diruid name operation args w r2 w2 Hbelow Hrun2 (Ho Hreleased)) as Hopen.
  rewrite Hrun in Hopen. cbn [snd] in Hopen. rewrite Hopen.
  destruct r2 as [a|e]; [done|]. cbn in Hreleased. by rewrite Hreleased.
Qed.

Ltac closes_auto :=
  lazymatch goal with
  | |- closes_its_transactions (bind _ _) =>
      apply closes_bind; [closes_auto | intros ?; closes_auto]
  | |- closes_its_transactions (ret _) => apply closes_ret
  | |- closes_its_transactions (raise _) => apply closes_raise
  | |- closes_its_transactions (for_each _ _ _) =>
      apply closes_for_each; intros ? ?; closes_auto
  | |- closes_its_transactions (for_each_ _ _) =>
      apply closes_for_each_; intros ?; closes_auto
  | |- closes_its_transactions (batch_loop _ _ _ _) =>
      apply closes_batch_loop; intros ?; closes_auto
  | |- closes_its_transactions (in_txn _ _ _ _) =>
      apply closes_in_txn; intros ?; closes_auto
  | |- closes_its_transactions (fun _ => _) => apply closes_step; intros ?; split; reflexivity
  | |- closes_its_transactions (match ?x with _ => _ end) => destruct x; closes_auto
  | |- closes_its_transactions ?c => let h := head_of c in unfold h; closes_auto
  end.

Lemma sync_closes diruid : closes_its_transactions (sync diruid).
Proof. closes_auto. Qed.

Lemma migrateHere_closes diruid : closes_its_transactions (migrateHere diruid).
Proof. closes_auto. Qed.

(** X14.  A run of [sync] or of [migrateHere] that ends normally or with an
    instance of [Exception] leaves no transaction open: from a world whose
    open transactions were all handed out by [newTransaction], the
    transactions open afterwards are exactly those that were open before.
    At the wrapper, for any operation that leaves open what it found open:
    the wrapper's transaction is closed after the commit and after the
    abort, and it is left open, with the store as it was when it began, when
    the operation ends with a raisable outside [Exception]. *)
Theorem migrateHere_leaves_no_transaction_open (diruid : string) (w : World) :
  open_below w →
  (∀ r w', sync diruid w = (r, w') → released r → w_open w' = w_open w)
  ∧ (∀ r w', migrateHere diruid w = (r, w') → released r → w_open w' = w_open w)
  ∧ (∀ (Args A : Type) name (operation : pyval → Args → M A) args r2 w2,
       operation (PyTxn (w_next_txn w)) args (begin_txn diruid name w) = (r2, w2) →
       w_open w2 = w_open (begin_txn diruid name w) →
       w_open (in_txn diruid name operation args w).2
       = match r2 with
         | Ok _ => w_open w
         | Err e =>
             if is_Exception e then w_open w else <[w_next_txn w := w_db w]> (w_open w)
         end).
Proof.
  intros Hbelow. split; [|split].
  - intros r w' Hrun. by destruct (sync_closes diruid w r w' Hrun Hbelow) as [_ ?].
  - intros r w' Hrun. by destruct (migrateHere_closes diruid w r w' Hrun Hbelow) as [_ ?].
  - intros Args A name operation args r2 w2. by apply in_txn_open.
Qed.

Lemma migrateHere_leaves_no_transaction_open_witness :
  w_open (sync Scenario.diruid Scenario.fresh_world).2 = ∅
  ∧ w_open (migrateHere Scenario.diruid Scenario.fresh_world).2 = ∅
  ∧ w_open (in_txn Scenario.diruid "operation"
              (fun (_ : pyval) (_ : unit) => raise (A:=unit) KeyboardInterrupt) tt
              Scenario.fresh_world).2 = {[0 := empty_DB]}.
Proof.
  assert (Hfresh : open_below Scenario.fresh_world).
  { intros t [db Ht]. vm_compute in Ht. discriminate Ht. }
  destruct (migrateHere_leaves_no_transaction_open Scenario.diruid Scenario.fresh_world Hfresh)
    as (Hsync & Hmigrate & Hwrapper).
  split; [|split].
  - apply (Hsync _ _ (surjective_pairing _)). vm_compute. exact I.
  - apply (Hmigrate _ _ (surjective_pairing _)). vm_compute. reflexivity.
  - rewrite (Hwrapper unit unit "operation" _ tt (Err KeyboardInterrupt)
               (begin_txn Scenario.diruid "operation" Scenario.fresh_world));
      reflexivity.
Defined.

(** ** Preparing the home, the calendar list and the sync state *)

(** X1.  [prepareCalendarHome] (wrapped, no transaction supplied) always
    ends normally with the resource id of the local migrating home.  When the
    home [Migrating-<diruid>] exists, that is its id, and the store is
    unchanged: the transaction is only opened and committed.  When it does
    not, the home is created with a fresh id, no meta-data and [diruid] as its
    migrating uid.  A second run returns the same id and creates nothing. *)
Theorem prepareCalendarHome_once (diruid : string) (w : World) :
  ∃ homeId w1 w2,
    in_txn diruid "prepareCalendarHome" (prepareCalendarHome diruid) tt w = (Ok homeId, w1)
    ∧ in_txn diruid "prepareCalendarHome" (prepareCalendarHome diruid) tt w1 = (Ok homeId, w2)
    ∧ w_db w2 = w_db w1
    ∧ w_trace w2 = w_trace w1
        ++ [EvNewTransaction (w_next_txn w1) (label diruid "prepareCalendarHome");
            EvCommit (w_next_txn w1)]
    ∧ match db_homes (w_db w) !! migratingUid diruid with
      | Some home =>
          homeId = h_id home
          ∧ w_db w1 = w_db w
          ∧ w_trace w1 = w_trace w
              ++ [EvNewTransaction (w_next_txn w) (label diruid "prepareCalendarHome");
                  EvCommit (w_next_txn w)]
      | None =>
          homeId = w_next_id w
          ∧ w_db w1 = with_homes (insert (migratingUid diruid)
                                    (mkHome (w_next_id w) "" (Some diruid))) (w_db w)
          ∧ w_trace w1 = w_trace w
              ++ [EvNewTransaction (w_next_txn w) (label diruid "prepareCalendarHome");
                  EvHomeCreate (w_next_txn w) (migratingUid diruid);
                  EvCommit (w_next_txn w)]
      end.
Proof.
  assert (Hagain : ∀ w0 home, db_homes (w_db w0) !! migratingUid diruid = Some home →
            ∃ w',
              in_txn diruid "prepareCalendarHome" (prepareCalendarHome diruid) tt w0
              = (Ok (h_id home), w')
              ∧ w_db w' = w_db w0
              ∧ w_trace w' = w_trace w0
                  ++ [EvNewTransaction (w_next_txn w0) (label diruid "prepareCalendarHome");
                      EvCommit (w_next_txn w0)]).
  { intros w0 home Hhome. rewrite in_txn_run.
    unfold prepareCalendarHome, calendarHomeWithUID_create, calendarHomeWithUID, fresh_id.
    run_lazy. rewrite Hhome. run_cbn.
    eexists. split; [reflexivity|]. cbn. by rewrite <- !app_assoc. }
  destruct (db_homes (w_db w) !! migratingUid diruid) as [home|] eqn:Hhome.
  - destruct (Hagain w home Hhome) as (w1 & Hrun1 & Hdb1 & Htr1).
    destruct (Hagain w1 home) as (w2 & Hrun2 & Hdb2 & Htr2); [by rewrite Hdb1|].
    by exists (h_id home), w1, w2.
  - assert (Hfirst : ∃ w1,
              in_txn diruid "prepareCalendarHome" (prepareCalendarHome diruid) tt w
              = (Ok (w_next_id w), w1)
              ∧ w_db w1 = with_homes (insert (migratingUid diruid)
                                        (mkHome (w_next_id w) "" (Some diruid))) (w_db w)
              ∧ w_trace w1 = w_trace w
                  ++ [EvNewTransaction (w_next_txn w) (label diruid "prepareCalendarHome");
                      EvHomeCreate (w_next_txn w) (migratingUid diruid);
                      EvCommit (w_next_txn w)]).
    { rewrite in_txn_run.
      unfold prepareCalendarHome, calendarHomeWithUID_create, calendarHomeWithUID, fresh_id.
      run_lazy. rewrite Hhome. run_cbn. rewrite Hhome. run_cbn.
      eexists. split; [reflexivity|]. cbn. by rewrite <- !app_assoc. }
    destruct Hfirst as (w1 & Hrun1 & Hdb1 & Htr1).
    destruct (Hagain w1 (mkHome (w_next_id w) "" (Some diruid))) as (w2 & Hrun2 & Hdb2 & Htr2).
    { rewrite Hdb1. cbn. by rewrite lookup_insert_eq. }
    by exists (w_next_id w), w1, w2.
Qed.

(** What the loop of [getCalendarSyncList] has put into the dict. *)
Lemma owned_fold_lookup (h : nat) (l : list (nat * RemoteCalendar))
    (acc : gmap nat CalendarMigrationRecord) (rid : nat) :
  NoDup l.*1 →
  foldl (fun results (kv : nat * RemoteCalendar) =>
           if rc_owned kv.2
           then <[kv.1 := CalendarMigrationRecord_make h kv.1 0 (Some (rc_syncToken kv.2))]> results
           else results) acc l !! rid
  = match list_to_map (M := gmap nat RemoteCalendar) l !! rid with
    | Some c => if rc_owned c
                then Some (CalendarMigrationRecord_make h rid 0 (Some (rc_syncToken c)))
                else acc !! rid
    | None => acc !! rid
    end.
Proof.
  revert acc. induction l as [|[k c] l IH]; intros acc Hnd.
  - done.
  - change (list_to_map ((k, c) :: l)) with (<[k := c]> (list_to_map l : gmap nat RemoteCalendar)).
    cbn [foldl]. cbn in Hnd. apply NoDup_cons in Hnd as [Hk Hnd]. rewrite IH by done. cbn [fst snd].
    destruct (decide (k = rid)) as [->|Hne].
    + rewrite lookup_insert_eq.
      assert (list_to_map (M := gmap nat RemoteCalendar) l !! rid = None) as Hnone.
      { by apply not_elem_of_list_to_map. }
      rewrite Hnone.
      destruct (rc_owned c); [by rewrite lookup_insert_eq | done].
    + rewrite lookup_insert_ne by done.
      destruct (list_to_map (M := gmap nat RemoteCalendar) l !! rid) as [c'|];
        destruct (rc_owned c); try done; try destruct (rc_owned c'); try done;
        by rewrite lookup_insert_ne.
Qed.

(** X2.  With a remote home and a loaded record, [getCalendarSyncList] ends
    normally with a dict that has an entry for a remote calendar id exactly
    when the remote home has a calendar of that id that the user owns; the
    entry is the record [CalendarMigrationRecord.make] builds from the remote
    home id, the calendar id, local id 0 and the calendar's current sync
    token.  The local store is unchanged. *)
Theorem getCalendarSyncList_owned (diruid : string) (w : World) (resourceID : nat)
    (record : DirRecord) :
  r_resourceID (w_remote w) = Some resourceID →
  w_record w = Some (Some record) →
  ∃ remote_state w',
    in_txn diruid "getCalendarSyncList" getCalendarSyncList tt w = (Ok (Some remote_state), w')
    ∧ w_db w' = w_db w
    ∧ ∀ remoteID,
        remote_state !! remoteID
        = match r_calendars (w_remote w) !! remoteID with
          | Some calendar =>
              if rc_owned calendar
              then Some (CalendarMigrationRecord_make resourceID remoteID 0
                           (Some (rc_syncToken calendar)))
              else None
          | None => None
          end.
Proof.
  intros Hrid Hrec. rewrite in_txn_run.
  destruct (getCalendarSyncList _ _ _) as [r w2] eqn:Hrun.
  assert (Hres : r = Ok (remote_sync_state (w_remote w))).
  { revert Hrun.
    unfold getCalendarSyncList, _remoteHome, send_home_resource_id, remote_loadChildren,
      remote_sync_state.
    run_lazy. rewrite Hrec. run_cbn. rewrite Hrid. run_cbn.
    match goal with |- context [for_each ?l ?b ?s ?w0] =>
      destruct (for_each l b s w0) as [r1 w1] eqn:Hloop end.
    apply (sync_list_loop _ resourceID) in Hloop. subst r1. by intros [= <- <-]. }
  subst r. unfold remote_sync_state. rewrite Hrid. cbn [fmap option_fmap option_map].
  eexists _, _. split; [reflexivity|]. split.
  - rewrite db_txn_commit.
    pose proof (getCalendarSyncList_store _ _ _ _ Hrun (fun _ => eq_refl)) as [= Hdb _ _].
    by rewrite Hdb.
  - intros remoteID. rewrite owned_fold_lookup by apply NoDup_fst_map_to_list.
    rewrite list_to_map_to_list, lookup_empty.
    destruct (r_calendars (w_remote w) !! remoteID) as [c|]; [|done]. done.
Qed.

Lemma getCalendarSyncList_owned_witness :
  ∃ remote_state w',
    in_txn Scenario.diruid "getCalendarSyncList" getCalendarSyncList tt Scenario.incremental
    = (Ok (Some remote_state), w')
    ∧ w_db w' = w_db Scenario.incremental
    ∧ remote_state !! 10 = Some (CalendarMigrationRecord_make 1 10 0 (Some "B"))
    ∧ remote_state !! 11 = None.
Proof.
  destruct (getCalendarSyncList_owned Scenario.diruid Scenario.incremental 1
              (mkDirRecord "user42" false) eq_refl eq_refl)
    as (remote_state & w' & Hrun & Hdb & Hstate).
  exists remote_state, w'. split; [exact Hrun|]. split; [exact Hdb|].
  split; rewrite Hstate; reflexivity.
Defined.

(** X3.  [getSyncState] reads the rows of CALENDAR_MIGRATION of the home
    [self.homeId]: the dict it returns maps a remote calendar id to the record
    of the row (home id, remote id) of the table, and has no other key; the
    store is unchanged.  While [self.homeId] has not been set (before
    [sync] has prepared the home) it ends with [AttributeError], the store
    unchanged. *)
Theorem getSyncState_rows (diruid : string) (w : World) :
  (∀ homeId, w_homeId w = Some homeId →
     ∃ local_state w',
       in_txn diruid "getSyncState" getSyncState tt w = (Ok local_state, w')
       ∧ w_db w' = w_db w
       ∧ ∀ remoteID,
           local_state !! remoteID
           = (fun row : nat * option string =>
                mkCalendarMigrationRecord homeId remoteID row.1 row.2 false)
             <$> db_calendar_migration (w_db w) !! (homeId, remoteID))
  ∧ (w_homeId w = None →
     ∃ w', in_txn diruid "getSyncState" getSyncState tt w
           = (Err (AttributeError "'CrossPodHomeSync' object has no attribute 'homeId'"), w')
       ∧ w_db w' = w_db w).
Proof.
  split.
  - intros homeId Hh. rewrite in_txn_run, (getSyncState_run _ _ homeId) by exact Hh.
    eexists _, _. split; [reflexivity|]. split; [by rewrite db_txn_commit|].
    intros remoteID. apply sync_state_lookup.
  - intros Hh. rewrite in_txn_run. unfold getSyncState, self_homeId. run_lazy. rewrite Hh.
    run_cbn. eexists. split; [reflexivity|]. by apply abort_same_db.
Qed.

Lemma updateSyncState_run diruid w (stateRecord : CalendarMigrationRecord) token token0 :
  db_calendar_migration (w_db w) !! (calendarHomeResourceID stateRecord, remoteResourceID stateRecord)
  = (if cm_isnew stateRecord then None else Some (localResourceID stateRecord, token0)) →
  ∃ w1,
    in_txn diruid "updateSyncState" updateSyncState (stateRecord, token) w = (Ok tt, w1)
    ∧ w_homeId w1 = w_homeId w
    ∧ db_calendar_migration (w_db w1)
      = <[(calendarHomeResourceID stateRecord, remoteResourceID stateRecord)
          := (localResourceID stateRecord, token)]> (db_calendar_migration (w_db w)).
Proof.
  intros Hrow. rewrite in_txn_run.
  unfold updateSyncState, CalendarMigrationRecord_insert, CalendarMigrationRecord_update.
  destruct (cm_isnew stateRecord).
  - run_lazy. cbn [calendarHomeResourceID remoteResourceID localResourceID lastSyncToken].
    rewrite Hrow. run_cbn. eexists. split; [reflexivity|]. split; reflexivity.
  - run_lazy. eexists. split; [reflexivity|]. split; [reflexivity|].
    rewrite db_txn_commit. run_cbn.
    apply map_eq. intros k.
    destruct (decide (k = (calendarHomeResourceID stateRecord, remoteResourceID stateRecord)))
      as [->|Hne].
    + by rewrite lookup_alter_eq, lookup_insert_eq, Hrow.
    + by rewrite lookup_alter_ne, lookup_insert_ne.
Qed.

(** X15.  [updateSyncState] followed by [getSyncState]: for a record of
    the home [self.homeId] that is new and has no row yet, or is not new and
    has its row, [updateSyncState] ends normally, and the dict that
    [getSyncState] then returns has, for the record's remote calendar id, the
    record with its local calendar id and the new token; the entries of the
    other remote calendar ids are those of the rows that were there. *)
Theorem updateSyncState_then_getSyncState (diruid : string) (w : World)
    (stateRecord : CalendarMigrationRecord) (token token0 : option string) :
  w_homeId w = Some (calendarHomeResourceID stateRecord) →
  db_calendar_migration (w_db w) !! (calendarHomeResourceID stateRecord, remoteResourceID stateRecord)
  = (if cm_isnew stateRecord then None else Some (localResourceID stateRecord, token0)) →
  ∃ w1 local_state w2,
    in_txn diruid "updateSyncState" updateSyncState (stateRecord, token) w = (Ok tt, w1)
    ∧ in_txn diruid "getSyncState" getSyncState tt w1 = (Ok local_state, w2)
    ∧ local_state !! remoteResourceID stateRecord
      = Some (mkCalendarMigrationRecord (calendarHomeResourceID stateRecord)
                (remoteResourceID stateRecord) (localResourceID stateRecord) token false)
    ∧ ∀ remoteID, remoteID ≠ remoteResourceID stateRecord →
        local_state !! remoteID
        = (fun row : nat * option string =>
             mkCalendarMigrationRecord (calendarHomeResourceID stateRecord) remoteID
               row.1 row.2 false)
          <$> db_calendar_migration (w_db w) !! (calendarHomeResourceID stateRecord, remoteID).
Proof.
  intros Hh Hrow.
  destruct (updateSyncState_run diruid w stateRecord token token0 Hrow) as (w1 & Hrun1 & Hh1 & Hdb1).
  exists w1. rewrite Hrun1, in_txn_run.
  rewrite (getSyncState_run _ _ (calendarHomeResourceID stateRecord)) by (cbn; by rewrite Hh1).
  eexists _, _. split; [reflexivity|]. split; [reflexivity|]. split.
  - rewrite sync_state_lookup. cbn. by rewrite Hdb1, lookup_insert_eq.
  - intros remoteID Hne. rewrite sync_state_lookup. cbn.
    rewrite Hdb1, lookup_insert_ne; [done|]. congruence.
Qed.

Lemma updateSyncState_then_getSyncState_witness :
  ∃ w1 local_state w2,
    in_txn Scenario.diruid "updateSyncState" updateSyncState (Scenario.record10, Some "B")
      Scenario.incremental = (Ok tt, w1)
    ∧ in_txn Scenario.diruid "getSyncState" getSyncState tt w1 = (Ok local_state, w2)
    ∧ local_state !! 10 = Some (mkCalendarMigrationRecord 100 10 101 (Some "B") false).
Proof.
  destruct (updateSyncState_then_getSyncState Scenario.diruid Scenario.incremental
              Scenario.record10 (Some "B") (Some "A") eq_refl eq_refl)
    as (w1 & local_state & w2 & Hrun1 & Hrun2 & Hrow & _).
  exists w1, local_state, w2. split; [exact Hrun1|]. split; [exact Hrun2|]. exact Hrow.
Defined.

Lemma purgeLocal_db diruid t (lss rss : gmap nat CalendarMigrationRecord) w home :
  db_homes (w_db w) !! migratingUid diruid = Some home →
  ∃ lss' w',
    purgeLocal diruid (PyTxn t) (lss, Some rss) w = (Ok lss', w')
    ∧ (∀ rid, lss' !! rid = if decide (rid ∈ dom rss) then lss !! rid else None)
    ∧ (∀ rid rec c, lss !! rid = Some rec → rid ∉ dom rss →
         db_calendars (w_db w') !! localResourceID rec = Some c → c_home c ≠ h_id home)
    ∧ (∀ cid, (∀ rid rec, lss !! rid = Some rec → rid ∉ dom rss → localResourceID rec ≠ cid) →
         db_calendars (w_db w') !! cid = db_calendars (w_db w) !! cid)
    ∧ db_homes (w_db w') = db_homes (w_db w)
    ∧ w_open w' = w_open w.
Proof.
  intros Hhome. unfold purgeLocal, calendarHomeWithUID. run_lazy. rewrite Hhome. run_cbn.
  match goal with |- context [for_each ?l ?b ?s ?w0] =>
    set (body := b); destruct (for_each l body s w0) as [r w'] eqn:Hloop end.
  pose (I := fun (pre : list nat) (s : gmap nat CalendarMigrationRecord) (w3 : World) =>
    (∀ rid, s !! rid = if decide (rid ∈ pre) then None else lss !! rid)
    ∧ (∀ cid c, db_calendars (w_db w3) !! cid = Some c → db_calendars (w_db w) !! cid = Some c)
    ∧ (∀ rid rec c, rid ∈ pre → lss !! rid = Some rec →
         db_calendars (w_db w3) !! localResourceID rec = Some c → c_home c ≠ h_id home)
    ∧ (∀ cid, (∀ rid rec, rid ∈ pre → lss !! rid = Some rec → localResourceID rec ≠ cid) →
         db_calendars (w_db w3) !! cid = db_calendars (w_db w) !! cid)
    ∧ db_homes (w_db w3) = db_homes (w_db w)
    ∧ w_open w3 = w_open w).
  apply (for_each_inv_prefix I (fun _ => False)) in Hloop.
  - destruct r as [lss'|e]; [|done].
    destruct Hloop as (Hs & _ & Hgone & Hkept & Hhomes & Hopen).
    exists lss', w'. split; [done|]. split; [|split; [|split; [|done]]].
    + intros rid. rewrite Hs. destruct (decide (rid ∈ dom rss)) as [Hin|Hin].
      * rewrite decide_False; [done|]. rewrite elem_of_elements, elem_of_difference. tauto.
      * destruct (lss !! rid) as [rec|] eqn:Hrec; [|by destruct (decide _)].
        rewrite decide_True; [done|]. rewrite elem_of_elements, elem_of_difference.
        split; [|done]. apply elem_of_dom. eauto.
    + intros rid rec c Hrec Hnot Hc. apply (Hgone rid rec c); [|done|done].
      rewrite elem_of_elements, elem_of_difference. split; [|done]. apply elem_of_dom. eauto.
    + intros cid Hcid. apply Hkept. intros rid rec Hin Hrec. apply (Hcid rid rec Hrec).
      apply elem_of_elements, elem_of_difference in Hin. tauto.
  - clear Hloop r w'. intros pre x post s w3 r w' Hl (Hs & Hsub & Hgone & Hkept & Hhomes & Hopen).
    assert (Hx : x ∉ pre).
    { pose proof (NoDup_elements (dom lss ∖ dom rss)) as Hnd. rewrite Hl in Hnd.
      apply NoDup_app in Hnd as (_ & Hnd & _). intros Hin. apply (Hnd _ Hin). by left. }
    assert (Hxin : x ∈ elements (dom lss ∖ dom rss)) by (rewrite Hl; apply elem_of_app; right; by left).
    apply elem_of_elements, elem_of_difference in Hxin as [Hxl Hxr].
    apply elem_of_dom in Hxl as [rec Hrec].
    subst body. cbn beta. unfold getitem, home_childWithID, calendar_purge.
    rewrite Hs, decide_False, Hrec by done. run_lazy.
    assert (Hstate : ∀ rid, delete x s !! rid = if decide (rid ∈ pre ++ [x]) then None else lss !! rid).
    { intros rid. destruct (decide (rid = x)) as [->|Hne].
      - rewrite lookup_delete_eq, decide_True; [done|]. apply elem_of_app. right. by left.
      - rewrite lookup_delete_ne, Hs by done. destruct (decide (rid ∈ pre)) as [Hin|Hin].
        + rewrite decide_True; [done|]. apply elem_of_app. by left.
        + rewrite decide_False; [done|]. intros Hin'. apply elem_of_app in Hin' as [?|Hin']; [done|].
          by apply list_elem_of_singleton in Hin'. }
    destruct (db_calendars (w_db w3) !! localResourceID rec) as [c|] eqn:Hc; run_cbn.
    + destruct (decide (c_home c = h_id home)) as [Hown|Hown]; run_cbn.
      * intros [= <- <-]. split; [done|]. run_cbn. split; [|split; [|split; [|done]]].
        -- intros cid c' Hc'. apply lookup_delete_Some in Hc' as [_ Hc']. by apply Hsub.
        -- intros rid rec' c' Hin Hrec' Hc'. apply lookup_delete_Some in Hc' as [Hne Hc'].
           apply elem_of_app in Hin as [Hin|Hin]; [by eapply Hgone|].
           apply list_elem_of_singleton in Hin as ->. rewrite Hrec in Hrec'.
           injection Hrec' as <-. done.
        -- intros cid Hcid. rewrite lookup_delete_ne.
           ++ apply Hkept. intros rid rec' Hin. apply Hcid. apply elem_of_app. by left.
           ++ apply (Hcid x rec); [|done]. apply elem_of_app. right. by left.
      * intros [= <- <-]. split; [done|]. split; [done|]. split; [|split; [|done]].
        -- intros rid rec' c' Hin Hrec' Hc'.
           apply elem_of_app in Hin as [Hin|Hin]; [by eapply Hgone|].
           apply list_elem_of_singleton in Hin as ->. rewrite Hrec in Hrec'.
           injection Hrec' as <-. rewrite Hc in Hc'. by injection Hc' as <-.
        -- intros cid Hcid. apply Hkept. intros rid rec' Hin. apply Hcid.
           apply elem_of_app. by left.
    + intros [= <- <-]. split; [done|]. split; [done|]. split; [|split; [|done]].
      * intros rid rec' c' Hin Hrec' Hc'.
        apply elem_of_app in Hin as [Hin|Hin]; [by eapply Hgone|].
        apply list_elem_of_singleton in Hin as ->. rewrite Hrec in Hrec'.
        injection Hrec' as <-. by rewrite Hc in Hc'.
      * intros cid Hcid. apply Hkept. intros rid rec' Hin. apply Hcid.
        apply elem_of_app. by left.
  - split; [|split; [done|split; [|done]]].
    + intros rid. rewrite decide_False; [done|]. apply not_elem_of_nil.
    + intros rid rec c Hin. by apply not_elem_of_nil in Hin.
Qed.

(** X4.  [purgeLocal], when the local migrating home exists and a remote
    sync state is given: it ends normally; the local sync state it leaves is
    the given one restricted to the remote calendar ids that are still in the
    remote sync state; the local calendar of every record dropped is no
    longer a calendar of the home; and the calendars that no dropped record
    names are as they were. *)
Theorem purgeLocal_drops_stale (diruid : string) (w : World) (home : Home)
    (local_sync_state remote_sync_state : gmap nat CalendarMigrationRecord) :
  db_homes (w_db w) !! migratingUid diruid = Some home →
  ∃ local_sync_state' w',
    in_txn diruid "purgeLocal" (purgeLocal diruid)
      (local_sync_state, Some remote_sync_state) w = (Ok local_sync_state', w')
    ∧ (∀ remoteID,
         local_sync_state' !! remoteID
         = if decide (remoteID ∈ dom remote_sync_state)
           then local_sync_state !! remoteID else None)
    ∧ (∀ remoteID record calendar,
         local_sync_state !! remoteID = Some record →
         remoteID ∉ dom remote_sync_state →
         db_calendars (w_db w') !! localResourceID record = Some calendar →
         c_home calendar ≠ h_id home)
    ∧ (∀ calendarID,
         (∀ remoteID record, local_sync_state !! remoteID = Some record →
            remoteID ∉ dom remote_sync_state → localResourceID record ≠ calendarID) →
         db_calendars (w_db w') !! calendarID = db_calendars (w_db w) !! calendarID).
Proof.
  intros Hhome. rewrite in_txn_run.
  destruct (purgeLocal_db diruid (w_next_txn w) local_sync_state remote_sync_state
              (begin_txn diruid "purgeLocal" w) home Hhome)
    as (lss' & w2 & Hrun & Hs & Hgone & Hkept & _).
  rewrite Hrun. eexists _, _. split; [reflexivity|]. rewrite db_txn_commit. done.
Qed.

Lemma purgeLocal_drops_stale_witness :
  ∃ local_sync_state' w',
    in_txn Scenario.diruid "purgeLocal" (purgeLocal Scenario.diruid)
      ({[10 := Scenario.record10]}, Some ∅) Scenario.incremental = (Ok local_sync_state', w')
    ∧ local_sync_state' !! 10 = None
    ∧ db_calendars (w_db w') !! 101 = None.
Proof.
  destruct (purgeLocal_drops_stale Scenario.diruid Scenario.incremental
              (mkHome 100 "" (Some "user42")) {[10 := Scenario.record10]} ∅ eq_refl)
    as (lss' & w' & Hrun & Hs & Hgone & _).
  exists lss', w'. split; [exact Hrun|]. split.
  - rewrite (Hs 10). reflexivity.
  - destruct (db_calendars (w_db w') !! 101) as [c|] eqn:Hc; [|done].
    exfalso. apply (Hgone 10 Scenario.record10 c); [reflexivity | apply not_elem_of_empty | exact Hc |].
    vm_compute in Hrun. injection Hrun as _ <-. vm_compute in Hc. discriminate Hc.
Defined.

(** ** When the remote side is not there *)

Lemma syncCalendarMetaData_gone diruid w resourceID record migrationRecord :
  r_resourceID (w_remote w) = Some resourceID →
  w_record w = Some (Some record) →
  r_calendars (w_remote w) !! remoteResourceID migrationRecord = None →
  ∃ w', in_txn diruid "syncCalendarMetaData" (syncCalendarMetaData diruid) migrationRecord w
        = (Ok tt, w')
    ∧ w_db w' = w_db w ∧ w_remote w' = w_remote w ∧ w_record w' = w_record w
    ∧ ∃ evs, w_trace w' = w_trace w ++ evs ∧ count_events is_object_write evs = 0.
Proof.
  intros Hrid Hrec Hgone. rewrite in_txn_run.
  unfold syncCalendarMetaData, _remoteHome, send_home_resource_id, remote_childWithID.
  run_lazy. rewrite Hrec. run_cbn. rewrite Hrid. run_cbn. rewrite Hgone. run_cbn.
  eexists. split; [reflexivity|]. cbn. repeat (split; [done|]).
  eexists. rewrite <- !app_assoc. split; [reflexivity|]. done.
Qed.

Lemma findObjectsToSync_gone diruid w resourceID record migrationRecord :
  r_resourceID (w_remote w) = Some resourceID →
  w_record w = Some (Some record) →
  r_calendars (w_remote w) !! remoteResourceID migrationRecord = None →
  ∃ w', in_txn diruid "findObjectsToSync" (findObjectsToSync diruid) migrationRecord w
        = (Ok None, w')
    ∧ w_db w' = w_db w
    ∧ ∃ evs, w_trace w' = w_trace w ++ evs ∧ count_events is_object_write evs = 0.
Proof.
  intros Hrid Hrec Hgone. rewrite in_txn_run.
  unfold findObjectsToSync, _remoteHome, send_home_resource_id, remote_childWithID.
  run_lazy. rewrite Hrec. run_cbn. rewrite Hrid. run_cbn. rewrite Hgone. run_cbn.
  eexists. split; [reflexivity|]. cbn. split; [done|].
  eexists. rewrite <- !app_assoc. split; [reflexivity|]. done.
Qed.

(** X5.  [syncCalendar] on a calendar whose stored token differs from the
    remote one, when the remote home no longer has the calendar (it was
    removed after the calendar list was fetched): [syncCalendarMetaData]
    returns without doing anything, [findObjectsToSync] returns [None], and
    unpacking that into [changed, deleted] raises [TypeError].  The local
    store is as it was and no calendar object was written. *)
Theorem syncCalendar_remote_calendar_gone (diruid : string) (w : World) (resourceID : nat)
    (record : DirRecord) (remoteID : nat)
    (local_sync_state remote_sync_state : gmap nat CalendarMigrationRecord)
    (local_record remote_record : CalendarMigrationRecord) :
  r_resourceID (w_remote w) = Some resourceID →
  w_record w = Some (Some record) →
  r_calendars (w_remote w) !! remoteResourceID local_record = None →
  local_sync_state !! remoteID = Some local_record →
  remote_sync_state !! remoteID = Some remote_record →
  lastSyncToken local_record ≠ lastSyncToken remote_record →
  ∃ w' evs,
    syncCalendar diruid remoteID local_sync_state remote_sync_state w
    = (Err (TypeError "'NoneType' object is not iterable"), w')
    ∧ w_db w' = w_db w
    ∧ w_trace w' = w_trace w ++ evs
    ∧ count_events is_object_write evs = 0.
Proof.
  intros Hrid Hrec Hgone Hl Hr Htok.
  unfold syncCalendar. rewrite Hl. run_lazy. rewrite Hl, Hr. run_cbn.
  destruct (decide (lastSyncToken local_record ≠ lastSyncToken remote_record)); [|done].
  destruct (syncCalendarMetaData_gone diruid w resourceID record local_record Hrid Hrec Hgone)
    as (w1 & Hrun1 & Hdb1 & Hremote1 & Hrec1 & evs1 & Htr1 & Hn1).
  run_lazy. rewrite Hrun1.
  destruct (findObjectsToSync_gone diruid w1 resourceID record local_record)
    as (w2 & Hrun2 & Hdb2 & evs2 & Htr2 & Hn2); [congruence..|].
  rewrite Hrun2. run_cbn.
  exists w2, (evs1 ++ evs2). split; [reflexivity|]. split; [congruence|].
  split; [by rewrite Htr2, Htr1, <- app_assoc|].
  rewrite count_events_app. lia.
Qed.

Lemma syncCalendar_remote_calendar_gone_witness :
  ∃ w' evs,
    syncCalendar Scenario.diruid 99
      {[99 := mkCalendarMigrationRecord 100 99 101 (Some "A") false]}
      {[99 := CalendarMigrationRecord_make 1 99 0 (Some "B")]} Scenario.incremental
    = (Err (TypeError "'NoneType' object is not iterable"), w')
    ∧ w_db w' = w_db Scenario.incremental
    ∧ w_trace w' = w_trace Scenario.incremental ++ evs
    ∧ count_events is_object_write evs = 0.
Proof.
  apply (syncCalendar_remote_calendar_gone Scenario.diruid Scenario.incremental 1
           (mkDirRecord "user42" false) 99 _ _
           (mkCalendarMigrationRecord 100 99 101 (Some "A") false)
           (CalendarMigrationRecord_make 1 99 0 (Some "B")));
    try reflexivity.
  vm_compute. discriminate.
Defined.

Lemma purgeLocal_remote_None diruid local_sync_state w :
  ∃ w', in_txn diruid "purgeLocal" (purgeLocal diruid) (local_sync_state, None) w
        = (Err (AttributeError "'NoneType' object has no attribute 'keys'"), w')
    ∧ w_db w' = w_db w.
Proof.
  rewrite in_txn_run. unfold purgeLocal, calendarHomeWithUID. run_lazy.
  eexists. split; [reflexivity|]. by apply abort_same_db.
Qed.

Lemma getCalendarSyncList_None_view diruid w record :
  w_record w = Some record →
  r_resourceID (w_remote w) = None →
  ∃ w', in_txn diruid "getCalendarSyncList" getCalendarSyncList tt w = (Ok None, w')
    ∧ store_view w' = store_view w.
Proof.
  intros Hrec Hnone. rewrite in_txn_run.
  unfold getCalendarSyncList, _remoteHome, send_home_resource_id. run_lazy.
  rewrite Hrec. run_cbn. rewrite Hnone. run_cbn. eexists. split; reflexivity.
Qed.

Lemma getSyncState_view diruid w homeId :
  w_homeId w = Some homeId →
  ∃ local_state w', in_txn diruid "getSyncState" getSyncState tt w = (Ok local_state, w')
    ∧ store_view w' = store_view w.
Proof.
  intros Hh. rewrite in_txn_run, (getSyncState_run _ _ homeId) by exact Hh.
  eexists _, _. split; reflexivity.
Qed.

Lemma prepareCalendarHome_db (diruid : string) (w : World) :
  ∃ homeId w',
    in_txn diruid "prepareCalendarHome" (prepareCalendarHome diruid) tt w = (Ok homeId, w')
    ∧ w_db w' = match db_homes (w_db w) !! migratingUid diruid with
                | Some _ => w_db w
                | None => with_homes (insert (migratingUid diruid)
                                        (mkHome (w_next_id w) "" (Some diruid))) (w_db w)
                end.
Proof.
  rewrite in_txn_run.
  unfold prepareCalendarHome, calendarHomeWithUID_create, calendarHomeWithUID, fresh_id.
  run_lazy.
  destruct (db_homes (w_db w) !! migratingUid diruid) as [home|] eqn:Hhome; run_cbn.
  - eexists _, _. split; reflexivity.
  - rewrite Hhome. run_cbn. eexists _, _. split; reflexivity.
Qed.

Lemma prepareCalendarHome_record diruid :
  respects true (same w_record)
    (in_txn diruid "prepareCalendarHome" (prepareCalendarHome diruid) tt).
Proof. respects_auto same_leaf. Qed.

(** X6.  [sync] when the conduit knows no remote home for the user (and the
    directory has a record of the user on another pod): the record is loaded,
    the local migrating home is prepared, [getCalendarSyncList] answers
    [None], and [purgeLocal] ends with [AttributeError] on
    [remote_sync_state.keys()].  [sync] ends with that error; all it has
    changed in the store is the migrating home, created if it was missing. *)
Theorem sync_without_remote_home (diruid : string) (w : World) (record : DirRecord) :
  r_resourceID (w_remote w) = None →
  w_directory w !! diruid = Some record →
  rec_thisServer record = false →
  ∃ w',
    sync diruid w = (Err (AttributeError "'NoneType' object has no attribute 'keys'"), w')
    ∧ w_db w' = match db_homes (w_db w) !! migratingUid diruid with
                | Some _ => w_db w
                | None => with_homes (insert (migratingUid diruid)
                                        (mkHome (w_next_id w) "" (Some diruid))) (w_db w)
                end.
Proof.
  intros Hnone Hdir Hthis. unfold sync, call, loadRecord, recordWithUID. run_lazy.
  rewrite Hdir, Hthis. run_cbn.
  match goal with |- context [in_txn diruid "prepareCalendarHome" _ tt ?w0] =>
    destruct (prepareCalendarHome_db diruid w0) as (homeId & w1 & Hrun1 & Hpost1);
    pose proof (prepareCalendarHome_table diruid _ _ _ Hrun1 (fun _ => eq_refl))
      as [= _ Hremote1];
    pose proof (prepareCalendarHome_record diruid _ _ _ Hrun1 (fun _ => eq_refl)) as Hrecord1;
    rewrite Hrun1 end.
  unfold same in Hrecord1.
  run_cbn_in Hpost1. run_cbn_in Hremote1. run_cbn_in Hrecord1. run_cbn.
  unfold syncCalendarList. run_lazy.
  destruct (getCalendarSyncList_None_view diruid (set_homeId (Some homeId) w1) (Some record))
    as (w2 & Hrun2 & [= Hdb2 Hremote2 Hid2]); [done | cbn; by rewrite Hremote1|].
  rewrite Hrun2.
  destruct (getSyncState_view diruid w2 homeId) as (lss & w3 & Hrun3 & [= Hdb3 _ _]);
    [done|].
  rewrite Hrun3.
  destruct (purgeLocal_remote_None diruid lss w3) as (w4 & Hrun4 & Hdb4).
  rewrite Hrun4. eexists. split; [reflexivity|].
  rewrite Hdb4, Hdb3, Hdb2. cbn.
  by destruct (db_homes (w_db w) !! migratingUid diruid).
Qed.

Lemma sync_without_remote_home_witness :
  ∃ w',
    sync Scenario.diruid Scenario.no_remote_home
    = (Err (AttributeError "'NoneType' object has no attribute 'keys'"), w')
    ∧ w_db w' = w_db Scenario.no_remote_home.
Proof.
  exact (sync_without_remote_home Scenario.diruid Scenario.no_remote_home
           (mkDirRecord "user42" false) eq_refl eq_refl eq_refl).
Defined.

(** ** The tokens a sync records *)

(** X7.  After a [sync] that ends normally (started from a migration table
    whose rows point to local calendars of their own), the local migrating
    home exists and, for every calendar of the remote home that the user
    owns, CALENDAR_MIGRATION has a row for that home and calendar whose stored
    token is the calendar's current remote sync token. *)
Theorem sync_records_tokens (diruid : string) (w w' : World) :
  local_ids_distinct (migration_table w) →
  sync diruid w = (Ok tt, w') →
  ∃ homeId,
    h_id <$> db_homes (w_db w') !! migratingUid diruid = Some homeId
    ∧ ∀ remoteID calendar,
        r_calendars (w_remote w') !! remoteID = Some calendar →
        rc_owned calendar = true →
        ∃ localID, db_calendar_migration (w_db w') !! (homeId, remoteID)
                   = Some (localID, Some (rc_syncToken calendar)).
Proof.
  intros Hdistinct Hrun.
  destruct (sync_first diruid w tt w' Hdistinct Hrun) as (h & rss & Hhome & Hrss & Htokens).
  exists h. split; [exact Hhome|]. intros remoteID calendar Hcal Howned.
  unfold remote_sync_state in Hrss.
  destruct (r_resourceID (w_remote w')) as [resourceID|]; [|done].
  injection Hrss as Hrss.
  apply (Htokens remoteID (CalendarMigrationRecord_make resourceID remoteID 0
                             (Some (rc_syncToken calendar)))).
  rewrite <- Hrss, owned_fold_lookup by apply NoDup_fst_map_to_list.
  by rewrite list_to_map_to_list, Hcal, Howned.
Qed.

Lemma sync_records_tokens_witness :
  ∃ w' localID,
    sync Scenario.diruid Scenario.fresh_world = (Ok tt, w')
    ∧ db_calendar_migration (w_db w') !! (100, 10) = Some (localID, Some "A").
Proof.
  assert (Hdistinct : local_ids_distinct (migration_table Scenario.fresh_world)).
  { intros k k' row row' Hk. vm_compute in Hk. discriminate Hk. }
  assert (Hfirst : sync Scenario.diruid Scenario.fresh_world
                   = (Ok tt, (sync Scenario.diruid Scenario.fresh_world).2)).
  { vm_compute. reflexivity. }
  destruct (sync_records_tokens Scenario.diruid Scenario.fresh_world _ Hdistinct Hfirst)
    as (homeId & Hhome & Htokens).
  assert (homeId = 100) as -> by (vm_compute in Hhome; by injection Hhome).
  destruct (Htokens 10 Scenario.calendar10) as [localID Hrow]; [vm_compute; reflexivity|reflexivity|].
  exists (sync Scenario.diruid Scenario.fresh_world).2, localID.
  split; [exact Hfirst|exact Hrow].
Defined.

(** ** What a batch does to the calendar *)

Lemma purge_all_db (lid : nat) (objs : list LocalObject) (w : World) (cal : Calendar) :
  Forall (fun o => lo_calendar o = lid) objs →
  db_calendars (w_db w) !! lid = Some cal →
  ∃ w' cal',
    for_each_ objs object_purge w = (Ok tt, w')
    ∧ db_calendars (w_db w') !! lid = Some cal'
    ∧ c_home cal' = c_home cal ∧ c_name cal' = c_name cal ∧ c_meta cal' = c_meta cal
    ∧ (∀ name, c_objects cal' !! name
               = if decide (name ∈ lo_name <$> objs) then None else c_objects cal !! name)
    ∧ (∀ cid, cid ≠ lid → db_calendars (w_db w') !! cid = db_calendars (w_db w) !! cid)
    ∧ db_homes (w_db w') = db_homes (w_db w).
Proof.
  unfold for_each_. revert w cal.
  induction objs as [|o objs IH]; intros w cal Hobjs Hcal; cbn [for_each].
  - exists w, cal. split; [done|]. split; [done|]. split; [done|]. split; [done|].
    split; [done|]. split; [|done]. intros name.
    rewrite decide_False; [done|]. cbn. apply not_elem_of_nil.
  - apply Forall_cons in Hobjs as [Ho Hobjs]. rewrite run_bind. unfold object_purge at 1.
    run_cbn. rewrite Ho.
    match goal with |- context [for_each objs _ _ ?w1] =>
      destruct (IH w1 (with_objects (delete (lo_name o)) cal) Hobjs)
        as (w' & cal' & Hrun & Hcal' & Hhome & Hname & Hmeta & Hobjects & Hothers & Hhomes) end.
    { run_cbn. by rewrite lookup_alter_eq, Hcal. }
    exists w', cal'. rewrite Hrun. split; [done|]. split; [done|].
    split; [done|]. split; [done|]. split; [done|]. split; [|split].
    + intros name. rewrite Hobjects. cbn [fmap list_fmap with_objects c_objects].
      destruct (decide (name = lo_name o)) as [->|Hne].
      * rewrite lookup_delete_eq. rewrite (decide_True (P := lo_name o ∈ lo_name o :: _));
          [by destruct (decide _)|by left].
      * rewrite lookup_delete_ne by done.
        destruct (decide (name ∈ lo_name <$> objs)) as [Hin|Hin].
        -- rewrite decide_True; [done|by right].
        -- rewrite decide_False; [done|]. intros Hin'. apply elem_of_cons in Hin' as [?|?]; done.
    + intros cid Hcid. rewrite Hothers by done. run_cbn. by rewrite lookup_alter_ne.
    + rewrite Hhomes. reflexivity.
Qed.

(** X8.  [purgeBatch] on a calendar of the local migrating home ends
    normally; afterwards the calendar has no object resource under any of the
    given names, its other object resources, its name and its meta-data are
    as they were, and so are the other calendars and the homes.  Names with
    no object resource are skipped. *)
Theorem purgeBatch_removes (diruid : string) (localID : nat) (names : list string)
    (w : World) (home : Home) (cal : Calendar) :
  db_homes (w_db w) !! migratingUid diruid = Some home →
  db_calendars (w_db w) !! localID = Some cal →
  c_home cal = h_id home →
  ∃ w' cal',
    in_txn diruid "purgeBatch" (purgeBatch diruid) (localID, names) w = (Ok tt, w')
    ∧ db_calendars (w_db w') !! localID = Some cal'
    ∧ c_home cal' = c_home cal ∧ c_name cal' = c_name cal ∧ c_meta cal' = c_meta cal
    ∧ (∀ name, c_objects cal' !! name
               = if decide (name ∈ names) then None else c_objects cal !! name)
    ∧ (∀ calendarID, calendarID ≠ localID →
         db_calendars (w_db w') !! calendarID = db_calendars (w_db w) !! calendarID)
    ∧ db_homes (w_db w') = db_homes (w_db w).
Proof.
  intros Hhome Hcal Hown. rewrite in_txn_run.
  unfold purgeBatch, calendarHomeWithUID, home_childWithID, calendar_objectResourcesWithNames.
  run_lazy. rewrite Hhome. run_cbn. rewrite Hcal. run_cbn.
  rewrite decide_True by done. run_cbn. rewrite Hcal.
  set (objs := omap _ _).
  destruct (local_objects_with_names (w_next_txn w) localID (c_objects cal) names)
    as (_ & Hobjs & _). fold objs in Hobjs.
  match goal with |- context [for_each_ objs object_purge ?w1] =>
    destruct (purge_all_db localID objs w1 cal)
      as (w' & cal' & Hrun & Hcal' & Hh & Hn & Hm & Hobjects & Hothers & Hhomes) end.
  { eapply Forall_impl; [exact Hobjs|]. by intros o (_ & ? & _). }
  { done. }
  rewrite Hrun. exists (txn_commit (w_next_txn w) w').2, cal'. split; [done|].
  rewrite db_txn_commit. split; [done|]. split; [done|]. split; [done|]. split; [done|].
  split; [|done].
  intros name. rewrite Hobjects.
  destruct (decide (name ∈ names)) as [Hin|Hin].
  - destruct (decide (name ∈ lo_name <$> objs)) as [_|Hnot]; [done|].
    destruct (c_objects cal !! name) as [row|] eqn:Hrow; [|done].
    exfalso. apply Hnot. apply list_elem_of_fmap. exists (mkLocalObject (w_next_txn w) localID name row).
    split; [done|]. subst objs. apply list_elem_of_omap. exists name.
    rewrite elem_of_remove_dups, Hrow. done.
  - rewrite decide_False; [done|]. intros Hin'.
    apply list_elem_of_fmap in Hin' as (o & -> & Ho).
    rewrite Forall_forall in Hobjs. by destruct (Hobjs o Ho) as (_ & _ & _ & ?).
Qed.

Lemma purgeBatch_removes_witness :
  ∃ w' cal',
    in_txn Scenario.diruid "purgeBatch" (purgeBatch Scenario.diruid)
      (101, ["old.ics"; "e1.ics"]) Scenario.incremental = (Ok tt, w')
    ∧ db_calendars (w_db w') !! 101 = Some cal'
    ∧ c_objects cal' !! "e1.ics" = None
    ∧ c_objects cal' !! "e2.ics" = Some (mkCalObject 103 "y" "VEVENT-2" "public").
Proof.
  destruct (purgeBatch_removes Scenario.diruid 101 ["old.ics"; "e1.ics"] Scenario.incremental
              (mkHome 100 "" (Some "user42")) Scenario.local_calendar101
              eq_refl eq_refl eq_refl)
    as (w' & cal' & Hrun & Hcal & _ & _ & _ & Hobjects & _).
  exists w', cal'. split; [exact Hrun|]. split; [exact Hcal|].
  split; rewrite Hobjects; reflexivity.
Defined.

Lemma updateBatch_db diruid t localID remoteID names w w' resourceID record rc home cal :
  r_resourceID (w_remote w) = Some resourceID →
  w_record w = Some (Some record) →
  r_calendars (w_remote w) !! remoteID = Some rc →
  db_homes (w_db w) !! migratingUid diruid = Some home →
  db_calendars (w_db w) !! localID = Some cal →
  c_home cal = h_id home →
  updateBatch diruid (PyTxn t) (localID, remoteID, names) w = (Ok tt, w') →
  ∃ cal',
    db_calendars (w_db w') !! localID = Some cal'
    ∧ c_home cal' = c_home cal
    ∧ (∀ name, name ∈ names →
         match rc_objects rc !! name with
         | Some ro =>
             ∃ id, c_objects cal' !! name
                   = Some (mkCalObject id (o_md5 ro) (o_component ro) (o_meta ro))
                 ∧ ∀ lo, c_objects cal !! name = Some lo → id = o_id lo
         | None => c_objects cal' !! name = None
         end)
    ∧ (∀ name, name ∉ names → c_objects cal' !! name = c_objects cal !! name)
    ∧ (∀ calendarID, calendarID ≠ localID →
         db_calendars (w_db w') !! calendarID = db_calendars (w_db w) !! calendarID).
Proof.
  intros Hrid Hrec Hrc Hhome Hcal Hown.
  unfold updateBatch. rewrite run_bind, _remoteHome_run, Hrid, Hrec. run_cbn.
  unfold remote_childWithID. run_cbn. rewrite Hrc. run_cbn.
  unfold remote_objectResourcesWithNames, calendarHomeWithUID, home_childWithID. run_cbn.
  rewrite Hhome. run_cbn. rewrite Hcal. run_cbn. rewrite decide_True by done. run_cbn.
  unfold calendar_objectResourcesWithNames. run_cbn. rewrite Hcal.
  set (w2 := record_event (EvMigrating t) _).
  set (remote_objects := py_dict _). set (local_objects := py_dict (_ <$> omap _ _)).
  assert (Hremote : ∀ n, remote_objects !! n
            = if decide (n ∈ names) then mkRemoteObject n <$> rc_objects rc !! n else None).
  { intros n. subst remote_objects. by apply (objects_dict_lookup mkRemoteObject ro_name). }
  assert (Hlocal : ∀ n, local_objects !! n
            = if decide (n ∈ names) then mkLocalObject t localID n <$> c_objects cal !! n
              else None).
  { intros n. subst local_objects.
    by apply (objects_dict_lookup (mkLocalObject t localID) lo_name). }
  match goal with |- context [for_each _ ?b _] => set (body := b) end.
  rewrite run_bind.
  destruct (for_each (map_to_list remote_objects) body local_objects w2) as [r1 w3] eqn:Hloop.
  pose (I := fun (pre : list (string * RemoteObject)) (s : gmap string LocalObject)
                 (w3 : World) =>
    ∃ cal3, db_calendars (w_db w3) !! localID = Some cal3
      ∧ c_home cal3 = c_home cal
      ∧ (∀ n ro, (n, ro) ∈ pre →
           ∃ id, c_objects cal3 !! n
                 = Some (mkCalObject id (o_md5 (ro_row ro)) (o_component (ro_row ro))
                           (o_meta (ro_row ro)))
               ∧ ∀ lo, c_objects cal !! n = Some lo → id = o_id lo)
      ∧ (∀ n, n ∉ pre.*1 → c_objects cal3 !! n = c_objects cal !! n)
      ∧ (∀ n, s !! n = if decide (n ∈ pre.*1) then None else local_objects !! n)
      ∧ (∀ cid, cid ≠ localID →
           db_calendars (w_db w3) !! cid = db_calendars (w_db w) !! cid)).
  apply (for_each_inv_prefix I (fun _ => True)) in Hloop.
  - destruct r1 as [s'|e]; [|done].
    destruct Hloop as (cal3 & Hcal3 & Hhome3 & Hdone & Htodo & Hs & Hothers).
    set (objs := (map_to_list s').*2).
    assert (Hobjs : ∀ o, o ∈ objs ↔
              ∃ row, c_objects cal !! lo_name o = Some row ∧ lo_name o ∈ names
                     ∧ rc_objects rc !! lo_name o = None
                     ∧ o = mkLocalObject t localID (lo_name o) row).
    { intros o. subst objs. rewrite list_elem_of_fmap. split.
      - intros ([n o'] & -> & Hin). apply elem_of_map_to_list in Hin. cbn.
        rewrite Hs in Hin. destruct (decide (n ∈ _)) as [|Hn]; [done|].
        rewrite Hlocal in Hin. destruct (decide (n ∈ names)) as [Hnames|]; [|done].
        destruct (c_objects cal !! n) as [row|] eqn:Hrow; [|done]. injection Hin as <-. cbn.
        exists row. split; [done|]. split; [done|]. split; [|done].
        destruct (rc_objects rc !! n) as [ro|] eqn:Hro; [|done].
        exfalso. apply Hn. apply list_elem_of_fmap. exists (n, mkRemoteObject n ro).
        split; [done|]. apply elem_of_map_to_list. by rewrite Hremote, decide_True, Hro.
      - intros (row & Hrow & Hnames & Hro & Ho). exists (lo_name o, o). split; [done|].
        apply elem_of_map_to_list. rewrite Hs, decide_False.
        + rewrite Hlocal, decide_True, Hrow by done. cbn. by rewrite <- Ho.
        + intros Hin. apply list_elem_of_fmap in Hin as ([n ro] & Heq & Hin). cbn in Heq.
          subst n. apply elem_of_map_to_list in Hin. rewrite Hremote, decide_True, Hro in Hin by done.
          done. }
    destruct (purge_all_db localID objs w3 cal3)
      as (w4 & cal4 & Hrun4 & Hcal4 & Hh4 & _ & _ & Hobjects4 & Hothers4 & _).
    { apply Forall_forall. intros o Ho. apply Hobjs in Ho as (row & _ & _ & _ & ->). done. }
    { done. }
    fold objs. rewrite Hrun4. intros [= <-]. exists cal4. split; [done|].
    split; [congruence|]. split; [|split].
    + intros name Hname. rewrite Hobjects4.
      destruct (rc_objects rc !! name) as [ro|] eqn:Hro.
      * rewrite decide_False.
        -- destruct (Hdone name (mkRemoteObject name ro)) as (id & Hid & Hkeep).
           { apply elem_of_map_to_list. by rewrite Hremote, decide_True, Hro. }
           exists id. done.
        -- intros Hin. apply list_elem_of_fmap in Hin as (o & -> & Ho).
           apply Hobjs in Ho as (row & _ & _ & Hnone & _). congruence.
      * destruct (decide (name ∈ lo_name <$> objs)) as [|Hnot]; [done|].
        rewrite Htodo.
        -- destruct (c_objects cal !! name) as [row|] eqn:Hrow; [|done].
           exfalso. apply Hnot. apply list_elem_of_fmap.
           exists (mkLocalObject t localID name row). split; [done|]. apply Hobjs. cbn. eauto.
        -- intros Hin. apply list_elem_of_fmap in Hin as ([n ro] & Heq & Hin). cbn in Heq.
           subst n. apply elem_of_map_to_list in Hin.
           rewrite Hremote, decide_True, Hro in Hin by done. done.
    + intros name Hname. rewrite Hobjects4, decide_False.
      * apply Htodo. intros Hin. apply list_elem_of_fmap in Hin as ([n ro] & Heq & Hin).
        cbn in Heq. subst n. apply elem_of_map_to_list in Hin.
        rewrite Hremote, decide_False in Hin by done. done.
      * intros Hin. apply list_elem_of_fmap in Hin as (o & -> & Ho).
        apply Hobjs in Ho as (row & _ & ? & _). done.
    + intros cid Hcid. rewrite Hothers4, Hothers by done. done.
  - (* one turn of the loop *)
    clear Hloop r1 w3 w'. intros pre [obj_name remote_object] post s w3 r w' Hl HI.
    destruct HI as (cal3 & Hcal3 & Hhome3 & Hdone & Htodo & Hs & Hothers).
    assert (Hfresh : obj_name ∉ pre.*1).
    { pose proof (NoDup_fst_map_to_list remote_objects) as Hnd. rewrite Hl, fmap_app in Hnd.
      apply NoDup_app in Hnd as (_ & Hnd & _). intros Hin. apply (Hnd _ Hin). by left. }
    assert (Hin_remote : remote_objects !! obj_name = Some remote_object).
    { apply elem_of_map_to_list. rewrite Hl. apply elem_of_app. right. by left. }
    rewrite Hremote in Hin_remote.
    destruct (decide (obj_name ∈ names)) as [Hnames|]; [|done].
    destruct (rc_objects rc !! obj_name) as [row_r|] eqn:Hrow_r; [|done].
    injection Hin_remote as <-.
    assert (Hstep : ∀ (w4 : World) cal4 id,
              db_calendars (w_db w4) !! localID = Some cal4 →
              c_home cal4 = c_home cal3 →
              c_objects cal4 !! obj_name
                = Some (mkCalObject id (o_md5 row_r) (o_component row_r) (o_meta row_r)) →
              (∀ lo, c_objects cal !! obj_name = Some lo → id = o_id lo) →
              (∀ n, n ≠ obj_name → c_objects cal4 !! n = c_objects cal3 !! n) →
              (∀ cid, cid ≠ localID →
                 db_calendars (w_db w4) !! cid = db_calendars (w_db w3) !! cid) →
              I (pre ++ [(obj_name, mkRemoteObject obj_name row_r)]) (delete obj_name s) w4).
    { intros w4 cal4 id Hcal4 Hhome4 Hnew Hid Hrest Hothers4.
      exists cal4. split; [done|]. split; [congruence|]. split; [|split; [|split]].
      - intros n ro Hin. apply elem_of_app in Hin as [Hin|Hin].
        + rewrite Hrest; [by apply Hdone|]. intros ->. apply Hfresh.
          apply list_elem_of_fmap. by exists (obj_name, ro).
        + apply list_elem_of_singleton in Hin as [= -> ->]. cbn. eauto.
      - intros n Hn. rewrite fmap_app in Hn. rewrite Hrest.
        + apply Htodo. intros Hin. apply Hn, elem_of_app. by left.
        + intros ->. apply Hn, elem_of_app. right. by left.
      - intros n. rewrite fmap_app. destruct (decide (n = obj_name)) as [->|Hne].
        + rewrite lookup_delete_eq, decide_True; [done|]. apply elem_of_app. right. by left.
        + rewrite lookup_delete_ne, Hs by done.
          destruct (decide (n ∈ pre.*1)) as [Hin|Hin].
          * rewrite decide_True; [done|]. apply elem_of_app. by left.
          * rewrite decide_False; [done|]. intros Hin'. apply elem_of_app in Hin' as [?|Hin']; [done|].
            apply list_elem_of_singleton in Hin'. done.
      - intros cid Hcid. rewrite Hothers4, Hothers by done. done. }
    subst body. cbn beta. cbn [fst snd].
    pose proof (Hs obj_name) as Hs_name. rewrite decide_False, Hlocal, decide_True in Hs_name by done.
    pose proof (Htodo obj_name Hfresh) as Hcal3_name.
    destruct (c_objects cal !! obj_name) as [row_l|] eqn:Hrow_l; cbn in Hs_name;
      rewrite Hs_name.
    + unfold object_setComponentInternal, object_copyMetadata. run_cbn.
      intros [= <- <-].
      eapply (Hstep _ _ (o_id row_l)).
      * run_cbn. rewrite !lookup_alter_eq, Hcal3. reflexivity.
      * done.
      * cbn. rewrite !lookup_alter_eq, Hcal3_name. reflexivity.
      * by intros lo [= <-].
      * intros n Hn. cbn. by rewrite !lookup_alter_ne.
      * intros cid Hcid. run_cbn. by rewrite !lookup_alter_ne.
    + unfold calendar_createCalendarObjectWithNameInternal, fresh_id, self_homeId,
        CalendarObjectMigrationRecord_create, object_copyMetadata. run_lazy.
      rewrite Hcal3. run_lazy. rewrite Hcal3_name. run_lazy.
      destruct (w_homeId w3) as [homeId|]; run_lazy; [|by intros [= <- <-]].
      destruct (_ !! (homeId, _)); run_lazy; [by intros [= <- <-]|].
      intros [= <- <-].
      assert (Hs' : s = delete obj_name s).
      { symmetry. by apply delete_id. }
      rewrite Hs'.
      eapply (Hstep _ _ (w_next_id w3)).
      * run_cbn. rewrite !lookup_alter_eq, Hcal3. reflexivity.
      * done.
      * cbn. rewrite lookup_alter_eq, lookup_insert_eq. reflexivity.
      * by intros lo [=].
      * intros n Hn. cbn. by rewrite lookup_alter_ne, lookup_insert_ne.
      * intros cid Hcid. run_cbn. by rewrite !lookup_alter_ne.
  - (* before the loop *)
    exists cal. split; [done|]. split; [done|]. split; [|split; [|split]].
    + intros n ro Hin. by apply not_elem_of_nil in Hin.
    + done.
    + intros n. rewrite decide_False; [done|]. cbn. apply not_elem_of_nil.
    + done.
Qed.

(** X9.  [updateBatch], when it ends normally on a calendar of the local
    migrating home: for every name of the batch, if the remote calendar has an
    object resource of that name, the local calendar then has one with the
    remote md5, component and meta-data (with the local id it had, if it
    existed), and otherwise the local calendar has none under that name;
    object resources whose names are not in the batch, and the other
    calendars, are untouched. *)
Theorem updateBatch_mirrors (diruid : string) (localID remoteID : nat) (names : list string)
    (w w' : World) (resourceID : nat) (record : DirRecord) (rc : RemoteCalendar)
    (home : Home) (cal : Calendar) :
  r_resourceID (w_remote w) = Some resourceID →
  w_record w = Some (Some record) →
  r_calendars (w_remote w) !! remoteID = Some rc →
  db_homes (w_db w) !! migratingUid diruid = Some home →
  db_calendars (w_db w) !! localID = Some cal →
  c_home cal = h_id home →
  in_txn diruid "updateBatch" (updateBatch diruid) (localID, remoteID, names) w = (Ok tt, w') →
  ∃ cal',
    db_calendars (w_db w') !! localID = Some cal'
    ∧ c_home cal' = c_home cal
    ∧ (∀ name, name ∈ names →
         match rc_objects rc !! name with
         | Some ro =>
             ∃ id, c_objects cal' !! name
                   = Some (mkCalObject id (o_md5 ro) (o_component ro) (o_meta ro))
                 ∧ ∀ lo, c_objects cal !! name = Some lo → id = o_id lo
         | None => c_objects cal' !! name = None
         end)
    ∧ (∀ name, name ∉ names → c_objects cal' !! name = c_objects cal !! name)
    ∧ (∀ calendarID, calendarID ≠ localID →
         db_calendars (w_db w') !! calendarID = db_calendars (w_db w) !! calendarID).
Proof.
  intros Hrid Hrec Hrc Hhome Hcal Hown. rewrite in_txn_run.
  destruct (updateBatch _ _ _ _) as [[[]|e] w2] eqn:Hrun; [|done].
  intros [= <-]. run_cbn.
  by eapply (updateBatch_db diruid (w_next_txn w) localID remoteID names
               (begin_txn diruid "updateBatch" w)).
Qed.

Lemma updateBatch_mirrors_witness :
  ∃ cal',
    db_calendars (w_db (in_txn Scenario.diruid "updateBatch" (updateBatch Scenario.diruid)
                          (101, 10, ["e1.ics"; "e3.ics"; "e2.ics"; "old.ics"])
                          Scenario.incremental).2) !! 101 = Some cal'
    ∧ c_objects cal' !! "e1.ics" = Some (mkCalObject 102 "x2" "VEVENT-1b" "private")
    ∧ c_objects cal' !! "e3.ics" = Some (mkCalObject 104 "v" "VEVENT-3" "public").
Proof.
  destruct (updateBatch_mirrors Scenario.diruid 101 10 ["e1.ics"; "e3.ics"; "e2.ics"; "old.ics"]
              Scenario.incremental
              (in_txn Scenario.diruid "updateBatch" (updateBatch Scenario.diruid)
                 (101, 10, ["e1.ics"; "e3.ics"; "e2.ics"; "old.ics"]) Scenario.incremental).2
              1 (mkDirRecord "user42" false) Scenario.calendar10_later
              (mkHome 100 "" (Some "user42")) Scenario.local_calendar101)
    as (cal' & Hcal' & _ & Hnames & _); try (vm_compute; reflexivity).
  exists cal'. split; [done|]. vm_compute in Hcal'. injection Hcal' as <-.
  split; vm_compute; reflexivity.
Defined.

(** ** Attachment data and links *)

(** X10.  [syncAttachmentData] for a local attachment id that is not an
    attachment of the local migrating home returns without reading any data:
    the store is unchanged and the only conduit call is the one that looks up
    the remote home. *)
Theorem syncAttachmentData_missing_attachment (diruid : string) (w : World) (record : DirRecord)
    (home : Home) (local_id : nat) :
  w_record w = Some (Some record) →
  db_homes (w_db w) !! migratingUid diruid = Some home →
  (∀ row, db_attachments (w_db w) !! local_id = Some row → a_home row ≠ h_id home) →
  ∃ w',
    in_txn diruid "syncAttachmentData" (syncAttachmentData diruid) local_id w = (Ok tt, w')
    ∧ w_db w' = w_db w
    ∧ w_trace w' = w_trace w
        ++ [EvNewTransaction (w_next_txn w) (label diruid "syncAttachmentData");
            EvConduit (w_next_txn w) "home_resource_id";
            EvCommit (w_next_txn w)].
Proof.
  intros Hrec Hhome Hmissing. rewrite in_txn_run. unfold syncAttachmentData.
  rewrite run_bind, _remoteHome_run. run_cbn. rewrite Hrec.
  unfold calendarHomeWithUID, home_getAttachmentByID.
  destruct (r_resourceID (w_remote w)) as [resourceID|]; run_cbn; rewrite Hhome; run_cbn.
  - destruct (db_attachments (w_db w) !! local_id) as [row|] eqn:Hrow; run_cbn.
    + rewrite decide_False by (by apply Hmissing). run_cbn.
      eexists. split; [reflexivity|]. cbn. by rewrite <- !app_assoc.
    + eexists. split; [reflexivity|]. cbn. by rewrite <- !app_assoc.
  - destruct (db_attachments (w_db w) !! local_id) as [row|] eqn:Hrow; run_cbn.
    + rewrite decide_False by (by apply Hmissing). run_cbn.
      eexists. split; [reflexivity|]. cbn. by rewrite <- !app_assoc.
    + eexists. split; [reflexivity|]. cbn. by rewrite <- !app_assoc.
Qed.

Lemma syncAttachmentData_missing_attachment_witness :
  ∃ w',
    in_txn Scenario.diruid "syncAttachmentData" (syncAttachmentData Scenario.diruid) 204
      Scenario.attachments = (Ok tt, w')
    ∧ w_db w' = w_db Scenario.attachments
    ∧ w_trace w'
      = [EvNewTransaction 30 "Cross-pod Migration Sync for user42: syncAttachmentData";
         EvConduit 30 "home_resource_id"; EvCommit 30].
Proof.
  apply (syncAttachmentData_missing_attachment Scenario.diruid Scenario.attachments
           (mkDirRecord "user42" false) (mkHome 100 "" (Some "user42")) 204);
    try reflexivity.
  intros row Hrow. vm_compute in Hrow. discriminate Hrow.
Defined.

(** The records [querysimple] finds for a local attachment id that only one
    row of the home maps to: that row's record comes first. *)
Lemma records_of_local_id (h l rid : nat) (table : gmap (nat * nat) nat) :
  table !! (h, rid) = Some l →
  (∀ rid', table !! (h, rid') = Some l → rid' = rid) →
  ∃ rest, filter (fun r => im_local r = l) (id_records h table)
          = mkIdMigrationRecord h rid l :: rest.
Proof.
  intros Hrow Huniq.
  assert (Hall : ∀ r, r ∈ filter (fun r => im_local r = l) (id_records h table) →
            r = mkIdMigrationRecord h rid l).
  { intros r Hr. apply list_elem_of_filter in Hr as [Hl Hr]. unfold id_records in Hr.
    apply list_elem_of_fmap in Hr as ([[h' rid'] l'] & -> & Hin). cbn in *. subst l'.
    apply elem_of_map_to_list, map_lookup_filter_Some in Hin as [Hin Hh]. cbn in Hh. subst h'.
    by rewrite (Huniq _ Hin). }
  assert (Hin : mkIdMigrationRecord h rid l
                ∈ filter (fun r => im_local r = l) (id_records h table)).
  { apply list_elem_of_filter. split; [done|]. unfold id_records. apply list_elem_of_fmap.
    exists ((h, rid), l). split; [done|]. apply elem_of_map_to_list, map_lookup_filter_Some. done. }
  destruct (filter _ _) as [|r rest]; [by apply not_elem_of_nil in Hin|].
  exists rest. f_equal. apply Hall. by left.
Qed.

(** X11.  [syncAttachmentData] for an attachment of the local migrating
    home that ATTACHMENT_MIGRATION maps from exactly one remote attachment,
    present in the remote home: it ends normally and the local attachment
    then has the data and md5 of the remote attachment, its home and
    meta-data as before; the other attachments and the mapping are
    unchanged. *)
Theorem syncAttachmentData_copies (diruid : string) (w : World) (resourceID : nat)
    (record : DirRecord) (home : Home) (homeId local_id remote_id : nat)
    (row source : Attachment) :
  r_resourceID (w_remote w) = Some resourceID →
  w_record w = Some (Some record) →
  db_homes (w_db w) !! migratingUid diruid = Some home →
  w_homeId w = Some homeId →
  db_attachments (w_db w) !! local_id = Some row →
  a_home row = h_id home →
  db_attachment_migration (w_db w) !! (homeId, remote_id) = Some local_id →
  (∀ remote_id', db_attachment_migration (w_db w) !! (homeId, remote_id') = Some local_id →
     remote_id' = remote_id) →
  r_attachments (w_remote w) !! remote_id = Some source →
  ∃ w',
    in_txn diruid "syncAttachmentData" (syncAttachmentData diruid) local_id w = (Ok tt, w')
    ∧ db_attachments (w_db w')
      = <[local_id := mkAttachment (a_home row) (a_md5 source) (a_meta row) (a_data source)]>
          (db_attachments (w_db w))
    ∧ db_attachment_migration (w_db w') = db_attachment_migration (w_db w).
Proof.
  intros Hrid Hrec Hhome Hh Hrow Hown Hmap Huniq Hsource. rewrite in_txn_run.
  unfold syncAttachmentData.
  rewrite run_bind, _remoteHome_run. run_cbn. rewrite Hrid, Hrec.
  unfold calendarHomeWithUID, home_getAttachmentByID, self_homeId,
    AttachmentMigrationRecord_querysimple_local, remote_readAttachmentData.
  run_lazy. rewrite Hhome. run_cbn. rewrite Hrow. run_cbn. rewrite decide_True by done.
  run_cbn. rewrite Hh. run_cbn.
  destruct (records_of_local_id homeId local_id remote_id _ Hmap Huniq) as [rest ->].
  run_cbn. cbn [im_remote]. rewrite Hsource. run_cbn.
  eexists. split; [reflexivity|]. run_cbn. split; [|done].
  rewrite db_txn_commit. cbn.
  apply map_eq. intros k. destruct (decide (k = local_id)) as [->|Hne].
  - by rewrite lookup_alter_eq, lookup_insert_eq, Hrow.
  - by rewrite lookup_alter_ne, lookup_insert_ne.
Qed.

Lemma syncAttachmentData_copies_witness :
  ∃ w',
    in_txn Scenario.diruid "syncAttachmentData" (syncAttachmentData Scenario.diruid) 201
      Scenario.attachments = (Ok tt, w')
    ∧ db_attachments (w_db w') !! 201 = Some (mkAttachment 100 "z2" "image/png" "bytes-z2")
    ∧ db_attachments (w_db w') !! 202 = Some (mkAttachment 100 "k" "text/plain" "bytes-k").
Proof.
  destruct (syncAttachmentData_copies Scenario.diruid Scenario.attachments 1
              (mkDirRecord "user42" false) (mkHome 100 "" (Some "user42")) 100 201 7
              (mkAttachment 100 "z" "image/png" "bytes-z")
              (mkAttachment 1 "z2" "image/png" "bytes-z2"))
    as (w' & Hrun & Hatt & _); try reflexivity.
  - intros remote_id' Hrow.
    assert (Hall : map_Forall (fun (k : nat * nat) (l : nat) => k.1 = 100 → l = 201 → k.2 = 7)
                     (db_attachment_migration (w_db Scenario.attachments))).
    { refine (bool_decide_unpack _ _). vm_compute. exact I. }
    exact (Hall _ _ Hrow eq_refl eq_refl).
  - exists w'. split; [exact Hrun|]. rewrite Hatt. split; reflexivity.
Defined.

Lemma link_batches diruid (attachmentIDMap objectIDMap : gmap nat IdMigrationRecord)
    (fuel : nat) (links : list Link) (w : World) :
  length links ≤ fuel →
  Forall (link_mapped attachmentIDMap objectIDMap) links →
  ∃ w',
    batch_loop 50 fuel links (fun window =>
      in_txn diruid "makeAttachmentLinks" makeAttachmentLinks
        (window, attachmentIDMap, objectIDMap)) w = (Ok tt, w')
    ∧ db_links (w_db w) `prefix_of` db_links (w_db w')
    ∧ (∀ new, new ∈ db_links (w_db w')
              ↔ new ∈ db_links (w_db w)
                ∨ ∃ link, link ∈ links ∧ link_remapped attachmentIDMap objectIDMap link new)
    ∧ (NoDup (db_links (w_db w)) → NoDup (db_links (w_db w')))
    ∧ ((∀ link new, link ∈ links →
          link_remapped attachmentIDMap objectIDMap link new → new ∈ db_links (w_db w)) →
       db_links (w_db w') = db_links (w_db w)).
Proof.
  assert (Hnil : ∀ w0 : World,
            db_links (w_db w0) `prefix_of` db_links (w_db w0)
            ∧ (∀ new, new ∈ db_links (w_db w0)
                      ↔ new ∈ db_links (w_db w0)
                        ∨ ∃ link, link ∈ @nil Link
                                  ∧ link_remapped attachmentIDMap objectIDMap link new)
            ∧ (NoDup (db_links (w_db w0)) → NoDup (db_links (w_db w0)))
            ∧ ((∀ link new, link ∈ @nil Link →
                  link_remapped attachmentIDMap objectIDMap link new →
                  new ∈ db_links (w_db w0)) →
               db_links (w_db w0) = db_links (w_db w0))).
  { intros w0. split; [done|]. split; [|done]. intros new. split; [by left|].
    intros [?|(link & Hin & _)]; [done|]. by apply not_elem_of_nil in Hin. }
  revert links w. induction fuel as [|fuel IH]; intros [|link links] w Hlen Hmapped;
    cbn in Hlen; try lia.
  - exists w. split; [done|]. apply Hnil.
  - exists w. split; [done|]. apply Hnil.
  - cbn [batch_loop]. rewrite run_bind, in_txn_run.
    set (all := link :: links) in *. set (window := take 50 all).
    destruct (makeAttachmentLinks_run (w_next_txn w) window attachmentIDMap objectIDMap
                (begin_txn diruid "makeAttachmentLinks" w)) as [Hok _].
    destruct Hok as (w1 & Hrun1 & Hpre1 & Hin1 & Hnd1 & Hsame1); [by apply Forall_take|].
    rewrite Hrun1.
    destruct (IH (drop 50 all) (txn_commit (w_next_txn w) w1).2)
      as (w2 & Hrun2 & Hpre2 & Hin2 & Hnd2 & Hsame2).
    { rewrite length_drop. subst all. cbn [length]. lia. }
    { by apply Forall_drop. }
    run_cbn_in Hpre1. run_cbn_in Hin1. run_cbn_in Hnd1. run_cbn_in Hsame1.
    rewrite db_txn_commit in Hpre2, Hin2, Hnd2, Hsame2.
    assert (Hall : ∀ l, l ∈ all ↔ l ∈ window ∨ l ∈ drop 50 all).
    { intros l. subst window. by rewrite <- elem_of_app, take_drop. }
    exists w2. split; [exact Hrun2|]. split; [by etransitivity|]. split; [|split].
    + intros new. rewrite Hin2, Hin1. split.
      * intros [[?|(l & Hl & Hre)]|(l & Hl & Hre)]; [by left| |].
        -- right. exists l. split; [apply Hall; by left | done].
        -- right. exists l. split; [apply Hall; by right | done].
      * intros [?|(l & Hl & Hre)]; [by left; left|].
        apply Hall in Hl as [Hl|Hl]; [left; right | right]; by exists l.
    + intros Hnd. by apply Hnd2, Hnd1.
    + intros Hthere.
      assert (Hw1 : db_links (w_db w1) = db_links (w_db w)).
      { apply Hsame1. intros l new Hl Hre. apply (Hthere l); [|done]. apply Hall. by left. }
      rewrite Hsame2; [done|]. intros l new Hl Hre. rewrite Hw1.
      apply (Hthere l); [|done]. apply Hall. by right.
Qed.

Lemma getAttachmentLinks_run diruid w resourceID record :
  r_resourceID (w_remote w) = Some resourceID →
  w_record w = Some (Some record) →
  ∃ w1,
    in_txn diruid "getAttachmentLinks" getAttachmentLinks tt w = (Ok (r_links (w_remote w)), w1)
    ∧ w_db w1 = w_db w ∧ w_homeId w1 = w_homeId w.
Proof.
  intros Hrid Hrec. rewrite in_txn_run.
  unfold getAttachmentLinks. rewrite run_bind, _remoteHome_run. run_cbn.
  rewrite Hrid, Hrec. run_cbn. unfold remote_getAttachmentLinks. run_cbn.
  eexists. split; [reflexivity|]. split; reflexivity.
Qed.

Lemma getAttachmentMappings_run diruid w homeId :
  w_homeId w = Some homeId →
  ∃ attachmentIDMap objectIDMap w1,
    in_txn diruid "getAttachmentMappings" getAttachmentMappings tt w
    = (Ok (attachmentIDMap, objectIDMap), w1)
    ∧ w_db w1 = w_db w
    ∧ (∀ rid, attachmentIDMap !! rid
         = mkIdMigrationRecord homeId rid <$> db_attachment_migration (w_db w) !! (homeId, rid))
    ∧ (∀ rid, objectIDMap !! rid
         = mkIdMigrationRecord homeId rid <$> db_object_migration (w_db w) !! (homeId, rid)).
Proof.
  intros Hh. rewrite in_txn_run.
  unfold getAttachmentMappings, self_homeId, AttachmentMigrationRecord_querysimple,
    CalendarObjectMigrationRecord_querysimple, id_records.
  run_lazy. rewrite Hh. run_cbn. rewrite Hh. run_cbn.
  eexists _, _, _. split; [reflexivity|]. split; [reflexivity|]. split.
  - intros rid. by apply (rows_of_home_lookup mkIdMigrationRecord im_remote).
  - intros rid. by apply (rows_of_home_lookup mkIdMigrationRecord im_remote).
Qed.

Lemma linkAttachments_keeps diruid :
  respects true
    (same (fun w => (db_attachment_migration (w_db w), db_object_migration (w_db w),
                     w_homeId w, w_record w, w_remote w)))
    (linkAttachments diruid).
Proof. respects_auto same_leaf. Qed.

Lemma link_remapped_rebound (attachmentIDMap objectIDMap : gmap nat IdMigrationRecord)
    (db : DB) (homeId : nat) (link new : Link) :
  (∀ rid, attachmentIDMap !! rid
          = mkIdMigrationRecord homeId rid <$> db_attachment_migration db !! (homeId, rid)) →
  (∀ rid, objectIDMap !! rid
          = mkIdMigrationRecord homeId rid <$> db_object_migration db !! (homeId, rid)) →
  link_remapped attachmentIDMap objectIDMap link new ↔ link_rebound db homeId link new.
Proof.
  intros Hatt Hobj. unfold link_remapped, link_rebound. rewrite Hatt, Hobj. split.
  - intros (a & o & Ha & Ho & ->).
    destruct (db_attachment_migration db !! _) as [aid|]; [|done].
    destruct (db_object_migration db !! _) as [oid|]; [|done].
    injection Ha as <-. injection Ho as <-. by exists aid, oid.
  - intros (aid & oid & -> & -> & ->). by eexists _, _.
Qed.

Lemma linkAttachments_run diruid w resourceID record homeId :
  r_resourceID (w_remote w) = Some resourceID →
  w_record w = Some (Some record) →
  w_homeId w = Some homeId →
  Forall (fun link =>
            is_Some (db_attachment_migration (w_db w) !! (homeId, l_attachmentID link))
            ∧ is_Some (db_object_migration (w_db w) !! (homeId, l_calendarObjectID link)))
         (r_links (w_remote w)) →
  ∃ w1,
    linkAttachments diruid w = (Ok (length (r_links (w_remote w))), w1)
    ∧ db_links (w_db w) `prefix_of` db_links (w_db w1)
    ∧ (∀ new, new ∈ db_links (w_db w1)
              ↔ new ∈ db_links (w_db w)
                ∨ ∃ link, link ∈ r_links (w_remote w) ∧ link_rebound (w_db w) homeId link new)
    ∧ (NoDup (db_links (w_db w)) → NoDup (db_links (w_db w1)))
    ∧ ((∀ link new, link ∈ r_links (w_remote w) → link_rebound (w_db w) homeId link new →
          new ∈ db_links (w_db w)) →
       db_links (w_db w1) = db_links (w_db w)).
Proof.
  intros Hrid Hrec Hh Hmapped.
  destruct (getAttachmentLinks_run diruid (record_event (EvEnter "linkAttachments") w)
              resourceID record Hrid Hrec) as (w1 & Hrun1 & Hdb1 & Hh1).
  change (w_remote (record_event _ w)) with (w_remote w) in Hrun1.
  destruct (getAttachmentMappings_run diruid w1 homeId) as (A & O & w2 & Hrun2 & Hdb2 & Hatt & Hobj).
  { by rewrite Hh1. }
  rewrite Hdb1 in Hatt, Hobj. run_cbn_in Hatt. run_cbn_in Hobj.
  pose proof (fun link new => link_remapped_rebound A O (w_db w) homeId link new Hatt Hobj)
    as Hrebound.
  destruct (link_batches diruid A O (length (r_links (w_remote w))) (r_links (w_remote w)) w2)
    as (w3 & Hrun3 & Hpre & Hin & Hnd & Hsame).
  { done. }
  { eapply Forall_impl; [exact Hmapped|]. intros link [[a Ha] [o Ho]].
    unfold link_mapped. rewrite Hatt, Hobj, Ha, Ho. cbn. eauto. }
  rewrite Hdb2, Hdb1 in Hpre, Hin, Hnd, Hsame.
  run_cbn_in Hpre. run_cbn_in Hin. run_cbn_in Hnd. run_cbn_in Hsame.
  exists (record_event (EvLeave "linkAttachments") w3). split; [|split; [|split; [|split]]].
  - unfold linkAttachments, call. rewrite run_bind. unfold emit at 1, modify at 1. cbv beta iota.
    rewrite run_bind, run_bind, Hrun1. cbv beta iota.
    rewrite run_bind, Hrun2. cbv beta iota.
    rewrite run_bind, Hrun3. reflexivity.
  - exact Hpre.
  - intros new. cbn [w_db record_event]. rewrite Hin. split.
    + intros [?|(link & Hl & Hre)]; [by left|]. right. exists link. by rewrite <- Hrebound.
    + intros [?|(link & Hl & Hre)]; [by left|]. right. exists link. by rewrite Hrebound.
  - exact Hnd.
  - intros Hthere. cbn [w_db record_event]. apply Hsame. intros link new Hl Hre.
    apply (Hthere link); [done|]. by rewrite <- Hrebound.
Qed.

(** X12.  [linkAttachments], when every link of the remote home has its
    attachment id and its calendar object id in the migration tables of the
    home: it ends normally with the number of remote links.  The rows of
    ATTACHMENT_CALENDAR_OBJECT are kept, and the rows it has gained are the
    remote links with both ids replaced by the local ids that the tables
    store for them; no row is there twice if none was before.  A second run
    ends the same way and leaves the table as the first run left it. *)
Theorem linkAttachments_all_mapped (diruid : string) (w : World) (resourceID : nat)
    (record : DirRecord) (homeId : nat) :
  r_resourceID (w_remote w) = Some resourceID →
  w_record w = Some (Some record) →
  w_homeId w = Some homeId →
  Forall (fun link =>
            is_Some (db_attachment_migration (w_db w) !! (homeId, l_attachmentID link))
            ∧ is_Some (db_object_migration (w_db w) !! (homeId, l_calendarObjectID link)))
         (r_links (w_remote w)) →
  ∃ w1 w2,
    linkAttachments diruid w = (Ok (length (r_links (w_remote w))), w1)
    ∧ db_links (w_db w) `prefix_of` db_links (w_db w1)
    ∧ (∀ new, new ∈ db_links (w_db w1)
              ↔ new ∈ db_links (w_db w)
                ∨ ∃ link, link ∈ r_links (w_remote w) ∧ link_rebound (w_db w) homeId link new)
    ∧ (NoDup (db_links (w_db w)) → NoDup (db_links (w_db w1)))
    ∧ linkAttachments diruid w1 = (Ok (length (r_links (w_remote w))), w2)
    ∧ db_links (w_db w2) = db_links (w_db w1).
Proof.
  intros Hrid Hrec Hh Hmapped.
  destruct (linkAttachments_run diruid w resourceID record homeId Hrid Hrec Hh Hmapped)
    as (w1 & Hrun1 & Hpre1 & Hin1 & Hnd1 & _).
  pose proof (linkAttachments_keeps diruid _ _ _ Hrun1 (fun _ => eq_refl))
    as [= Hatt Hobj Hh1 Hrec1 Hremote1].
  destruct (linkAttachments_run diruid w1 resourceID record homeId)
    as (w2 & Hrun2 & _ & _ & _ & Hsame2).
  { by rewrite Hremote1. }
  { by rewrite Hrec1. }
  { by rewrite Hh1. }
  { by rewrite Hatt, Hobj, Hremote1. }
  exists w1, w2. rewrite Hremote1 in Hrun2. split; [done|]. split; [done|]. split; [done|].
  split; [done|]. split; [done|]. apply Hsame2. intros link new Hl Hre. apply Hin1. right.
  exists link. rewrite Hremote1 in Hl. split; [done|].
  unfold link_rebound in *. by rewrite <- Hatt, <- Hobj.
Qed.

Lemma linkAttachments_all_mapped_witness :
  ∃ w1 w2,
    linkAttachments Scenario.diruid (sync Scenario.diruid Scenario.fresh_world).2 = (Ok 1, w1)
    ∧ length (db_links (w_db w1)) = 1
    ∧ linkAttachments Scenario.diruid w1 = (Ok 1, w2)
    ∧ db_links (w_db w2) = db_links (w_db w1).
Proof.
  destruct (linkAttachments_all_mapped Scenario.diruid
              (sync Scenario.diruid Scenario.fresh_world).2 1 (mkDirRecord "user42" false) 100)
    as (w1 & w2 & Hrun1 & _ & _ & _ & Hrun2 & Hsame).
  - vm_compute. reflexivity.
  - vm_compute. reflexivity.
  - vm_compute. reflexivity.
  - assert (Hremote : r_links (w_remote (sync Scenario.diruid Scenario.fresh_world).2)
                      = [mkLink 7 11]) by (vm_compute; reflexivity).
    rewrite Hremote. constructor; [|constructor]. split; vm_compute; eauto.
  - exists w1, w2. split; [exact Hrun1|]. split; [|split; [exact Hrun2 | exact Hsame]].
    vm_compute in Hrun1. injection Hrun1 as <-. reflexivity.
Defined.

(** ** Delegates *)

Lemma delegates_loop (t : nat) (rows : list DelegateRecord) (w : World) :
  ∃ w',
    for_each_ rows (fun record => delegate_insert t record) w = (Ok tt, w')
    ∧ db_delegates (w_db w') = db_delegates (w_db w) ++ rows
    ∧ db_group_delegates (w_db w') = db_group_delegates (w_db w)
    ∧ db_external_delegates (w_db w') = db_external_delegates (w_db w)
    ∧ db_groups (w_db w') = db_groups (w_db w)
    ∧ w_remote w' = w_remote w
    ∧ w_record w' = w_record w.
Proof.
  unfold for_each_. revert w. induction rows as [|r rows IH]; intros w; cbn [for_each].
  - exists w. by rewrite app_nil_r.
  - rewrite run_bind. unfold delegate_insert at 1. run_lazy.
    match goal with |- context [for_each rows _ _ ?w1] =>
      destruct (IH w1) as (w' & Hrun & Hd & Hg & He & Hgr & Hr & Hrec) end.
    run_cbn_in Hd. run_cbn_in Hg. run_cbn_in He. run_cbn_in Hgr. run_cbn_in Hr. run_cbn_in Hrec.
    exists w'. split; [exact Hrun|]. by rewrite Hd, <- app_assoc.
Qed.

Lemma external_delegates_loop (t : nat) (rows : list DelegateRecord) (w : World) :
  ∃ w',
    for_each_ rows (fun record => external_delegate_insert t record) w = (Ok tt, w')
    ∧ db_external_delegates (w_db w') = db_external_delegates (w_db w) ++ rows
    ∧ db_delegates (w_db w') = db_delegates (w_db w)
    ∧ db_group_delegates (w_db w') = db_group_delegates (w_db w)
    ∧ db_groups (w_db w') = db_groups (w_db w).
Proof.
  unfold for_each_. revert w. induction rows as [|r rows IH]; intros w; cbn [for_each].
  - exists w. by rewrite app_nil_r.
  - rewrite run_bind. unfold external_delegate_insert at 1. run_lazy.
    match goal with |- context [for_each rows _ _ ?w1] =>
      destruct (IH w1) as (w' & Hrun & He & Hd & Hg & Hgr) end.
    run_cbn_in Hd. run_cbn_in Hg. run_cbn_in He. run_cbn_in Hgr.
    exists w'. split; [exact Hrun|]. by rewrite He, <- app_assoc.
Qed.

Lemma group_delegates_loop (t : nat) (items : list (GroupDelegateRecord * string)) (w : World) :
  ∃ w' new,
    for_each_ items (fun (item : GroupDelegateRecord * string) =>
      let delegator := item.1 in
      let groupUID := item.2 in
      local_groupID <- groupByUID t groupUID ;;
      let delegator :=
        mkGroupDelegateRecord (gd_delegator delegator) local_groupID (gd_readWrite delegator) in
      group_delegate_insert t delegator) w = (Ok tt, w')
    ∧ db_group_delegates (w_db w') = db_group_delegates (w_db w) ++ new
    ∧ Forall2 (fun (item : GroupDelegateRecord * string) row =>
         ∃ g, db_groups (w_db w') !! item.2 = Some g
            ∧ row = mkGroupDelegateRecord (gd_delegator item.1) g (gd_readWrite item.1))
        items new
    ∧ (∀ uid g, db_groups (w_db w) !! uid = Some g → db_groups (w_db w') !! uid = Some g)
    ∧ db_delegates (w_db w') = db_delegates (w_db w)
    ∧ db_external_delegates (w_db w') = db_external_delegates (w_db w)
    ∧ w_remote w' = w_remote w
    ∧ w_record w' = w_record w.
Proof.
  unfold for_each_. revert w. induction items as [|[d uid] items IH]; intros w; cbn [for_each].
  - exists w, []. rewrite app_nil_r. split; [done|]. split; [done|]. split; [constructor|done].
  - rewrite run_bind. unfold groupByUID at 1, group_delegate_insert at 1, fresh_id. run_lazy.
    destruct (db_groups (w_db w) !! uid) as [g|] eqn:Hg; run_cbn.
    + match goal with |- context [for_each items _ _ ?w1] =>
        destruct (IH w1) as (w' & new & Hrun & Hdb & Hnew & Hmono & Hd & He & Hr & Hrec) end.
      run_cbn_in Hdb. run_cbn_in Hmono. run_cbn_in Hd. run_cbn_in He. run_cbn_in Hr.
      run_cbn_in Hrec.
      exists w', (mkGroupDelegateRecord (gd_delegator d) g (gd_readWrite d) :: new).
      split; [exact Hrun|]. split; [by rewrite Hdb, <- app_assoc|].
      split; [|done]. constructor; [|done]. exists g. cbn [fst snd]. split; [by apply Hmono|done].
    + match goal with |- context [for_each items _ _ ?w1] =>
        destruct (IH w1) as (w' & new & Hrun & Hdb & Hnew & Hmono & Hd & He & Hr & Hrec) end.
      run_cbn_in Hdb. run_cbn_in Hmono. run_cbn_in Hd. run_cbn_in He. run_cbn_in Hr.
      run_cbn_in Hrec.
      exists w', (mkGroupDelegateRecord (gd_delegator d) (w_next_id w) (gd_readWrite d) :: new).
      split; [exact Hrun|]. split; [by rewrite Hdb, <- app_assoc|].
      split; [|split; [|done]].
      * constructor; [|done]. exists (w_next_id w). cbn [fst snd]. split; [|done].
        apply Hmono. by rewrite lookup_insert_eq.
      * intros uid' g' Hg'. apply Hmono. rewrite lookup_insert_ne; [done|]. intros ->. congruence.
Qed.

Lemma individualDelegateReconcile_run (diruid : string) (w : World) (record : option DirRecord) :
  w_record w = Some record →
  ∃ w',
    in_txn diruid "individualDelegateReconcile" individualDelegateReconcile tt w = (Ok tt, w')
    ∧ db_delegates (w_db w') = db_delegates (w_db w) ++ r_delegates (w_remote w)
    ∧ db_group_delegates (w_db w') = db_group_delegates (w_db w)
    ∧ db_external_delegates (w_db w') = db_external_delegates (w_db w)
    ∧ db_groups (w_db w') = db_groups (w_db w)
    ∧ w_remote w' = w_remote w
    ∧ w_record w' = w_record w.
Proof.
  intros Hrec. rewrite in_txn_run.
  unfold individualDelegateReconcile, dumpIndividualDelegatesExternal. run_lazy.
  rewrite Hrec. run_cbn.
  match goal with |- context [for_each_ ?l ?b ?w1] =>
    destruct (delegates_loop (w_next_txn w) l w1) as (w' & Hrun & Hd & Hg & He & Hgr & Hr & Hrec');
    assert (E : for_each_ l b w1 = (Ok tt, w')) by exact Hrun; rewrite E; clear E end.
  run_cbn_in Hd. run_cbn_in Hg. run_cbn_in He. run_cbn_in Hgr. run_cbn_in Hr. run_cbn_in Hrec'.
  eexists. split; [reflexivity|]. rewrite db_txn_commit. unfold txn_commit. run_cbn.
  rewrite Hrec'. done.
Qed.

Lemma groupDelegateReconcile_run (diruid : string) (w : World) (record : option DirRecord) :
  w_record w = Some record →
  ∃ w' new,
    in_txn diruid "groupDelegateReconcile" groupDelegateReconcile tt w = (Ok tt, w')
    ∧ db_group_delegates (w_db w') = db_group_delegates (w_db w) ++ new
    ∧ Forall2 (fun (item : GroupDelegateRecord * string) row =>
         ∃ g, db_groups (w_db w') !! item.2 = Some g
            ∧ row = mkGroupDelegateRecord (gd_delegator item.1) g (gd_readWrite item.1))
        (r_group_delegates (w_remote w)) new
    ∧ (∀ uid g, db_groups (w_db w) !! uid = Some g → db_groups (w_db w') !! uid = Some g)
    ∧ db_delegates (w_db w') = db_delegates (w_db w)
    ∧ db_external_delegates (w_db w') = db_external_delegates (w_db w)
    ∧ w_remote w' = w_remote w
    ∧ w_record w' = w_record w.
Proof.
  intros Hrec. rewrite in_txn_run.
  unfold groupDelegateReconcile, dumpGroupDelegatesExternal. run_lazy.
  rewrite Hrec. run_cbn.
  match goal with |- context [for_each_ ?l ?b ?w1] =>
    destruct (group_delegates_loop (w_next_txn w) l w1)
      as (w' & new & Hrun & Hdb & Hnew & Hmono & Hd & He & Hr & Hrec');
    assert (E : for_each_ l b w1 = (Ok tt, w')) by exact Hrun; rewrite E; clear E end.
  run_cbn_in Hdb. run_cbn_in Hmono. run_cbn_in Hd. run_cbn_in He. run_cbn_in Hr.
  run_cbn_in Hrec'.
  eexists _, new. split; [reflexivity|]. rewrite db_txn_commit. unfold txn_commit. run_cbn.
  rewrite Hrec'. done.
Qed.

Lemma externalDelegateReconcile_run (diruid : string) (w : World) (record : option DirRecord) :
  w_record w = Some record →
  ∃ w',
    in_txn diruid "externalDelegateReconcile" externalDelegateReconcile tt w = (Ok tt, w')
    ∧ db_external_delegates (w_db w') = db_external_delegates (w_db w)
                                        ++ r_external_delegates (w_remote w)
    ∧ db_delegates (w_db w') = db_delegates (w_db w)
    ∧ db_group_delegates (w_db w') = db_group_delegates (w_db w)
    ∧ db_groups (w_db w') = db_groups (w_db w).
Proof.
  intros Hrec. rewrite in_txn_run.
  unfold externalDelegateReconcile, dumpExternalDelegatesExternal. run_lazy.
  rewrite Hrec. run_cbn.
  match goal with |- context [for_each_ ?l ?b ?w1] =>
    destruct (external_delegates_loop (w_next_txn w) l w1) as (w' & Hrun & He & Hd & Hg & Hgr);
    assert (E : for_each_ l b w1 = (Ok tt, w')) by exact Hrun; rewrite E; clear E end.
  run_cbn_in Hd. run_cbn_in Hg. run_cbn_in He. run_cbn_in Hgr.
  eexists. split; [reflexivity|]. rewrite db_txn_commit. done.
Qed.

Lemma delegateReconcile_without_record (diruid : string) (w : World) :
  w_record w = None →
  ∃ w',
    delegateReconcile diruid w
    = (Err (AttributeError "'CrossPodHomeSync' object has no attribute 'record'"), w')
    ∧ w_db w' = w_db w
    ∧ w_trace w' = w_trace w
        ++ [EvEnter "delegateReconcile";
            EvNewTransaction (w_next_txn w) (label diruid "individualDelegateReconcile");
            EvAbort (w_next_txn w);
            EvLogError (label diruid "individualDelegateReconcile" +:+ " failed: "
                        +:+ "'CrossPodHomeSync' object has no attribute 'record'")].
Proof.
  intros Hrec. unfold delegateReconcile, call. rewrite run_bind.
  unfold emit at 1, modify at 1. cbv beta iota. rewrite run_bind, run_bind, in_txn_run.
  unfold individualDelegateReconcile. run_lazy. rewrite Hrec. run_cbn.
  eexists. split; [reflexivity|]. unfold abort_txn, txn_abort. run_cbn.
  rewrite lookup_insert_eq. run_cbn. split; [done|]. by rewrite <- !app_assoc.
Qed.

(** X13.  [delegateReconcile], once [self.record] has been assigned, ends
    normally.  It appends the remote individual delegate rows to DELEGATES
    and the remote external rows to EXTERNAL_DELEGATE_GROUPS, in order and
    unchanged, and appends one row to DELEGATE_GROUPS per remote group
    delegate row, with the same delegator and access, whose group id is the
    id the local pod has for the group's directory uid at the end; groups the
    local pod already knew keep their ids.  Before [loadRecord] has run there
    is no [self.record]: the first of the three steps ends with
    [AttributeError], its transaction is aborted, and the store is
    unchanged. *)
Theorem delegateReconcile_copies (diruid : string) (w : World) :
  match w_record w with
  | Some _ =>
      ∃ w' new,
        delegateReconcile diruid w = (Ok tt, w')
        ∧ db_delegates (w_db w') = db_delegates (w_db w) ++ r_delegates (w_remote w)
        ∧ db_external_delegates (w_db w')
          = db_external_delegates (w_db w) ++ r_external_delegates (w_remote w)
        ∧ db_group_delegates (w_db w') = db_group_delegates (w_db w) ++ new
        ∧ Forall2 (fun (item : GroupDelegateRecord * string) row =>
             ∃ g, db_groups (w_db w') !! item.2 = Some g
                ∧ row = mkGroupDelegateRecord (gd_delegator item.1) g (gd_readWrite item.1))
            (r_group_delegates (w_remote w)) new
        ∧ (∀ uid g, db_groups (w_db w) !! uid = Some g → db_groups (w_db w') !! uid = Some g)
  | None =>
      ∃ w',
        delegateReconcile diruid w
        = (Err (AttributeError "'CrossPodHomeSync' object has no attribute 'record'"), w')
        ∧ w_db w' = w_db w
        ∧ w_trace w' = w_trace w
            ++ [EvEnter "delegateReconcile";
                EvNewTransaction (w_next_txn w) (label diruid "individualDelegateReconcile");
                EvAbort (w_next_txn w);
                EvLogError (label diruid "individualDelegateReconcile" +:+ " failed: "
                            +:+ "'CrossPodHomeSync' object has no attribute 'record'")]
  end.
Proof.
  destruct (w_record w) as [record|] eqn:Hrec; [|by apply delegateReconcile_without_record].
  destruct (individualDelegateReconcile_run diruid (record_event (EvEnter "delegateReconcile") w)
              record Hrec) as (w1 & Hrun1 & Hd1 & Hg1 & He1 & Hgr1 & Hr1 & Hrec1).
  destruct (groupDelegateReconcile_run diruid w1 record)
    as (w2 & new & Hrun2 & Hg2 & Hnew & Hmono & Hd2 & He2 & Hr2 & Hrec2); [by rewrite Hrec1|].
  destruct (externalDelegateReconcile_run diruid w2 record)
    as (w3 & Hrun3 & He3 & Hd3 & Hg3 & Hgr3); [by rewrite Hrec2, Hrec1|].
  run_cbn_in Hd1. run_cbn_in Hg1. run_cbn_in He1. run_cbn_in Hgr1. run_cbn_in Hr1.
  exists (record_event (EvLeave "delegateReconcile") w3), new. split.
  { unfold delegateReconcile, call. rewrite run_bind. unfold emit at 1, modify at 1.
    cbv beta iota. rewrite run_bind, run_bind, Hrun1. cbv beta iota.
    rewrite run_bind, Hrun2. cbv beta iota. rewrite Hrun3. reflexivity. }
  run_cbn.
  rewrite Hd3, Hd2, Hd1, He3, He2, He1, Hr2, Hr1, Hg3, Hg2, Hg1, Hgr3.
  split; [done|]. split; [done|]. split; [done|]. split.
  - by rewrite <- Hr1.
  - intros uid g Hg. apply Hmono. by rewrite Hgr1.
Qed.
